(** * Static-equilibrium solver of a pin-jointed truss (truss.py)

    A shallow embedding of the class [Truss] of truss.py: the constructor
    [__init__] and the method [calculate_force], with the Python effects the
    method has (exceptions, the process-wide warnings filter, printing, the
    call of the sparse solver) threaded through an explicit state.

    The arithmetic of numpy's float64 is kept abstract behind the class
    [Scalar]; the structural results hold for every implementation of it.
    Concrete runs are carried out over canonical rationals (exact
    arithmetic), see [ExactQ]. *)

From Stdlib Require Import String Ascii DecimalString Bool ZArith QArith Qabs List Lia.
Import ListNotations.

Set Implicit Arguments.
Local Open Scope Z_scope.

(** ** Python exceptions and outcomes *)

Inductive exn : Type :=
| IndexError
| ValueError (msg : string)
| RuntimeError (msg : string)
| Warning (category : string).

Inductive result (A : Type) : Type :=
| Ok (a : A)
| Raise (e : exn).

Arguments Ok {A} a.
Arguments Raise {A} e.

(** The messages the source uses. *)
Definition msg_not_suitable : string :=
  "Truss geometry not suitable for static equilbrium analysis".
Definition msg_cannot_solve : string :=
  "Cannot solve the linear system, unstable truss?".
Definition msg_max_empty : string := "max() arg is an empty sequence".
Definition msg_int : string := "cannot convert float to integer".
Definition msg_negative_row : string := "negative row index found".
Definition msg_not_square : string := "matrix must be square".
Definition msg_rhs_mismatch : string := "matrix - rhs dimension mismatch".
Definition RuntimeWarning : exn := Warning "RuntimeWarning".
Definition MatrixRankWarning : exn := Warning "MatrixRankWarning".

(** ** The scalar interface

    The operations [calculate_force] applies to numpy float64 values.
    Each operation that numpy can flag (overflow, invalid value, division
    by zero) comes with the predicate telling when it issues a
    RuntimeWarning; [int_of] is Python's [int()], undefined on nan and on
    infinities. *)

Class Scalar (F : Type) : Type := {
  f0 : F;
  f1 : F;
  fneg : F -> F;
  fsub : F -> F -> F;
  fadd : F -> F -> F;
  fmul : F -> F -> F;   (* used by the solver's contract only *)
  fpow2 : F -> F;
  fsqrt : F -> F;
  fdiv : F -> F -> F;
  feqb : F -> F -> bool;
  int_of : F -> option Z;
  warns_sub : F -> F -> bool;
  warns_add : F -> F -> bool;
  warns_pow2 : F -> bool;
  warns_sqrt : F -> bool;
  warns_div : F -> F -> bool
}.

(** What the sparse solver does on a square system whose right-hand side
    has the right length: it returns a vector, or returns one together
    with a warning (singular matrix), or raises. *)
Inductive solver_outcome (F : Type) : Type :=
| Solved (f : list F)
| Warns (f : list F)
| Raises (e : exn).

Arguments Solved {F} f.
Arguments Warns {F} f.
Arguments Raises {F} e.

Section TrussModel.

Context {F : Type} {SF : Scalar F}.

(** ** Data: one row of the joints table, one row of the beams table *)

Record Joint : Type := mkJoint {
  jid : F;    (* column 0: index *)
  jx : F;     (* column 1 *)
  jy : F;     (* column 2 *)
  jfx : F;    (* column 3: external force, x *)
  jfy : F;    (* column 4: external force, y *)
  jsup : F    (* column 5: 1 when rigidly supported *)
}.

Record Beam : Type := mkBeam {
  bid : Z;    (* column 0: index *)
  ba : Z;     (* column 1: first joint *)
  bb : Z      (* column 2: second joint *)
}.

(** The three parallel lists from which the sparse matrix is built. *)
Record coo : Type := mkCoo {
  row : list Z;
  col : list Z;
  data : list F
}.

Definition coo_empty : coo := mkCoo [] [] [].

(** The matrix handed to the solver: its shape and its (row, column, value)
    triplets; entries with the same position add up. *)
Record csr : Type := mkCsr {
  nrows : Z;
  ncols : Z;
  triplets : list (Z * Z * F)
}.

(** ** State: the object and the parts of the process the method touches *)

Record State : Type := mkState {
  joints : list Joint;              (* self.joints *)
  beams : list Beam;                (* self.beams *)
  warn_error : bool;                (* warnings.filterwarnings('error') is in force *)
  stdout : list string;             (* lines printed *)
  solves : list (csr * list F)      (* systems handed to spsolve *)
}.

Definition M (A : Type) : Type := State -> result A * State.

Definition ret {A} (a : A) : M A := fun st => (Ok a, st).

Definition bind {A B} (m : M A) (k : A -> M B) : M B :=
  fun st =>
    match m st with
    | (Ok a, st') => k a st'
    | (Raise e, st') => (Raise e, st')
    end.

Definition raise {A} (e : exn) : M A := fun st => (Raise e, st).

(** [try: body  except: handler] with a bare [except]. *)
Definition try_except {A} (body handler : M A) : M A :=
  fun st =>
    match body st with
    | (Ok a, st') => (Ok a, st')
    | (Raise _, st') => handler st'
    end.

Definition get_joints : M (list Joint) := fun st => (Ok (joints st), st).
Definition get_beams : M (list Beam) := fun st => (Ok (beams st), st).

Definition print (s : string) : M unit :=
  fun st => (Ok tt, mkState (joints st) (beams st) (warn_error st)
                            (stdout st ++ [s]) (solves st)).

Definition filterwarnings_error : M unit :=
  fun st => (Ok tt, mkState (joints st) (beams st) true (stdout st) (solves st)).

Definition log_solve (A : csr) (b : list F) : M unit :=
  fun st => (Ok tt, mkState (joints st) (beams st) (warn_error st)
                            (stdout st) (solves st ++ [(A, b)])).

(** A warning is an exception once the filter is 'error'; before that it
    goes to the error stream, which is not part of the state. *)
Definition warn (e : exn) : M unit :=
  fun st => if warn_error st then (Raise e, st) else (Ok tt, st).

End TrussModel.

Arguments Joint F : clear implicits.
Arguments coo F : clear implicits.
Arguments csr F : clear implicits.
Arguments State F : clear implicits.
Arguments M F A : clear implicits.

Declare Scope truss_scope.
Delimit Scope truss_scope with truss.
Notation "x <- m ;; k" := (bind m (fun x => k))
  (at level 61, m at next level, right associativity) : truss_scope.
Notation "m ;;; k" := (bind m (fun _ => k))
  (at level 61, right associativity) : truss_scope.
Open Scope truss_scope.

Section TrussCode.

Context {F : Type} {SF : Scalar F}.

(** The solver of scipy is not part of the repository: it is a parameter. *)
Variable spsolve : csr F -> list F -> solver_outcome F.

(** ** Python and numpy primitives *)

(** [l[i]] on a list or an array: a negative index counts from the end,
    an index out of range raises IndexError. *)
Definition wrap_index (n : nat) (i : Z) : option nat :=
  let k := if i <? 0 then i + Z.of_nat n else i in
  if (0 <=? k) && (k <? Z.of_nat n) then Some (Z.to_nat k) else None.

Definition getitem {A} (l : list A) (i : Z) : M F A :=
  match wrap_index (length l) i with
  | Some k => match nth_error l k with
              | Some x => ret x
              | None => raise IndexError
              end
  | None => raise IndexError
  end.

Fixpoint set_nth {A} (l : list A) (k : nat) (v : A) : list A :=
  match l, k with
  | [], _ => []
  | _ :: l', O => v :: l'
  | x :: l', S k' => x :: set_nth l' k' v
  end.

(** [l[i] = v] on a Python list. *)
Definition setitem {A} (l : list A) (i : Z) (v : A) : M F (list A) :=
  match wrap_index (length l) i with
  | Some k => ret (set_nth l k v)
  | None => raise IndexError
  end.

(** [max(l)] on a list of integers. *)
Definition max_list (l : list Z) : option Z :=
  match l with
  | [] => None
  | x :: l' => Some (fold_left Z.max l' x)
  end.

Definition py_max (l : list Z) : M F Z :=
  match max_list l with
  | Some m => ret m
  | None => raise (ValueError msg_max_empty)
  end.

(** [int(x)] on a float. *)
Definition py_int (x : F) : M F Z :=
  match int_of x with
  | Some z => ret z
  | None => raise (ValueError msg_int)
  end.

(** [a - 1] on a numpy int64: the least value wraps around, with a
    RuntimeWarning. *)
Definition int64_min : Z := - 2 ^ 63.
Definition int64_max : Z := 2 ^ 63 - 1.

Definition int64_pred (a : Z) : M F Z :=
  if a =? int64_min then warn RuntimeWarning ;;; ret int64_max
  else ret (a - 1).

(** A float64 operation: the value, after the warning if there is one. *)
Definition flagged (w : bool) (v : F) : M F F :=
  if w then warn RuntimeWarning ;;; ret v else ret v.

Definition f_sub (x y : F) : M F F := flagged (warns_sub x y) (fsub x y).
Definition f_add (x y : F) : M F F := flagged (warns_add x y) (fadd x y).
Definition f_pow2 (x : F) : M F F := flagged (warns_pow2 x) (fpow2 x).
Definition f_sqrt (x : F) : M F F := flagged (warns_sqrt x) (fsqrt x).
Definition f_div (x y : F) : M F F := flagged (warns_div x y) (fdiv x y).

(** [for i in range(n)] threading the local variables [acc]. *)
Fixpoint for_each {A} (body : nat -> A -> M F A) (l : list nat) (acc : A) : M F A :=
  match l with
  | [] => ret acc
  | i :: l' => acc' <- body i acc ;; for_each body l' acc'
  end.

Definition for_range {A} (n : nat) (body : nat -> A -> M F A) (acc : A) : M F A :=
  for_each body (seq 0 n) acc.

(** [row.append(r); col.append(c); data.append(v)] *)
Definition append3 (a : coo F) (r c : Z) (v : F) : coo F :=
  mkCoo (row a ++ [r]) (col a ++ [c]) (data a ++ [v]).

(** ** Truss.__init__

    The two tables arrive parsed (reading and splitting the files is
    outside the model): the joints as rows of floats, the beams as rows of
    integers, as [astype(float).astype(int)] leaves them.  The constructor
    stores them; it checks nothing. *)
Definition Truss_init (jointtable : list (Joint F)) (beamtable : list Beam) : M F unit :=
  fun st => (Ok tt, mkState jointtable beamtable (warn_error st) (stdout st) (solves st)).

(** ** Truss.calculate_force *)

(** [a / np.sqrt(dx**2 + dy**2)] *)
Definition unit_component (a dx dy : F) : M F F :=
  sx <- f_pow2 dx ;;
  sy <- f_pow2 dy ;;
  s <- f_add sx sy ;;
  n <- f_sqrt s ;;
  f_div a n.

(** Body of the loop over the beams (lines 57-86). *)
Definition beam_body (b : nat) (a : coo F) : M F (coo F) :=
  bs <- get_beams ;;
  js <- get_joints ;;
  bm <- getitem bs (Z.of_nat b) ;;
  i1 <- int64_pred (ba bm) ;;
  j1 <- getitem js i1 ;;
  bm' <- getitem bs (Z.of_nat b) ;;
  i2 <- int64_pred (bb bm') ;;
  j2 <- getitem js i2 ;;
  j1num <- py_int (jid j1) ;;
  j2num <- py_int (jid j2) ;;
  j1x <- f_sub (jx j1) (jx j2) ;;
  j1y <- f_sub (jy j1) (jy j2) ;;
  bj1x <- unit_component j1x j1x j1y ;;
  bj1y <- unit_component j1y j1x j1y ;;
  let a := append3 a (j1num * 2 - 2) (Z.of_nat b) bj1x in
  let a := append3 a (j1num * 2 - 1) (Z.of_nat b) bj1y in
  j2x <- f_sub (jx j2) (jx j1) ;;
  j2y <- f_sub (jy j2) (jy j1) ;;
  bj2x <- unit_component j2x j2x j2y ;;
  bj2y <- unit_component j2y j2x j2y ;;
  let a := append3 a (j2num * 2 - 2) (Z.of_nat b) bj2x in
  let a := append3 a (j2num * 2 - 1) (Z.of_nat b) bj2y in
  ret a.

(** Body of the loop over the joints (lines 90-107); the locals are the three
    lists and the right-hand side [sol]. *)
Definition joint_body (j : nat) (acc : coo F * list F) : M F (coo F * list F) :=
  let a := fst acc in
  let sol := snd acc in
  js <- get_joints ;;
  jt <- getitem js (Z.of_nat j) ;;
  sol <- (if negb (feqb (jfx jt) f0)
          then jnum <- py_int (jid jt) ;; setitem sol (jnum * 2 - 2) (fneg (jfx jt))
          else ret sol) ;;
  sol <- (if negb (feqb (jfy jt) f0)
          then jnum <- py_int (jid jt) ;; setitem sol (jnum * 2 - 1) (fneg (jfy jt))
          else ret sol) ;;
  if feqb (jsup jt) f1
  then
    jnum <- py_int (jid jt) ;;
    let r1 := row a ++ [jnum * 2 - 2] in
    m1 <- py_max (col a) ;;
    let c1 := col a ++ [m1 + 1] in
    let d1 := data a ++ [f1] in
    let r2 := r1 ++ [jnum * 2 - 1] in
    m2 <- py_max c1 ;;
    let c2 := c1 ++ [m2 + 1] in
    let d2 := d1 ++ [f1] in
    ret (mkCoo r2 c2 d2, sol)
  else ret (a, sol).

(** Lines 53-107: the lists and the right-hand side. *)
Definition assemble : M F (coo F * list F) :=
  bs <- get_beams ;;
  a <- for_range (length bs) beam_body coo_empty ;;
  js <- get_joints ;;
  let sol := repeat f0 (length js * 2) in
  for_range (length js) joint_body (a, sol).

(** The triplets of the three lists. *)
Definition entries (a : coo F) : list (Z * Z * F) :=
  combine (combine (row a) (col a)) (data a).

(** [scipy.sparse.csr_matrix((data, (row, col)), shape=...)]: refuses a
    negative index. *)
Definition csr_matrix (a : coo F) (shape : Z * Z) : M F (csr F) :=
  if forallb (fun r => 0 <=? r) (row a) && forallb (fun c => 0 <=? c) (col a)
  then ret (mkCsr (fst shape) (snd shape) (entries a))
  else raise (ValueError msg_negative_row).

(** [scipy.sparse.linalg.spsolve(matrix, sol)]: the shape checks scipy makes
    before it factorises, then the solver proper. *)
Definition call_spsolve (A : csr F) (b : list F) : M F (list F) :=
  log_solve A b ;;;
  if negb (nrows A =? ncols A) then raise (ValueError msg_not_square)
  else if negb (nrows A =? Z.of_nat (length b)) then raise (ValueError msg_rhs_mismatch)
  else match spsolve A b with
       | Solved f => ret f
       | Warns f => warn MatrixRankWarning ;;; ret f
       | Raises e => raise e
       end.

(** Lines 108-123. *)
Definition check_and_solve (sys : coo F * list F) : M F (list F) :=
  let a := fst sys in
  let sol := snd sys in
  let beamforce := [] in
  mr <- py_max (row a) ;;
  mc <- py_max (col a) ;;
  if (mr >? mc) || (mr <? mc)
  then raise (RuntimeError msg_not_suitable)
  else
    matrix <- csr_matrix a (mr + 1, mc + 1) ;;
    filterwarnings_error ;;;
    try_except
      (force <- call_spsolve matrix sol ;;
       bs <- get_beams ;;
       ret (firstn (length bs) force))
      (print msg_cannot_solve ;;; ret beamforce).

Definition calculate_force : M F (list F) :=
  sys <- assemble ;; check_and_solve sys.

(** ** Vocabulary of the statements *)

(** Shape of the assembled system: (max(row)+1, max(col)+1). *)
Definition shape (a : coo F) : option (Z * Z) :=
  match max_list (row a), max_list (col a) with
  | Some mr, Some mc => Some (mr + 1, mc + 1)
  | _, _ => None
  end.

(** Product of the matrix with a vector: entry [r] adds [v * f[c]] over the
    triplets [(r, c, v)] of row [r]. *)
Definition row_dot (ts : list (Z * Z * F)) (f : list F) (r : Z) : F :=
  fold_left
    (fun s t => match t with
                | (r', c, v) => if r' =? r then fadd s (fmul v (nth (Z.to_nat c) f f0)) else s
                end)
    ts f0.

Definition mat_vec (A : csr F) (f : list F) : list F :=
  map (fun r => row_dot (triplets A) f (Z.of_nat r)) (seq 0 (Z.to_nat (nrows A))).

(** The system as the solver receives it, when the lists make one. *)
Definition nonneg (a : coo F) : bool :=
  forallb (fun r => 0 <=? r) (row a) && forallb (fun c => 0 <=? c) (col a).

Definition system_matrix (a : coo F) : option (csr F) :=
  match shape a with
  | Some (R, C) => if nonneg a then Some (mkCsr R C (entries a)) else None
  | None => None
  end.

(** The solver does not deliver: scipy's shape checks refuse the system, or
    the solver warns or raises. *)
Definition solve_fails (A : csr F) (b : list F) : bool :=
  negb (nrows A =? ncols A) || negb (nrows A =? Z.of_nat (length b)) ||
  match spsolve A b with
  | Solved _ => false
  | _ => true
  end.

(** What [assemble] returns when it returns, and the matrix made of it. *)
Definition assembled (st : State F) : coo F * list F :=
  match fst (assemble st) with
  | Ok sys => sys
  | Raise _ => (coo_empty, [])
  end.

Definition matrix_of (st : State F) : csr F :=
  match system_matrix (fst (assembled st)) with
  | Some A => A
  | None => mkCsr 0 0 []
  end.

(** *** Well-formed geometries *)

Definition joint0 : Joint F := mkJoint f0 f0 f0 f0 f0 f0.
Definition beam0 : Beam := mkBeam 0 0 0.

(** The joint with index [k] (1-based), by its place in the table. *)
Definition joint_of (js : list (Joint F)) (k : Z) : Joint F :=
  nth (Z.to_nat (k - 1)) js joint0.

(** The index column counts 1, 2, ... in table order. *)
Definition ids_ok (js : list (Joint F)) : bool :=
  forallb (fun i => match int_of (jid (nth i js joint0)) with
                    | Some z => z =? Z.of_nat i + 1
                    | None => false
                    end)
          (seq 0 (length js)).

(** Both ends of the beam are indices of joints. *)
Definition beam_ok (n : nat) (bm : Beam) : bool :=
  (1 <=? ba bm) && (ba bm <=? Z.of_nat n) && (1 <=? bb bm) && (bb bm <=? Z.of_nat n).

(** [a / sqrt(dx^2 + dy^2)], and whether computing it is flagged. *)
Definition ucomp (a dx dy : F) : F :=
  fdiv a (fsqrt (fadd (fpow2 dx) (fpow2 dy))).

Definition ucomp_warns (a dx dy : F) : bool :=
  warns_pow2 dx || warns_pow2 dy || warns_add (fpow2 dx) (fpow2 dy) ||
  warns_sqrt (fadd (fpow2 dx) (fpow2 dy)) ||
  warns_div a (fsqrt (fadd (fpow2 dx) (fpow2 dy))).

Definition pair_warns (p q : Joint F) : bool :=
  let dx := fsub (jx p) (jx q) in
  let dy := fsub (jy p) (jy q) in
  warns_sub (jx p) (jx q) || warns_sub (jy p) (jy q) ||
  ucomp_warns dx dx dy || ucomp_warns dy dx dy.

Definition beam_warns (js : list (Joint F)) (bm : Beam) : bool :=
  pair_warns (joint_of js (ba bm)) (joint_of js (bb bm)) ||
  pair_warns (joint_of js (bb bm)) (joint_of js (ba bm)).

(** No float operation of the assembly turns into an exception: the filter
    is not 'error', or no operation is flagged. *)
Definition quiet (st : State F) : bool :=
  negb (warn_error st) ||
  forallb (fun bm => negb (beam_warns (joints st) bm)) (beams st).

Definition well_formed (st : State F) : bool :=
  ids_ok (joints st) &&
  forallb (beam_ok (length (joints st))) (beams st) &&
  quiet st.

(** *** The triplets a well-formed geometry gives rise to *)

(** Unit vector at joint [p] of the beam between [p] and [q]. *)
Definition unit_x (p q : Joint F) : F :=
  ucomp (fsub (jx p) (jx q)) (fsub (jx p) (jx q)) (fsub (jy p) (jy q)).
Definition unit_y (p q : Joint F) : F :=
  ucomp (fsub (jy p) (jy q)) (fsub (jx p) (jx q)) (fsub (jy p) (jy q)).

Definition beam_entries (js : list (Joint F)) (b : nat) (bm : Beam) : list (Z * Z * F) :=
  let j1 := joint_of js (ba bm) in
  let j2 := joint_of js (bb bm) in
  [ (ba bm * 2 - 2, Z.of_nat b, unit_x j1 j2);
    (ba bm * 2 - 1, Z.of_nat b, unit_y j1 j2);
    (bb bm * 2 - 2, Z.of_nat b, unit_x j2 j1);
    (bb bm * 2 - 1, Z.of_nat b, unit_y j2 j1) ].

Definition beam_part (st : State F) : list (Z * Z * F) :=
  flat_map (fun b => beam_entries (joints st) b (nth b (beams st) beam0))
           (seq 0 (length (beams st))).

Definition is_supported (j : Joint F) : bool := feqb (jsup j) f1.

Definition supported (js : list (Joint F)) : list (Joint F) := filter is_supported js.

Definition id_of (j : Joint F) : Z :=
  match int_of (jid j) with
  | Some z => z
  | None => 0
  end.

(** The two reaction unknowns of the [s]-th supported joint, the beams
    taking the first [B] columns. *)
Definition reaction_entries (B : Z) (s : nat) (j : Joint F) : list (Z * Z * F) :=
  [ (id_of j * 2 - 2, B + 2 * Z.of_nat s, f1);
    (id_of j * 2 - 1, B + 2 * Z.of_nat s + 1, f1) ].

Definition enumerate {A} (l : list A) : list (nat * A) := combine (seq 0 (length l)) l.

Definition reaction_part (st : State F) : list (Z * Z * F) :=
  flat_map (fun p => reaction_entries (Z.of_nat (length (beams st))) (fst p) (snd p))
           (enumerate (supported (joints st))).

Fixpoint reactions (B : Z) (s : nat) (sup : list (Joint F)) : list (Z * Z * F) :=
  match sup with
  | [] => []
  | j :: sup' => reaction_entries B s j ++ reactions B (S s) sup'
  end.

Definition of_entries (es : list (Z * Z * F)) : coo F :=
  mkCoo (map (fun e => fst (fst e)) es) (map (fun e => snd (fst e)) es) (map snd es).

Definition coo_app (a : coo F) (es : list (Z * Z * F)) : coo F :=
  mkCoo (row a ++ row (of_entries es)) (col a ++ col (of_entries es))
        (data a ++ data (of_entries es)).

Definition in_column (c : Z) (es : list (Z * Z * F)) : list (Z * Z * F) :=
  filter (fun e => snd (fst e) =? c) es.

(** Some beam ends at joint [k], or joint [k] is supported. *)
Definition attached (st : State F) (k : Z) : bool :=
  existsb (fun bm => (ba bm =? k) || (bb bm =? k)) (beams st) ||
  is_supported (joint_of (joints st) k).

(** Some beam names a joint beyond the end of the table. *)
Definition dangling (st : State F) : bool :=
  existsb (fun bm => (Z.of_nat (length (joints st)) <? ba bm) ||
                     (Z.of_nat (length (joints st)) <? bb bm)) (beams st).

(** Some beam joins two joints with the same coordinates. *)
Definition coincident (st : State F) : bool :=
  existsb (fun bm => feqb (jx (joint_of (joints st) (ba bm))) (jx (joint_of (joints st) (bb bm))) &&
                     feqb (jy (joint_of (joints st) (ba bm))) (jy (joint_of (joints st) (bb bm))))
          (beams st).

(** *** Effects on the state *)

(** A computation that only reads: it leaves the state as it is, and what
    it returns depends on the two tables alone. *)
Definition same_truss (st1 st2 : State F) : Prop :=
  joints st1 = joints st2 /\ beams st1 = beams st2.

Definition readonly {A} (m : M F A) : Prop :=
  (forall st, snd (m st) = st) /\
  (forall st1 st2 a1 a2,
      same_truss st1 st2 ->
      fst (m st1) = Ok a1 -> fst (m st2) = Ok a2 -> a1 = a2).

(** Computations that leave the two tables alone. *)
Definition keeps_truss {A} (m : M F A) : Prop :=
  forall st, same_truss (snd (m st)) st.

End TrussCode.

(** ** Exact arithmetic: canonical rationals

    The instance used for the concrete runs.  Every value is kept in lowest
    terms, so that equal numbers are equal terms.  A rational has no nan:
    dividing by zero issues the warning and yields 0. *)

Module ExactQ.

Local Open Scope Q_scope.

Definition Qsqrt (q : Q) : Q :=
  Qred (Z.sqrt (Qnum q) # Pos.sqrt (Qden q)).

Definition Qtrunc (q : Q) : Z := Z.quot (Qnum q) (Zpos (Qden q)).

#[export] Instance scalarQ : Scalar Q := {|
  f0 := 0;
  f1 := 1;
  fneg := fun x => Qred (- x);
  fsub := fun x y => Qred (x - y);
  fadd := fun x y => Qred (x + y);
  fmul := fun x y => Qred (x * y);
  fpow2 := fun x => Qred (x * x);
  fsqrt := Qsqrt;
  fdiv := fun x y => Qred (x / y);
  feqb := Qeq_bool;
  int_of := fun x => Some (Qtrunc x);
  warns_sub := fun _ _ => false;
  warns_add := fun _ _ => false;
  warns_pow2 := fun _ => false;
  warns_sqrt := fun _ => false;
  warns_div := fun _ y => Qeq_bool y 0
|}.

Definition Q_eq_dec (x y : Q) : {x = y} + {x <> y}.
Proof. decide equality; [apply Pos.eq_dec | apply Z.eq_dec]. Defined.

(** *** A direct solver: Gauss-Jordan elimination on the dense augmented
    matrix, with the residual checked before the answer is returned. *)

Definition dense_entry (ts : list (Z * Z * Q)) (r c : nat) : Q :=
  fold_left
    (fun s t => match t with
                | (r', c', v) =>
                    if (r' =? Z.of_nat r)%Z && (c' =? Z.of_nat c)%Z then Qred (s + v) else s
                end)
    ts 0.

Definition augmented (A : csr Q) (b : list Q) : list (list Q) :=
  let n := Z.to_nat (nrows A) in
  map (fun r => map (dense_entry (triplets A) r) (seq 0 n) ++ [nth r b 0]) (seq 0 n).

Fixpoint split_pivot (c : nat) (rows : list (list Q)) : option (list Q * list (list Q)) :=
  match rows with
  | [] => None
  | r :: rs =>
      if Qeq_bool (nth c r 0) 0
      then match split_pivot c rs with
           | Some (p, rest) => Some (p, r :: rest)
           | None => None
           end
      else Some (r, rs)
  end.

Definition scale (q : Q) (r : list Q) : list Q := map (fun x => Qred (q * x)) r.

Definition eliminate (c : nat) (p r : list Q) : list Q :=
  let q := nth c r 0 in
  map (fun pr => Qred (snd pr - q * fst pr)) (combine p r).

Fixpoint jordan (cs : list nat) (done todo : list (list Q)) : option (list (list Q)) :=
  match cs with
  | [] => Some done
  | c :: cs' =>
      match split_pivot c todo with
      | None => None
      | Some (p, rest) =>
          let p' := scale (/ nth c p 0) p in
          jordan cs' (map (eliminate c p') done ++ [p']) (map (eliminate c p') rest)
      end
  end.

Definition solveQ (A : csr Q) (b : list Q) : solver_outcome Q :=
  let n := Z.to_nat (nrows A) in
  match jordan (seq 0 n) [] (augmented A b) with
  | None => Warns (repeat 0 n)
  | Some rows =>
      let f := map (fun r => last r 0) rows in
      if list_eq_dec Q_eq_dec (mat_vec A f) b
      then if Nat.eq_dec (length f) (Z.to_nat (ncols A)) then Solved f
           else Raises (RuntimeError "solution of the wrong length")
      else Raises (RuntimeError "residual not zero")
  end.

(** *** Geometries *)

Definition jt (i : Z) (x y fx fy : Q) (s : Z) : Joint Q :=
  mkJoint (inject_Z i) x y fx fy (inject_Z s).

(** A state of a fresh interpreter holding a truss built from two tables. *)
Definition fresh (js : list (Joint Q)) (bs : list Beam) : State Q :=
  mkState js bs false [] [].

(** Scenario 1 of the specification: one horizontal beam, joint 1 pinned,
    joint 2 loaded with (-10, 0). *)
Definition scenario1 : State Q :=
  fresh [jt 1 0 0 0 0 1; jt 2 1 0 (-10 # 1) 0 0] [mkBeam 1 1 2].

(** Two bars of length 5 meeting at a loaded apex, both feet pinned. *)
Definition two_bar : State Q :=
  fresh [jt 1 0 0 0 0 1; jt 2 (6 # 1) 0 0 0 1; jt 3 (3 # 1) (4 # 1) 0 (-100 # 1) 0]
        [mkBeam 1 1 3; mkBeam 2 2 3].

(** The same two bars with a fourth joint that carries nothing. *)
Definition two_bar_spare : State Q :=
  fresh [jt 1 0 0 0 0 1; jt 2 (6 # 1) 0 0 0 1; jt 3 (3 # 1) (4 # 1) 0 (-100 # 1) 0;
         jt 4 (9 # 1) (9 # 1) 0 0 0]
        [mkBeam 1 1 3; mkBeam 2 2 3].

(** Three joints on a line, the ends pinned, the middle one loaded across. *)
Definition collinear : State Q :=
  fresh [jt 1 0 0 0 0 1; jt 2 1 0 0 (-10 # 1) 0; jt 3 (2 # 1) 0 0 0 1]
        [mkBeam 1 1 2; mkBeam 2 2 3].

(** Tables with a beam of length zero, and with a beam to a missing joint. *)
Definition coincident_joints : list (Joint Q) := [jt 1 0 0 0 0 1; jt 2 0 0 0 0 1].
Definition coincident_beams : list Beam := [mkBeam 1 1 2].
Definition dangling_joints : list (Joint Q) := [jt 1 0 0 0 0 1; jt 2 1 0 0 0 1].
Definition dangling_beams : list Beam := [mkBeam 1 1 5].

(** Two bars, the first of length zero: joints 1 and 3 coincide. *)
Definition zero_length : State Q :=
  fresh [jt 1 0 0 0 0 1; jt 2 (6 # 1) 0 0 0 1; jt 3 0 0 0 (-100 # 1) 0]
        [mkBeam 1 1 3; mkBeam 2 2 3].

(** Joints without any beam. *)
Definition no_beams : State Q :=
  fresh [jt 1 0 0 0 0 1; jt 2 1 0 0 (-10 # 1) 0] [].

End ExactQ.


(** ** Truss.__repr__ *)

Section TrussReport.

Context {F : Type} {SF : Scalar F}.
Variable spsolve : csr F -> list F -> solver_outcome F.

(** ["{:.3f}".format(x)] is the Python runtime's: a parameter. *)
Variable fmt3 : F -> string.

Definition nl : string := String (ascii_of_nat 10) EmptyString.

(** [str(n)] on a natural number. *)
Definition str_of_int (n : nat) : string := NilZero.string_of_uint (Nat.to_uint n).

Fixpoint spaces (n : nat) : string :=
  match n with
  | O => EmptyString
  | S n' => String " " (spaces n')
  end.

(** ["{:>12}".format(s)] with 12 for [w]: pads on the left, never cuts. *)
Definition rjust (w : nat) (s : string) : string :=
  (spaces (w - String.length s) ++ s)%string.

(** [s[0]] on a string. *)
Definition str_first (s : string) : M F ascii :=
  match s with
  | EmptyString => raise IndexError
  | String c _ => ret c
  end.

Definition repr_header : string :=
  (" Beam       Force" ++ nl ++ "-----------------" ++ nl)%string.

(** The text of a force: a space is put before what does not start with a
    minus sign. *)
Definition signed (f : string) (c : ascii) : string :=
  if negb (Ascii.eqb c "-") then (" " ++ f)%string else f.

(** Body of the loop of [__repr__] (lines 153-157). *)
Definition repr_body (beamforce : list F) (i : nat) (out : string) : M F string :=
  x <- getitem beamforce (Z.of_nat i) ;;
  let f := fmt3 x in
  c <- str_first f ;;
  let f := signed f c in
  ret (out ++ "    " ++ str_of_int (i + 1) ++ rjust 12 f ++ nl)%string.

Definition Truss_repr : M F string :=
  beamforce <- calculate_force spsolve ;;
  let out := EmptyString in
  if negb (Nat.eqb (length beamforce) 0)
  then for_range (length beamforce) (repr_body beamforce) repr_header
  else ret out.

(** *** Vocabulary *)

(** The line of the [i]-th force (counting from 0), whose text is [f]. *)
Definition repr_line (i : nat) (f : string) : string :=
  match f with
  | EmptyString => EmptyString
  | String c _ => ("    " ++ str_of_int (i + 1) ++ rjust 12 (signed f c) ++ nl)%string
  end.

Fixpoint repr_lines (i : nat) (fs : list string) : string :=
  match fs with
  | [] => EmptyString
  | f :: fs' => (repr_line i f ++ repr_lines (S i) fs')%string
  end.

Definition render (forces : list F) : string :=
  match forces with
  | [] => EmptyString
  | _ :: _ => (repr_header ++ repr_lines 0 (map fmt3 forces))%string
  end.

Definition nonempty (s : string) : bool :=
  match s with
  | EmptyString => false
  | String _ _ => true
  end.

End TrussReport.

(** ** Truss.PlotGeometry

    pyplot keeps one current figure for the process: [plt.plot],
    [plt.axis] and [plt.margins] add to it, [plt.savefig] writes it out and
    leaves it in place.  The calls are recorded as they are made. *)

Section TrussPlot.

Context {F : Type} {SF : Scalar F}.

(** What the backend of pyplot answers to a file name: [None] when it
    writes the file, the exception it raises otherwise (a format it does
    not know, a path it cannot open). *)
Variable backend : string -> option exn.

Inductive plot_call : Type :=
| PltPlot (x y : F * F) (color : string)
| PltAxis (arg : string)
| PltMargins (arg : string).

Record Canvas : Type := mkCanvas {
  figure : list plot_call;                   (* calls on the current figure *)
  files : list (string * list plot_call)     (* figures written by savefig *)
}.

Record Process : Type := mkProcess {
  py : State F;
  plt : Canvas
}.

Definition P (A : Type) : Type := Process -> result A * Process.

Definition retP {A} (a : A) : P A := fun w => (Ok a, w).

Definition bindP {A B} (m : P A) (k : A -> P B) : P B :=
  fun w =>
    match m w with
    | (Ok a, w') => k a w'
    | (Raise e, w') => (Raise e, w')
    end.

(** A computation on the interpreter state alone. *)
Definition liftP {A} (m : M F A) : P A :=
  fun w =>
    match m (py w) with
    | (r, st') => (r, mkProcess st' (plt w))
    end.

Definition plt_call (c : plot_call) : P unit :=
  fun w => (Ok tt, mkProcess (py w) (mkCanvas (figure (plt w) ++ [c]) (files (plt w)))).

Definition savefig (name : string) : P unit :=
  fun w =>
    match backend name with
    | None => (Ok tt, mkProcess (py w)
                        (mkCanvas (figure (plt w)) (files (plt w) ++ [(name, figure (plt w))])))
    | Some e => (Raise e, w)
    end.

Fixpoint for_eachP (body : nat -> P unit) (l : list nat) : P unit :=
  match l with
  | [] => retP tt
  | i :: l' => bindP (body i) (fun _ => for_eachP body l')
  end.

(** Body of the loop of [PlotGeometry] (lines 130-142). *)
Definition plot_body (b : nat) : P unit :=
  bindP (liftP get_beams) (fun bs =>
  bindP (liftP get_joints) (fun js =>
  bindP (liftP (getitem bs (Z.of_nat b))) (fun bm =>
  bindP (liftP (int64_pred (ba bm))) (fun i1 =>
  bindP (liftP (getitem js i1)) (fun j1 =>
  bindP (liftP (getitem bs (Z.of_nat b))) (fun bm' =>
  bindP (liftP (int64_pred (bb bm'))) (fun i2 =>
  bindP (liftP (getitem js i2)) (fun j2 =>
  let j1x := jx j1 in
  let j1y := jy j1 in
  let j2x := jx j2 in
  let j2y := jy j2 in
  let x := (j1x, j2x) in
  let y := (j1y, j2y) in
  bindP (plt_call (PltPlot x y "blue")) (fun _ =>
  bindP (plt_call (PltAxis "equal")) (fun _ =>
  plt_call (PltMargins "0.1"))))))))))).

Definition PlotGeometry (plot_output : string) : P unit :=
  bindP (liftP get_beams) (fun bs =>
  bindP (for_eachP plot_body (seq 0 (length bs))) (fun _ =>
  savefig plot_output)).

(** *** Vocabulary *)

(** What one beam adds to the figure. *)
Definition beam_drawing (js : list (Joint F)) (bm : Beam) : list plot_call :=
  let j1 := joint_of js (ba bm) in
  let j2 := joint_of js (bb bm) in
  [ PltPlot (jx j1, jx j2) (jy j1, jy j2) "blue"; PltAxis "equal"; PltMargins "0.1" ].

Definition drawing (js : list (Joint F)) (bs : list Beam) : list plot_call :=
  flat_map (beam_drawing js) bs.

End TrussPlot.

Arguments plot_call F : clear implicits.
Arguments Canvas F : clear implicits.
Arguments Process F : clear implicits.
Arguments P F A : clear implicits.

(** ** More vocabulary for [calculate_force] *)

Section TrussMore.

Context {F : Type} {SF : Scalar F}.

(** The entry of the right-hand side for a load [x]: the load negated, and
    the initial 0 when the load compares equal to 0. *)
Definition rhs_entry (x : F) : F := if feqb x f0 then f0 else fneg x.

(** The right-hand side of a well-formed geometry: per joint, in joint
    order, the entry of its x-load then the entry of its y-load. *)
Definition rhs (js : list (Joint F)) : list F :=
  flat_map (fun j => [rhs_entry (jfx j); rhs_entry (jfy j)]) js.

(** No float operation of the assembly is flagged. *)
Definition unflagged (st : State F) : bool :=
  forallb (fun bm => negb (beam_warns (joints st) bm)) (beams st).

(** Indices and beam ends are well formed (nothing said of the warnings). *)
Definition tables_ok (st : State F) : bool :=
  ids_ok (joints st) && forallb (beam_ok (length (joints st))) (beams st).

(** A joint index as numpy resolves it in a table of [n] rows: indices
    [1 .. n] as they are, and [1 - n .. 0] counted from the end. *)
Definition resolve (n : nat) (k : Z) : Z := if k <=? 0 then k + Z.of_nat n else k.

Definition resolve_beam (n : nat) (bm : Beam) : Beam :=
  mkBeam (bid bm) (resolve n (ba bm)) (resolve n (bb bm)).

(** Both ends are indices numpy accepts. *)
Definition beam_reachable (n : nat) (bm : Beam) : bool :=
  (1 - Z.of_nat n <=? ba bm) && (ba bm <=? Z.of_nat n) &&
  (1 - Z.of_nat n <=? bb bm) && (bb bm <=? Z.of_nat n) &&
  (int64_min <? ba bm) && (int64_min <? bb bm).

Definition with_beams (st : State F) (bs : list Beam) : State F :=
  mkState (joints st) bs (warn_error st) (stdout st) (solves st).

(** The x-row and the y-row of the joints of a list of indices. *)
Definition row_pairs (ks : list Z) : list Z :=
  flat_map (fun k => [k * 2 - 2; k * 2 - 1]) ks.

(** What the turn of joint [j] (counting from 0, index [j + 1]) does to the
    right-hand side. *)
Definition sol_step (js : list (Joint F)) (j : nat) (sol : list F) : list F :=
  let jt := nth j js joint0 in
  let s1 := if negb (feqb (jfx jt) f0) then set_nth sol (2 * j) (fneg (jfx jt)) else sol in
  if negb (feqb (jfy jt) f0) then set_nth s1 (2 * j + 1) (fneg (jfy jt)) else s1.

(** Lines 110-114 without the state: the exception of the check or of the
    matrix constructor, or the matrix. *)
Definition precheck (a : coo F) : result (csr F) :=
  match max_list (row a) with
  | None => Raise (ValueError msg_max_empty)
  | Some mr =>
      match max_list (col a) with
      | None => Raise (ValueError msg_max_empty)
      | Some mc =>
          if (mr >? mc) || (mr <? mc) then Raise (RuntimeError msg_not_suitable)
          else if nonneg a then Ok (mkCsr (mr + 1) (mc + 1) (entries a))
               else Raise (ValueError msg_negative_row)
      end
  end.

(** Every triplet lies inside the shape of the matrix. *)
Definition within_shape (A : csr F) : bool :=
  forallb (fun t => (0 <=? fst (fst t)) && (fst (fst t) <? nrows A) &&
                    (0 <=? snd (fst t)) && (snd (fst t) <? ncols A))
          (triplets A).

End TrussMore.

(** ** Formatting and further geometries, in exact arithmetic *)

Module ExactReport.

Import ExactQ.

Fixpoint zeros (n : nat) : string :=
  match n with
  | O => EmptyString
  | S n' => String "0" (zeros n')
  end.

(** The counterpart of ["{:.3f}".format] on a rational: the sign, the
    integer part, a point and three decimals, rounded half to even. *)
Definition fmtQ3 (q : Q) : string :=
  let n := Qnum q in
  let d := Zpos (Qden q) in
  let a := Z.abs n * 1000 in
  let t := a / d in
  let r := a mod d in
  let m := if 2 * r <? d then t
           else if d <? 2 * r then t + 1
           else if Z.even t then t else t + 1 in
  let ip := str_of_int (Z.to_nat (m / 1000)) in
  let fp := str_of_int (Z.to_nat (m mod 1000)) in
  ((if (n <? 0)%Z then "-" else "") ++ ip ++ "." ++ zeros (3 - String.length fp)%nat ++ fp)%string.

(** The two bars whose first beam names its far end as joint 0: numpy
    counts index -1 from the end of the table, which is joint 3. *)
Definition two_bar_wrapped : State Q :=
  fresh (joints two_bar) [mkBeam 1 1 0; mkBeam 2 2 3].

(** The two bars followed by a beam to a joint 7 that does not exist. *)
Definition two_bar_stray : State Q :=
  fresh (joints two_bar) [mkBeam 1 1 3; mkBeam 2 2 3; mkBeam 3 1 7].

(** A pyplot on which nothing was drawn and that writes every file. *)
Definition blank : Canvas Q := mkCanvas [] [].
Definition any_file (name : string) : option exn := None.

End ExactReport.

(** * Properties *)

Section MonadFacts.

Context {F : Type} {SF : Scalar F}.

Lemma bind_ok {A B} (m : M F A) (k : A -> M F B) st a st' :
  m st = (Ok a, st') -> bind m k st = k a st'.
Proof. intros H. unfold bind. now rewrite H. Qed.

Lemma bind_ok_inv {A B} (m : M F A) (k : A -> M F B) st b st2 :
  bind m k st = (Ok b, st2) ->
  exists a st1, m st = (Ok a, st1) /\ k a st1 = (Ok b, st2).
Proof.
  unfold bind. destruct (m st) as [[a|e] st1]; [|discriminate].
  intros H. exists a, st1. auto.
Qed.

Lemma bind_raise {A B} (m : M F A) (k : A -> M F B) st e st' :
  m st = (Raise e, st') -> bind m k st = (Raise e, st').
Proof. intros H. unfold bind. now rewrite H. Qed.

Lemma readonly_const {A} (r : result A) : readonly (fun st : State F => (r, st)).
Proof.
  split; [reflexivity|]. cbn. intros _ _ a1 a2 _ H1 H2. congruence.
Qed.

Lemma readonly_ret {A} (a : A) : readonly (ret a : M F A).
Proof. apply readonly_const. Qed.

Lemma readonly_raise {A} (e : exn) : readonly (raise e : M F A).
Proof. apply readonly_const. Qed.

Lemma readonly_bind {A B} (m : M F A) (k : A -> M F B) :
  readonly m -> (forall a, readonly (k a)) -> readonly (bind m k).
Proof.
  intros [Hs Hv] Hk. split.
  - intros st. unfold bind. specialize (Hs st).
    destruct (m st) as [[a|e] st']; cbn in *; subst; [apply Hk | reflexivity].
  - intros st1 st2 b1 b2 Hsame. unfold bind.
    pose proof (Hs st1) as E1. pose proof (Hs st2) as E2.
    specialize (Hv st1 st2).
    destruct (m st1) as [[a1|e1] s1]; destruct (m st2) as [[a2|e2] s2];
      cbn in *; subst; try discriminate.
    intros H1 H2. rewrite (Hv a1 a2 Hsame eq_refl eq_refl) in H1.
    destruct (Hk a2) as [_ Hkv]. eapply Hkv; eauto.
Qed.

Lemma readonly_get_joints : readonly (get_joints (F := F)).
Proof.
  split; [reflexivity|]. cbn. intros st1 st2 a1 a2 [Hj _] H1 H2. congruence.
Qed.

Lemma readonly_get_beams : readonly (get_beams (F := F)).
Proof.
  split; [reflexivity|]. cbn. intros st1 st2 a1 a2 [_ Hb] H1 H2. congruence.
Qed.

Lemma readonly_warn e : readonly (warn (F := F) e).
Proof.
  split.
  - intros st. unfold warn. now destruct (warn_error st).
  - intros st1 st2 [] []. reflexivity.
Qed.

Lemma readonly_flagged w (v : F) : readonly (flagged w v).
Proof.
  unfold flagged. destruct w; [|apply readonly_ret].
  apply readonly_bind; [apply readonly_warn | intros; apply readonly_ret].
Qed.

Lemma readonly_getitem {A} (l : list A) i : readonly (getitem (F := F) l i).
Proof.
  unfold getitem. destruct (wrap_index _ _); [|apply readonly_raise].
  destruct (nth_error _ _); [apply readonly_ret | apply readonly_raise].
Qed.

Lemma readonly_setitem {A} (l : list A) i v : readonly (setitem (F := F) l i v).
Proof.
  unfold setitem. destruct (wrap_index _ _); [apply readonly_ret | apply readonly_raise].
Qed.

Lemma readonly_py_max l : readonly (py_max (F := F) l).
Proof.
  unfold py_max. destruct (max_list l); [apply readonly_ret | apply readonly_raise].
Qed.

Lemma readonly_py_int (x : F) : readonly (py_int x).
Proof.
  unfold py_int. destruct (int_of x); [apply readonly_ret | apply readonly_raise].
Qed.

Lemma readonly_int64_pred a : readonly (int64_pred (F := F) a).
Proof.
  unfold int64_pred. destruct (a =? int64_min); [|apply readonly_ret].
  apply readonly_bind; [apply readonly_warn | intros; apply readonly_ret].
Qed.

Lemma readonly_for_each {A} (body : nat -> A -> M F A) l :
  (forall i acc, readonly (body i acc)) -> forall acc, readonly (for_each body l acc).
Proof.
  intros Hb. induction l as [|i l IH]; intros acc; cbn.
  - apply readonly_ret.
  - apply readonly_bind; auto.
Qed.

End MonadFacts.

Create HintDb readonly discriminated.
#[export] Hint Resolve readonly_ret readonly_raise readonly_get_joints readonly_get_beams
  readonly_warn readonly_flagged readonly_getitem readonly_setitem readonly_py_max
  readonly_py_int readonly_int64_pred : readonly.

(** Walks through a computation written with [bind]. *)
Ltac readonly_tac :=
  repeat first
    [ solve [auto with readonly]
    | match goal with
      | |- readonly (if ?c then _ else _) => destruct c
      | |- readonly (bind _ _) => apply readonly_bind; [| intros ?]
      end ].

Section ReadOnly.

Context {F : Type} {SF : Scalar F}.

Lemma readonly_ok_state {A} (m : M F A) (st st' : State F) r :
  readonly m -> m st = (r, st') -> st' = st.
Proof. intros [H _] E. specialize (H st). rewrite E in H. exact H. Qed.

Lemma readonly_unit_component (a dx dy : F) : readonly (unit_component a dx dy).
Proof. unfold unit_component, f_pow2, f_add, f_sqrt, f_div. readonly_tac. Qed.

Lemma readonly_beam_body b (a : coo F) : readonly (beam_body b a).
Proof.
  pose proof readonly_unit_component as Hu.
  unfold beam_body, f_sub. readonly_tac.
Qed.

Lemma readonly_joint_body j (acc : coo F * list F) : readonly (joint_body j acc).
Proof. unfold joint_body. readonly_tac. Qed.

Lemma readonly_assemble : readonly (assemble (F := F)).
Proof.
  unfold assemble, for_range.
  apply readonly_bind; [auto with readonly | intros bs].
  apply readonly_bind; [apply readonly_for_each, readonly_beam_body | intros a].
  apply readonly_bind; [auto with readonly | intros js].
  apply readonly_for_each, readonly_joint_body.
Qed.

Lemma assemble_state (st : State F) : snd (assemble st) = st.
Proof. apply readonly_assemble. Qed.

Lemma assemble_ok_state (st st' : State F) r : assemble st = (r, st') -> st' = st.
Proof. intros H. pose proof (assemble_state st) as E. rewrite H in E. exact E. Qed.

End ReadOnly.

(** ** Running the primitives *)

Section Runs.

Context {F : Type} {SF : Scalar F}.

Lemma wrap_index_nat n i : (i < n)%nat -> wrap_index n (Z.of_nat i) = Some i.
Proof.
  intros H. unfold wrap_index.
  replace (Z.of_nat i <? 0) with false by (symmetry; apply Z.ltb_ge; lia).
  replace (0 <=? Z.of_nat i) with true by (symmetry; apply Z.leb_le; lia).
  replace (Z.of_nat i <? Z.of_nat n) with true by (symmetry; apply Z.ltb_lt; lia).
  cbn. now rewrite Nat2Z.id.
Qed.

Lemma wrap_index_high n i : Z.of_nat n <= i -> wrap_index n i = None.
Proof.
  intros H. unfold wrap_index.
  replace (i <? 0) with false by (symmetry; apply Z.ltb_ge; lia).
  replace (i <? Z.of_nat n) with false by (symmetry; apply Z.ltb_ge; lia).
  now rewrite andb_false_r.
Qed.

Lemma getitem_nat {A} (l : list A) (i : nat) (d : A) (st : State F) :
  (i < length l)%nat -> getitem l (Z.of_nat i) st = (Ok (nth i l d), st).
Proof.
  intros H. unfold getitem. rewrite wrap_index_nat by exact H.
  now rewrite (nth_error_nth' l d H).
Qed.

Lemma getitem_pred {A} (l : list A) (k : Z) (d : A) (st : State F) :
  1 <= k <= Z.of_nat (length l) ->
  getitem l (k - 1) st = (Ok (nth (Z.to_nat (k - 1)) l d), st).
Proof.
  intros H. rewrite <- (Z2Nat.id (k - 1)) at 1 by lia.
  apply getitem_nat. lia.
Qed.

Lemma getitem_high {A} (l : list A) (i : Z) (st : State F) :
  Z.of_nat (length l) <= i -> getitem l i st = (Raise IndexError, st).
Proof. intros H. unfold getitem. now rewrite wrap_index_high. Qed.

Lemma int64_pred_run (a : Z) (st : State F) :
  int64_min < a -> int64_pred a st = (Ok (a - 1), st).
Proof.
  intros H. unfold int64_pred.
  replace (a =? int64_min) with false by (symmetry; apply Z.eqb_neq; lia).
  reflexivity.
Qed.

Lemma int64_min_neg : int64_min < 0.
Proof. reflexivity. Qed.

Lemma py_int_run (x : F) z (st : State F) :
  int_of x = Some z -> py_int x st = (Ok z, st).
Proof. intros H. unfold py_int. now rewrite H. Qed.

Lemma flagged_run w (v : F) (st : State F) :
  flagged w v st =
  if w && warn_error st then (Raise RuntimeWarning, st) else (Ok v, st).
Proof.
  unfold flagged, bind, warn, ret. destruct w; cbn; [|reflexivity].
  now destruct (warn_error st).
Qed.

Lemma unit_component_run (a dx dy : F) (st : State F) :
  unit_component a dx dy st =
  if ucomp_warns a dx dy && warn_error st
  then (Raise RuntimeWarning, st)
  else (Ok (ucomp a dx dy), st).
Proof.
  unfold unit_component, ucomp_warns, ucomp, f_pow2, f_add, f_sqrt, f_div.
  destruct (warn_error st) eqn:E.
  - rewrite andb_true_r.
    destruct (warns_pow2 dx) eqn:E1;
      [ erewrite bind_raise by (rewrite flagged_run, E; reflexivity); reflexivity
      | erewrite bind_ok by (rewrite flagged_run; reflexivity) ].
    destruct (warns_pow2 dy) eqn:E2;
      [ erewrite bind_raise by (rewrite flagged_run, E; reflexivity); reflexivity
      | erewrite bind_ok by (rewrite flagged_run; reflexivity) ].
    destruct (warns_add (fpow2 dx) (fpow2 dy)) eqn:E3;
      [ erewrite bind_raise by (rewrite flagged_run, E; reflexivity); reflexivity
      | erewrite bind_ok by (rewrite flagged_run; reflexivity) ].
    destruct (warns_sqrt (fadd (fpow2 dx) (fpow2 dy))) eqn:E4;
      [ erewrite bind_raise by (rewrite flagged_run, E; reflexivity); reflexivity
      | erewrite bind_ok by (rewrite flagged_run; reflexivity) ].
    rewrite flagged_run, E, andb_true_r. reflexivity.
  - rewrite andb_false_r.
    repeat (erewrite bind_ok by (rewrite flagged_run, E, andb_false_r; reflexivity)).
    rewrite flagged_run, E, andb_false_r. reflexivity.
Qed.

(** One end of a beam: the two differences, then the two components. *)
Lemma end_run_quiet {A} (p q : Joint F) (k : F -> F -> M F A) (st : State F) :
  pair_warns p q && warn_error st = false ->
  (dx <- f_sub (jx p) (jx q) ;;
   dy <- f_sub (jy p) (jy q) ;;
   ux <- unit_component dx dx dy ;;
   uy <- unit_component dy dx dy ;;
   k ux uy) st = k (unit_x p q) (unit_y p q) st.
Proof.
  intros H. unfold f_sub, unit_x, unit_y.
  assert (H1 : warns_sub (jx p) (jx q) && warn_error st = false).
  { unfold pair_warns in H. destruct (warn_error st); [|apply andb_false_r].
    rewrite andb_true_r in *. repeat (apply orb_false_elim in H as [H ?]). exact H. }
  assert (H2 : warns_sub (jy p) (jy q) && warn_error st = false).
  { unfold pair_warns in H. destruct (warn_error st); [|apply andb_false_r].
    rewrite andb_true_r in *. repeat (apply orb_false_elim in H as [H ?]).
    assumption. }
  assert (H3 : ucomp_warns (fsub (jx p) (jx q)) (fsub (jx p) (jx q)) (fsub (jy p) (jy q))
               && warn_error st = false).
  { unfold pair_warns in H. destruct (warn_error st); [|apply andb_false_r].
    rewrite andb_true_r in *. repeat (apply orb_false_elim in H as [H ?]).
    assumption. }
  assert (H4 : ucomp_warns (fsub (jy p) (jy q)) (fsub (jx p) (jx q)) (fsub (jy p) (jy q))
               && warn_error st = false).
  { unfold pair_warns in H. destruct (warn_error st); [|apply andb_false_r].
    rewrite andb_true_r in *. repeat (apply orb_false_elim in H as [H ?]).
    assumption. }
  erewrite bind_ok by (rewrite flagged_run, H1; reflexivity).
  erewrite bind_ok by (rewrite flagged_run, H2; reflexivity).
  erewrite bind_ok by (rewrite unit_component_run, H3; reflexivity).
  erewrite bind_ok by (rewrite unit_component_run, H4; reflexivity).
  reflexivity.
Qed.

End Runs.

(** ** The loop over the beams *)

Section BeamLoop.

Context {F : Type} {SF : Scalar F}.

Lemma ids_ok_nth (js : list (Joint F)) i :
  ids_ok js = true -> (i < length js)%nat ->
  int_of (jid (nth i js joint0)) = Some (Z.of_nat i + 1).
Proof.
  intros H Hi. unfold ids_ok in H. rewrite forallb_forall in H.
  specialize (H i). rewrite in_seq in H. specialize (H ltac:(lia)).
  destruct (int_of _) as [z|]; [|discriminate].
  apply Z.eqb_eq in H. now subst.
Qed.

Lemma ids_ok_joint_of (js : list (Joint F)) k :
  ids_ok js = true -> 1 <= k <= Z.of_nat (length js) ->
  int_of (jid (joint_of js k)) = Some k.
Proof.
  intros H Hk. unfold joint_of. rewrite ids_ok_nth by (auto; lia).
  f_equal. lia.
Qed.

Lemma beam_ok_range n bm :
  beam_ok n bm = true ->
  1 <= ba bm <= Z.of_nat n /\ 1 <= bb bm <= Z.of_nat n.
Proof.
  unfold beam_ok. rewrite !andb_true_iff, !Z.leb_le. lia.
Qed.

Lemma coo_app_nil (a : coo F) : coo_app a [] = a.
Proof. destruct a. unfold coo_app. cbn. now rewrite !app_nil_r. Qed.

Lemma coo_app_app (a : coo F) es es' :
  coo_app (coo_app a es) es' = coo_app a (es ++ es').
Proof.
  unfold coo_app, of_entries. cbn. rewrite !map_app, !app_assoc. reflexivity.
Qed.

Lemma append3_coo_app (a : coo F) r c v : append3 a r c v = coo_app a [(r, c, v)].
Proof. reflexivity. Qed.

Lemma beam_body_run (st : State F) b (a : coo F) :
  let bm := nth b (beams st) beam0 in
  (b < length (beams st))%nat ->
  ids_ok (joints st) = true ->
  beam_ok (length (joints st)) bm = true ->
  beam_warns (joints st) bm && warn_error st = false ->
  beam_body b a st = (Ok (coo_app a (beam_entries (joints st) b bm)), st).
Proof.
  intros bm Hb Hids Hok Hq.
  apply beam_ok_range in Hok as [Ha Hbb].
  pose proof int64_min_neg as Hmin.
  assert (Hq1 : pair_warns (joint_of (joints st) (ba bm)) (joint_of (joints st) (bb bm))
                && warn_error st = false).
  { unfold beam_warns in Hq. destruct (warn_error st); [|apply andb_false_r].
    rewrite andb_true_r in *. now apply orb_false_elim in Hq. }
  assert (Hq2 : pair_warns (joint_of (joints st) (bb bm)) (joint_of (joints st) (ba bm))
                && warn_error st = false).
  { unfold beam_warns in Hq. destruct (warn_error st); [|apply andb_false_r].
    rewrite andb_true_r in *. now apply orb_false_elim in Hq. }
  unfold beam_body.
  erewrite bind_ok by reflexivity.
  erewrite bind_ok by reflexivity.
  erewrite bind_ok by (apply getitem_nat with (d := beam0); exact Hb).
  erewrite bind_ok by (apply int64_pred_run; fold bm; lia).
  erewrite bind_ok by (apply getitem_pred with (d := joint0); fold bm; lia).
  erewrite bind_ok by (apply getitem_nat with (d := beam0); exact Hb).
  erewrite bind_ok by (apply int64_pred_run; fold bm; lia).
  erewrite bind_ok by (apply getitem_pred with (d := joint0); fold bm; lia).
  fold bm. fold (joint_of (joints st) (ba bm)). fold (joint_of (joints st) (bb bm)).
  erewrite bind_ok by (apply py_int_run, ids_ok_joint_of; [exact Hids | lia]).
  erewrite bind_ok by (apply py_int_run, ids_ok_joint_of; [exact Hids | lia]).
  rewrite (end_run_quiet _ _ _ _ Hq1). cbv zeta.
  rewrite (end_run_quiet _ _ _ _ Hq2). cbv zeta.
  rewrite !append3_coo_app, !coo_app_app. reflexivity.
Qed.

Lemma beam_loop_run (st : State F) :
  ids_ok (joints st) = true ->
  forall l (a : coo F),
    (forall b, In b l ->
       (b < length (beams st))%nat /\
       beam_ok (length (joints st)) (nth b (beams st) beam0) = true /\
       beam_warns (joints st) (nth b (beams st) beam0) && warn_error st = false) ->
    for_each beam_body l a st =
    (Ok (coo_app a (flat_map (fun b => beam_entries (joints st) b (nth b (beams st) beam0)) l)),
     st).
Proof.
  intros Hids. induction l as [|b l IH]; intros a Hl.
  - cbn. now rewrite coo_app_nil.
  - cbn [for_each flat_map].
    destruct (Hl b (or_introl eq_refl)) as (Hb & Hok & Hq).
    erewrite bind_ok by (apply beam_body_run; assumption).
    rewrite IH by (intros; apply Hl; now right).
    now rewrite coo_app_app.
Qed.

End BeamLoop.

(** ** [max] of a list *)

Section MaxList.

Lemma fold_max_ge l x :
  x <= fold_left Z.max l x /\ forall y, In y l -> y <= fold_left Z.max l x.
Proof.
  revert x. induction l as [|z l IH]; intros x; cbn.
  - split; [lia | intros _ []].
  - destruct (IH (Z.max x z)) as [H1 H2]. split; [lia|].
    intros y [->|Hy]; [lia | auto].
Qed.

Lemma fold_max_in l x : In (fold_left Z.max l x) (x :: l).
Proof.
  revert x. induction l as [|z l IH]; intros x; cbn.
  - now left.
  - destruct (IH (Z.max x z)) as [H|H].
    + destruct (Z.max_spec x z) as [[_ E]|[_ E]]; rewrite E in *;
        [right; left | left]; exact H.
    + right; right; exact H.
Qed.

Lemma max_list_is_max l m :
  max_list l = Some m <-> In m l /\ forall x, In x l -> x <= m.
Proof.
  destruct l as [|x l]; cbn.
  - split; [discriminate | intros [[] _]].
  - split.
    + intros [= <-]. split; [apply fold_max_in|].
      destruct (fold_max_ge l x) as [H1 H2]. intros y [<-|Hy]; auto.
    + intros [Hin Hle]. f_equal.
      pose proof (fold_max_in l x) as Hr.
      destruct (fold_max_ge l x) as [H1 H2].
      apply Z.le_antisymm.
      * apply Hle, Hr.
      * destruct Hin as [<-|Hin]; auto.
Qed.

Lemma max_list_snoc l m x :
  max_list l = Some m -> max_list (l ++ [x]) = Some (Z.max m x).
Proof.
  destruct l as [|y l]; cbn; [discriminate|].
  intros [= <-]. now rewrite fold_left_app.
Qed.

Lemma max_list_none l : max_list l = None <-> l = [].
Proof. destruct l; cbn; split; congruence. Qed.

End MaxList.

(** ** The loop over the joints *)

Section JointLoop.

Context {F : Type} {SF : Scalar F}.

Lemma length_set_nth {A} (l : list A) k v : length (set_nth l k v) = length l.
Proof.
  revert k. induction l as [|x l IH]; intros [|k]; cbn; auto.
Qed.

Lemma setitem_run {A} (l : list A) i v (st : State F) :
  0 <= i < Z.of_nat (length l) ->
  setitem l i v st = (Ok (set_nth l (Z.to_nat i) v), st).
Proof.
  intros H. unfold setitem.
  pose proof (@wrap_index_nat (length l) (Z.to_nat i)) as W.
  rewrite Z2Nat.id in W by lia. rewrite W by lia. reflexivity.
Qed.

Lemma py_max_run l m (st : State F) :
  max_list l = Some m -> py_max l st = (Ok m, st).
Proof. intros H. unfold py_max. now rewrite H. Qed.

Lemma id_of_some (j : Joint F) z : int_of (jid j) = Some z -> id_of j = z.
Proof. intros H. unfold id_of. now rewrite H. Qed.

(** One joint: the right-hand side keeps its length; a supported joint
    takes the next two columns. *)
Lemma joint_body_gen (st : State F) j (a : coo F) sol :
  let jt := nth j (joints st) joint0 in
  (j < length (joints st))%nat ->
  ids_ok (joints st) = true ->
  length sol = (length (joints st) * 2)%nat ->
  exists sol',
    length sol' = (length (joints st) * 2)%nat /\
    joint_body j (a, sol) st =
    (if is_supported jt
     then match max_list (col a) with
          | Some m => Ok (coo_app a [(id_of jt * 2 - 2, m + 1, f1);
                                     (id_of jt * 2 - 1, m + 2, f1)], sol')
          | None => Raise (ValueError msg_max_empty)
          end
     else Ok (a, sol'), st).
Proof.
  intros jt Hj Hids Hlen.
  pose proof (ids_ok_nth _ Hids Hj) as Hid. fold jt in Hid.
  unfold joint_body. cbn [fst snd].
  erewrite bind_ok by reflexivity.
  erewrite bind_ok by (apply getitem_nat with (d := joint0); exact Hj).
  fold jt.
  (* the two assignments to sol *)
  assert (Hx : exists s1, length s1 = (length (joints st) * 2)%nat /\
             (if negb (feqb (jfx jt) f0)
              then jnum <- py_int (jid jt) ;; setitem sol (jnum * 2 - 2) (fneg (jfx jt))
              else ret sol) st = (Ok s1, st)).
  { destruct (negb (feqb (jfx jt) f0)).
    - eexists. split; [|(erewrite bind_ok by (apply py_int_run; exact Hid));
                        apply setitem_run; lia].
      rewrite length_set_nth. assumption.
    - exists sol. split; [exact Hlen | reflexivity]. }
  destruct Hx as (s1 & Hlen1 & Hx).
  erewrite bind_ok by exact Hx.
  assert (Hy : exists s2, length s2 = (length (joints st) * 2)%nat /\
             (if negb (feqb (jfy jt) f0)
              then jnum <- py_int (jid jt) ;; setitem s1 (jnum * 2 - 1) (fneg (jfy jt))
              else ret s1) st = (Ok s2, st)).
  { destruct (negb (feqb (jfy jt) f0)).
    - eexists. split; [|(erewrite bind_ok by (apply py_int_run; exact Hid));
                        apply setitem_run; lia].
      rewrite length_set_nth. assumption.
    - exists s1. split; [exact Hlen1 | reflexivity]. }
  destruct Hy as (s2 & Hlen2 & Hy).
  erewrite bind_ok by exact Hy.
  exists s2. split; [exact Hlen2|].
  unfold is_supported. destruct (feqb (jsup jt) f1); [|reflexivity].
  erewrite bind_ok by (apply py_int_run; exact Hid).
  destruct (max_list (col a)) as [m|] eqn:Hmax.
  - erewrite bind_ok by (apply py_max_run; exact Hmax).
    erewrite bind_ok by (apply py_max_run, max_list_snoc; exact Hmax).
    rewrite (id_of_some _ Hid).
    unfold ret, coo_app, of_entries. cbn [map fst snd row col data].
    rewrite <- !app_assoc. cbn [app].
    replace (Z.max m (m + 1) + 1) with (m + 2) by lia.
    reflexivity.
  - erewrite bind_raise; [reflexivity|].
    unfold py_max. rewrite Hmax. reflexivity.
Qed.

Lemma joint_body_run (st : State F) j (a : coo F) sol c :
  let jt := nth j (joints st) joint0 in
  (j < length (joints st))%nat ->
  ids_ok (joints st) = true ->
  length sol = (length (joints st) * 2)%nat ->
  max_list (col a) = Some (c - 1) ->
  exists sol',
    length sol' = (length (joints st) * 2)%nat /\
    joint_body j (a, sol) st =
    (Ok (if is_supported jt
         then coo_app a [(id_of jt * 2 - 2, c, f1); (id_of jt * 2 - 1, c + 1, f1)]
         else a, sol'), st).
Proof.
  intros jt Hj Hids Hlen Hmax.
  destruct (@joint_body_gen st j a sol Hj Hids Hlen) as (sol' & Hlen' & Hrun).
  exists sol'. split; [exact Hlen'|].
  rewrite Hrun, Hmax. fold jt.
  replace (c - 1 + 1) with c by lia. replace (c - 1 + 2) with (c + 1) by lia.
  now destruct (is_supported jt).
Qed.


Lemma col_coo_app (a : coo F) es :
  col (coo_app a es) = col a ++ map (fun e => snd (fst e)) es.
Proof. reflexivity. Qed.

Lemma supported_cons (j : Joint F) js :
  supported (j :: js) = if is_supported j then j :: supported js else supported js.
Proof. reflexivity. Qed.

Lemma joint_loop_run (st : State F) B :
  ids_ok (joints st) = true ->
  forall l (a : coo F) sol s,
    (forall j, In j l -> (j < length (joints st))%nat) ->
    length sol = (length (joints st) * 2)%nat ->
    max_list (col a) = Some (B + 2 * Z.of_nat s - 1) ->
    let sup := supported (map (fun j => nth j (joints st) joint0) l) in
    exists sol',
      length sol' = (length (joints st) * 2)%nat /\
      for_each joint_body l (a, sol) st =
      (Ok (coo_app a (reactions B s sup), sol'), st) /\
      max_list (col (coo_app a (reactions B s sup))) =
      Some (B + 2 * Z.of_nat (s + length sup) - 1).
Proof.
  intros Hids. induction l as [|j l IH]; intros a sol s Hl Hlen Hmax; cbn zeta.
  - exists sol. cbn [for_each map supported filter reactions length].
    rewrite coo_app_nil, Nat.add_0_r. auto.
  - cbn [for_each map]. rewrite supported_cons.
    destruct (@joint_body_run st j a sol (B + 2 * Z.of_nat s)
                (Hl j (or_introl eq_refl)) Hids Hlen Hmax) as (s1 & Hlen1 & Hrun).
    erewrite bind_ok by exact Hrun.
    destruct (is_supported (nth j (joints st) joint0)).
    + set (a1 := coo_app a _).
      assert (Hmax1 : max_list (col a1) = Some (B + 2 * Z.of_nat (S s) - 1)).
      { unfold a1. rewrite col_coo_app. cbn [map fst snd].
        change [B + 2 * Z.of_nat s; B + 2 * Z.of_nat s + 1]
          with ([B + 2 * Z.of_nat s] ++ [B + 2 * Z.of_nat s + 1]).
        rewrite app_assoc.
        rewrite (@max_list_snoc _ _ (B + 2 * Z.of_nat s + 1)
                   (@max_list_snoc _ _ (B + 2 * Z.of_nat s) Hmax)). f_equal. lia. }
      destruct (IH a1 s1 (S s) (fun i Hi => Hl i (or_intror Hi)) Hlen1 Hmax1)
        as (sol' & Hlen' & Hrun' & Hmax').
      exists sol'. split; [exact Hlen'|].
      cbn [reactions]. unfold a1 in *. rewrite coo_app_app in Hrun', Hmax'.
      unfold reaction_entries.
      split; [exact Hrun'|].
      etransitivity; [exact Hmax'|]. cbn [length]. f_equal. lia.
    + destruct (IH a s1 s (fun i Hi => Hl i (or_intror Hi)) Hlen1 Hmax)
        as (sol' & Hlen' & Hrun' & Hmax').
      exists sol'. auto.
Qed.

End JointLoop.

(** ** The assembled system of a well-formed geometry *)

Section Assembly.

Context {F : Type} {SF : Scalar F}.

Lemma map_nth_seq {A} (l : list A) d :
  map (fun i => nth i l d) (seq 0 (length l)) = l.
Proof.
  induction l as [|x l IH]; [reflexivity|].
  cbn [length seq map nth]. f_equal.
  rewrite <- seq_shift, map_map. exact IH.
Qed.

Lemma entries_of_entries (es : list (Z * Z * F)) : entries (of_entries es) = es.
Proof.
  unfold entries, of_entries. cbn [row col data].
  induction es as [|[[r c] v] es IH]; [reflexivity|].
  cbn [map combine fst snd]. now rewrite IH.
Qed.

Lemma coo_app_empty (es : list (Z * Z * F)) : coo_app coo_empty es = of_entries es.
Proof. reflexivity. Qed.

Lemma reactions_enumerate B s (sup : list (Joint F)) :
  reactions B s sup =
  flat_map (fun p => reaction_entries B (fst p) (snd p)) (combine (seq s (length sup)) sup).
Proof.
  revert s. induction sup as [|j sup IH]; intros s; [reflexivity|].
  cbn [reactions length seq combine flat_map fst snd]. now rewrite IH.
Qed.

Lemma reaction_part_reactions (st : State F) :
  reaction_part st = reactions (Z.of_nat (length (beams st))) 0 (supported (joints st)).
Proof. unfold reaction_part, enumerate. now rewrite reactions_enumerate. Qed.

Lemma beam_part_columns (st : State F) :
  map (fun e => snd (fst e)) (beam_part st) =
  flat_map (fun b => repeat (Z.of_nat b) 4) (seq 0 (length (beams st))).
Proof.
  unfold beam_part. induction (seq 0 (length (beams st))) as [|b l IH]; [reflexivity|].
  cbn [flat_map]. rewrite map_app, IH. reflexivity.
Qed.

Lemma in_beam_columns c n :
  In c (flat_map (fun b => repeat (Z.of_nat b) 4) (seq 0 n)) <->
  exists b, (b < n)%nat /\ c = Z.of_nat b.
Proof.
  rewrite in_flat_map. split.
  - intros (b & Hb & Hc). apply in_seq in Hb. apply repeat_spec in Hc.
    exists b. split; [lia | exact Hc].
  - intros (b & Hb & ->). exists b. split; [apply in_seq; lia | now left].
Qed.

Lemma max_beam_columns (st : State F) :
  beams st <> [] ->
  max_list (col (of_entries (beam_part st))) = Some (Z.of_nat (length (beams st)) - 1).
Proof.
  intros Hne. cbn [col of_entries]. rewrite beam_part_columns.
  assert (Hpos : (0 < length (beams st))%nat).
  { destruct (beams st); [congruence | cbn; lia]. }
  apply max_list_is_max. split.
  - apply in_beam_columns. exists (length (beams st) - 1)%nat. split; lia.
  - intros x Hx. apply in_beam_columns in Hx as (b & Hb & ->). lia.
Qed.

Lemma well_formed_parts (st : State F) :
  well_formed st = true ->
  ids_ok (joints st) = true /\
  (forall b, (b < length (beams st))%nat ->
     beam_ok (length (joints st)) (nth b (beams st) beam0) = true /\
     beam_warns (joints st) (nth b (beams st) beam0) && warn_error st = false).
Proof.
  unfold well_formed. rewrite !andb_true_iff. intros [[Hids Hok] Hq].
  split; [exact Hids|]. intros b Hb.
  rewrite forallb_forall in Hok. split; [apply Hok, nth_In, Hb|].
  unfold quiet in Hq. destruct (warn_error st); [|apply andb_false_r].
  cbn in Hq. rewrite forallb_forall in Hq.
  rewrite andb_true_r. apply negb_true_iff, Hq, nth_In, Hb.
Qed.

(** The lists a well-formed geometry with at least one beam produces: the
    four triplets of every beam in beam order, then the two of every
    supported joint in joint order; the right-hand side has two entries
    per joint; the state is untouched. *)
Lemma assemble_wf (st : State F) :
  well_formed st = true ->
  beams st <> [] ->
  exists sol,
    length sol = (length (joints st) * 2)%nat /\
    assemble st = (Ok (of_entries (beam_part st ++ reaction_part st), sol), st) /\
    max_list (col (of_entries (beam_part st ++ reaction_part st))) =
    Some (Z.of_nat (length (beams st)) +
          2 * Z.of_nat (length (supported (joints st))) - 1).
Proof.
  intros Hwf Hne. destruct (well_formed_parts st Hwf) as [Hids Hbeams].
  unfold assemble, for_range.
  erewrite bind_ok by reflexivity.
  erewrite bind_ok.
  2:{ apply beam_loop_run; [exact Hids|]. intros b Hb. apply in_seq in Hb.
      split; [lia | apply Hbeams; lia]. }
  fold (beam_part st). rewrite coo_app_empty.
  erewrite bind_ok by reflexivity.
  assert (H1 : forall j, In j (seq 0 (length (joints st))) -> (j < length (joints st))%nat).
  { intros j Hj. apply in_seq in Hj. lia. }
  assert (H2 : length (repeat f0 (length (joints st) * 2)) = (length (joints st) * 2)%nat).
  { apply repeat_length. }
  assert (H3 : max_list (col (of_entries (beam_part st))) =
               Some (Z.of_nat (length (beams st)) + 2 * Z.of_nat 0 - 1)).
  { rewrite max_beam_columns by exact Hne. f_equal. lia. }
  destruct (@joint_loop_run F SF st _ Hids _ _ _ _ H1 H2 H3) as (sol & Hlen & Hrun & Hmax).
  rewrite map_nth_seq in Hrun, Hmax.
  rewrite <- reaction_part_reactions in Hrun, Hmax.
  assert (E : coo_app (of_entries (beam_part st)) (reaction_part st) =
              of_entries (beam_part st ++ reaction_part st)).
  { rewrite <- coo_app_empty, coo_app_app. reflexivity. }
  rewrite E in Hrun, Hmax.
  exists sol. split; [exact Hlen|]. split; [exact Hrun|]. exact Hmax.
Qed.

End Assembly.

(** ** The determinacy check and the solve (lines 108-123) *)

Section CheckAndSolve.

Context {F : Type} {SF : Scalar F}.
Variable spsolve : csr F -> list F -> solver_outcome F.

Lemma shape_some (a : coo F) R C :
  shape a = Some (R, C) ->
  max_list (row a) = Some (R - 1) /\ max_list (col a) = Some (C - 1).
Proof.
  unfold shape. destruct (max_list (row a)) as [mr|]; [|discriminate].
  destruct (max_list (col a)) as [mc|]; [|discriminate].
  intros [= <- <-]. split; f_equal; lia.
Qed.

Lemma system_matrix_some (a : coo F) A :
  system_matrix a = Some A ->
  shape a = Some (nrows A, ncols A) /\ nonneg a = true /\ triplets A = entries a.
Proof.
  unfold system_matrix. destruct (shape a) as [[R C]|]; [|discriminate].
  destruct (nonneg a); [|discriminate]. intros [= <-]. auto.
Qed.

Lemma check_mismatch (a : coo F) sol R C (st : State F) :
  shape a = Some (R, C) -> R <> C ->
  check_and_solve spsolve (a, sol) st = (Raise (RuntimeError msg_not_suitable), st).
Proof.
  intros Hs Hne. apply shape_some in Hs as [Hr Hc].
  unfold check_and_solve. cbn [fst snd].
  erewrite bind_ok by (apply py_max_run; exact Hr).
  erewrite bind_ok by (apply py_max_run; exact Hc).
  replace ((R - 1 >? C - 1) || (R - 1 <? C - 1)) with true; [reflexivity|].
  symmetry. rewrite Z.gtb_ltb. apply orb_true_iff.
  rewrite !Z.ltb_lt. lia.
Qed.

(** Up to the call of the solver, on a square system. *)
Lemma check_square (a : coo F) sol A (st : State F) :
  system_matrix a = Some A -> nrows A = ncols A ->
  check_and_solve spsolve (a, sol) st =
  try_except
    (force <- call_spsolve spsolve A sol ;;
     bs <- get_beams ;;
     ret (firstn (length bs) force))
    (print msg_cannot_solve ;;; ret [])
    (mkState (joints st) (beams st) true (stdout st) (solves st)).
Proof.
  intros Hm Hsq. apply system_matrix_some in Hm as (Hs & Hnn & Ht).
  apply shape_some in Hs as [Hr Hc].
  unfold check_and_solve. cbn [fst snd].
  erewrite bind_ok by (apply py_max_run; exact Hr).
  erewrite bind_ok by (apply py_max_run; exact Hc).
  replace ((nrows A - 1 >? ncols A - 1) || (nrows A - 1 <? ncols A - 1)) with false.
  2:{ symmetry. rewrite Z.gtb_ltb. apply orb_false_iff. rewrite !Z.ltb_ge. lia. }
  erewrite bind_ok.
  2:{ unfold csr_matrix. fold (nonneg a). rewrite Hnn. reflexivity. }
  erewrite bind_ok by reflexivity.
  cbn [fst snd].
  replace (mkCsr (nrows A - 1 + 1) (ncols A - 1 + 1) (entries a)) with A; [reflexivity|].
  destruct A as [r c t]. cbn in *. subst. f_equal; lia.
Qed.

Lemma call_spsolve_fails A b (st : State F) :
  warn_error st = true ->
  solve_fails spsolve A b = true ->
  exists e, call_spsolve spsolve A b st =
            (Raise e, mkState (joints st) (beams st) true (stdout st) (solves st ++ [(A, b)])).
Proof.
  intros Hw Hf. unfold call_spsolve, solve_fails in *.
  erewrite bind_ok by reflexivity. rewrite Hw.
  destruct (negb (nrows A =? ncols A)); [eexists; reflexivity|].
  destruct (negb (nrows A =? Z.of_nat (length b))); [eexists; reflexivity|].
  cbn [orb] in Hf. destruct (spsolve A b) as [f|f|e]; [discriminate| |].
  - eexists. unfold bind, warn. cbn. reflexivity.
  - eexists. reflexivity.
Qed.

Lemma call_spsolve_solved A b f (st : State F) :
  nrows A = ncols A -> Z.of_nat (length b) = nrows A ->
  spsolve A b = Solved f ->
  call_spsolve spsolve A b st =
  (Ok f, mkState (joints st) (beams st) (warn_error st) (stdout st) (solves st ++ [(A, b)])).
Proof.
  intros Hsq Hlen Hs. unfold call_spsolve.
  erewrite bind_ok by reflexivity.
  replace (negb (nrows A =? ncols A)) with false
    by (symmetry; apply negb_false_iff, Z.eqb_eq; exact Hsq).
  replace (negb (nrows A =? Z.of_nat (length b))) with false
    by (symmetry; apply negb_false_iff, Z.eqb_eq; symmetry; exact Hlen).
  rewrite Hs. reflexivity.
Qed.

Lemma keeps_readonly {A} (m : M F A) : readonly m -> keeps_truss m.
Proof. intros [H _] st. rewrite H. split; reflexivity. Qed.

Lemma keeps_bind {A B} (m : M F A) (k : A -> M F B) :
  keeps_truss m -> (forall a, keeps_truss (k a)) -> keeps_truss (bind m k).
Proof.
  intros Hm Hk st. unfold bind. specialize (Hm st).
  destruct (m st) as [[a|e] st']; cbn in Hm; [|exact Hm].
  destruct (Hk a st') as [H1 H2]. destruct Hm as [H3 H4].
  split; congruence.
Qed.

Lemma keeps_try_except {A} (body handler : M F A) :
  keeps_truss body -> keeps_truss handler -> keeps_truss (try_except body handler).
Proof.
  intros Hb Hh st. unfold try_except. specialize (Hb st).
  destruct (body st) as [[a|e] st']; cbn in Hb; [exact Hb|].
  destruct (Hh st') as [H1 H2]. destruct Hb as [H3 H4].
  split; congruence.
Qed.

Lemma keeps_print s : keeps_truss (print (F := F) s).
Proof. intros st. split; reflexivity. Qed.

Lemma keeps_filterwarnings : keeps_truss (filterwarnings_error (F := F)).
Proof. intros st. split; reflexivity. Qed.

Lemma keeps_log_solve A b : keeps_truss (log_solve (F := F) A b).
Proof. intros st. split; reflexivity. Qed.

Lemma keeps_call_spsolve A b : keeps_truss (call_spsolve spsolve A b).
Proof.
  unfold call_spsolve. apply keeps_bind; [apply keeps_log_solve | intros _].
  destruct (negb _); [apply keeps_readonly; auto with readonly|].
  destruct (negb _); [apply keeps_readonly; auto with readonly|].
  destruct (spsolve A b); apply keeps_readonly; readonly_tac.
Qed.

Lemma keeps_check_and_solve sys : keeps_truss (check_and_solve spsolve sys).
Proof.
  unfold check_and_solve.
  apply keeps_bind; [apply keeps_readonly; auto with readonly | intros mr].
  apply keeps_bind; [apply keeps_readonly; auto with readonly | intros mc].
  destruct (_ || _); [apply keeps_readonly; auto with readonly|].
  apply keeps_bind.
  { apply keeps_readonly. unfold csr_matrix. readonly_tac. }
  intros A. apply keeps_bind; [apply keeps_filterwarnings | intros _].
  apply keeps_try_except.
  - apply keeps_bind; [apply keeps_call_spsolve | intros f].
    apply keeps_readonly. readonly_tac.
  - apply keeps_bind; [apply keeps_print | intros _].
    apply keeps_readonly. auto with readonly.
Qed.

Lemma keeps_calculate_force : keeps_truss (calculate_force spsolve).
Proof.
  unfold calculate_force. apply keeps_bind.
  - apply keeps_readonly, readonly_assemble.
  - apply keeps_check_and_solve.
Qed.

End CheckAndSolve.

(** * The claims *)

Section Claims.

Context {F : Type} {SF : Scalar F}.
Variable spsolve : csr F -> list F -> solver_outcome F.

(** C3, as the code has it.  When the assembled system is square and the
    solver does not deliver (scipy refuses the shapes, warns of a singular
    matrix, or raises), [calculate_force] raises nothing: it prints "Cannot
    solve the linear system, unstable truss?" and returns the empty
    sequence.  The outcome differs from the RuntimeError of a system that is
    not square. *)
Theorem unsolved_returns_empty (st st' : State F) (a : coo F) (sol : list F) (A : csr F) :
  assemble st = (Ok (a, sol), st') ->
  system_matrix a = Some A ->
  nrows A = ncols A ->
  solve_fails spsolve A sol = true ->
  calculate_force spsolve st =
  (Ok [], mkState (joints st) (beams st) true
                  (stdout st ++ [msg_cannot_solve]) (solves st ++ [(A, sol)])) /\
  fst (calculate_force spsolve st) <> Raise (RuntimeError msg_not_suitable).
Proof.
  intros Ha Hm Hsq Hf.
  pose proof (assemble_ok_state _ Ha) as ->.
  assert (E : calculate_force spsolve st =
              (Ok [], mkState (joints st) (beams st) true
                              (stdout st ++ [msg_cannot_solve]) (solves st ++ [(A, sol)]))).
  { unfold calculate_force. erewrite bind_ok by exact Ha.
    rewrite check_square with (A := A); [| exact Hm | exact Hsq].
    unfold try_except.
    destruct (call_spsolve_fails spsolve A sol
                (mkState (joints st) (beams st) true (stdout st) (solves st))
                eq_refl Hf) as (e & He).
    erewrite bind_raise by exact He. reflexivity. }
  split; [exact E | rewrite E; discriminate].
Qed.

(** C8.  Every call of [calculate_force] leaves the joints and the beams of
    the object as they were, whatever it returns or raises; and the lists
    and the right-hand side it assembles are those of the two tables alone:
    two calls on the same tables that get through the assembly build the
    same system, whatever was printed, solved or set before. *)
Theorem geometry_is_never_modified (st : State F) :
  (joints (snd (calculate_force spsolve st)) = joints st /\
   beams (snd (calculate_force spsolve st)) = beams st) /\
  (forall st2 sys sys2,
      joints st2 = joints st -> beams st2 = beams st ->
      fst (assemble st) = Ok sys -> fst (assemble st2) = Ok sys2 -> sys = sys2).
Proof.
  split.
  - apply keeps_calculate_force.
  - intros st2 sys sys2 Hj Hb H1 H2.
    destruct (readonly_assemble (F := F)) as [_ Hv].
    apply (Hv st st2); [split; congruence | assumption | assumption].
Qed.

End Claims.

(** ** A truss without beams *)

Section NoBeams.

Context {F : Type} {SF : Scalar F}.
Variable spsolve : csr F -> list F -> solver_outcome F.

(** With no column yet, a joint that gets through its turn adds nothing. *)
Lemma joint_body_no_column j (a a1 : coo F) sol s1 (st st1 : State F) :
  col a = [] ->
  joint_body j (a, sol) st = (Ok (a1, s1), st1) -> a1 = a.
Proof.
  intros Hc H. unfold joint_body in H. cbn [fst snd] in H.
  apply bind_ok_inv in H as (js & st2 & _ & H).
  apply bind_ok_inv in H as (jt & st3 & _ & H).
  apply bind_ok_inv in H as (sol1 & st4 & _ & H).
  apply bind_ok_inv in H as (sol2 & st5 & _ & H).
  destruct (feqb (jsup jt) f1).
  - apply bind_ok_inv in H as (jnum & st6 & _ & H).
    apply bind_ok_inv in H as (m1 & st7 & Hm & _).
    rewrite Hc in Hm. discriminate.
  - injection H as <- _ _. reflexivity.
Qed.

Lemma joint_loop_no_column l : forall (a a1 : coo F) sol s1 (st st1 : State F),
  col a = [] ->
  for_each joint_body l (a, sol) st = (Ok (a1, s1), st1) -> a1 = a.
Proof.
  induction l as [|j l IH]; intros a a1 sol s1 st st1 Hc H.
  - injection H as <- _ _. reflexivity.
  - cbn [for_each] in H.
    apply bind_ok_inv in H as ([a2 s2] & st2 & Hj & H).
    apply joint_body_no_column in Hj; [subst a2 | exact Hc].
    eapply IH; eassumption.
Qed.

Lemma assemble_no_beams (st : State F) :
  beams st = [] ->
  assemble st =
  for_each joint_body (seq 0 (length (joints st)))
           (coo_empty, repeat f0 (length (joints st) * 2)) st.
Proof.
  intros Hb. unfold assemble, for_range.
  erewrite bind_ok by reflexivity. rewrite Hb. cbn [length seq for_each].
  erewrite bind_ok by reflexivity.
  erewrite bind_ok by reflexivity. reflexivity.
Qed.

(** With well-formed indices the loop stops at the first supported joint,
    on [max] of the empty list of columns; without a supported joint it
    runs through and leaves the three lists empty. *)
Lemma joint_loop_no_column_ids (st : State F) :
  ids_ok (joints st) = true ->
  forall l (a : coo F) sol,
    (forall j, In j l -> (j < length (joints st))%nat) ->
    length sol = (length (joints st) * 2)%nat ->
    col a = [] ->
    match supported (map (fun j => nth j (joints st) joint0) l) with
    | [] => exists sol', for_each joint_body l (a, sol) st = (Ok (a, sol'), st)
    | _ :: _ => for_each joint_body l (a, sol) st = (Raise (ValueError msg_max_empty), st)
    end.
Proof.
  intros Hids. induction l as [|j l IH]; intros a sol Hl Hlen Hc.
  - exists sol. reflexivity.
  - cbn [for_each map]. rewrite supported_cons.
    destruct (@joint_body_gen F SF st j a sol (Hl j (or_introl eq_refl)) Hids Hlen)
      as (s1 & Hlen1 & Hrun).
    rewrite Hc in Hrun. cbn [max_list] in Hrun.
    destruct (is_supported (nth j (joints st) joint0)).
    + erewrite bind_raise by exact Hrun. reflexivity.
    + erewrite bind_ok by exact Hrun.
      apply IH; [intros i Hi; apply Hl; now right | exact Hlen1 | exact Hc].
Qed.

Lemma check_no_rows (a : coo F) sol (st : State F) :
  row a = [] ->
  check_and_solve spsolve (a, sol) st = (Raise (ValueError msg_max_empty), st).
Proof.
  intros Hr. unfold check_and_solve. cbn [fst snd]. rewrite Hr. reflexivity.
Qed.

(** C9.  On a truss without beams [calculate_force] raises and returns no
    sequence of forces; the state is as before the call.  When the index
    column of the joints is well formed the exception is the ValueError of
    [max] applied to an empty list: of the columns, inside the assembly,
    when some joint is supported; of the rows, at the comparison of the
    two maxima, when none is. *)
Theorem no_beams_raises (st : State F) :
  beams st = [] ->
  (exists e, calculate_force spsolve st = (Raise e, st)) /\
  (ids_ok (joints st) = true ->
   calculate_force spsolve st = (Raise (ValueError msg_max_empty), st) /\
   (supported (joints st) <> [] ->
    assemble st = (Raise (ValueError msg_max_empty), st)) /\
   (supported (joints st) = [] ->
    exists sol, assemble st = (Ok (coo_empty, sol), st))).
Proof.
  intros Hb. split.
  - unfold calculate_force.
    destruct (assemble st) as [[[a sol]|e] st1] eqn:Ha;
      pose proof (assemble_ok_state _ Ha) as ->.
    + erewrite bind_ok by exact Ha.
      rewrite assemble_no_beams in Ha by exact Hb.
      apply joint_loop_no_column in Ha; [subst a | reflexivity].
      eexists. apply check_no_rows. reflexivity.
    + exists e. erewrite bind_raise by exact Ha. reflexivity.
  - intros Hids.
    assert (H : match supported (joints st) with
                | [] => exists sol, assemble st = (Ok (coo_empty, sol), st)
                | _ :: _ => assemble st = (Raise (ValueError msg_max_empty), st)
                end).
    { rewrite assemble_no_beams by exact Hb.
      assert (H1 : forall j, In j (seq 0 (length (joints st))) ->
                             (j < length (joints st))%nat)
        by (intros j Hj; apply in_seq in Hj; lia).
      pose proof (@joint_loop_no_column_ids st Hids _ coo_empty _ H1
                    (repeat_length f0 (length (joints st) * 2)) eq_refl) as H.
      rewrite map_nth_seq in H. exact H. }
    unfold calculate_force.
    destruct (supported (joints st)) as [|j sup].
    + destruct H as (sol & H). split; [|split].
      * erewrite bind_ok by exact H. apply check_no_rows. reflexivity.
      * congruence.
      * intros _. exists sol. exact H.
    + split; [|split].
      * erewrite bind_raise by exact H. reflexivity.
      * intros _. exact H.
      * discriminate.
Qed.

End NoBeams.

(** ** Columns of the assembled system *)

Section Columns.

Context {F : Type} {SF : Scalar F}.

Lemma in_column_app c (es es' : list (Z * Z * F)) :
  in_column c (es ++ es') = in_column c es ++ in_column c es'.
Proof. apply filter_app. Qed.

Lemma in_column_none c (es : list (Z * Z * F)) :
  (forall e, In e es -> snd (fst e) <> c) -> in_column c es = [].
Proof.
  induction es as [|e es IH]; intros H; [reflexivity|].
  cbn [in_column filter].
  replace (snd (fst e) =? c) with false
    by (symmetry; apply Z.eqb_neq, H; now left).
  apply IH. intros e' He'. apply H. now right.
Qed.

Lemma in_column_beam_entries js b b' bm :
  in_column (Z.of_nat b) (beam_entries (F := F) js b' bm) =
  if Nat.eqb b' b then beam_entries js b' bm else [].
Proof.
  unfold beam_entries, in_column. cbn [filter fst snd].
  destruct (Nat.eqb_spec b' b) as [->|Hne].
  - now rewrite Z.eqb_refl.
  - replace (Z.of_nat b' =? Z.of_nat b) with false; [reflexivity|].
    symmetry. apply Z.eqb_neq. lia.
Qed.

Lemma in_column_beams_seq (f : nat -> Beam) js b n : forall s,
  in_column (Z.of_nat b) (flat_map (fun i => beam_entries (F := F) js i (f i)) (seq s n)) =
  if (s <=? b)%nat && (b <? s + n)%nat then beam_entries js b (f b) else [].
Proof.
  induction n as [|n IH]; intros s.
  - cbn [seq flat_map in_column filter].
    replace ((s <=? b)%nat && (b <? s + 0)%nat) with false; [reflexivity|].
    symmetry. apply andb_false_iff. rewrite Nat.leb_gt, Nat.ltb_ge. lia.
  - cbn [seq flat_map]. rewrite in_column_app, in_column_beam_entries, IH.
    destruct (Nat.eqb_spec s b) as [->|Hne].
    + replace ((S b <=? b)%nat && (b <? S b + n)%nat) with false
        by (symmetry; apply andb_false_iff; left; apply Nat.leb_gt; lia).
      replace ((b <=? b)%nat && (b <? b + S n)%nat) with true
        by (symmetry; apply andb_true_iff; rewrite Nat.leb_le, Nat.ltb_lt; lia).
      apply app_nil_r.
    + cbn [app].
      replace ((S s <=? b)%nat && (b <? S s + n)%nat)
        with ((s <=? b)%nat && (b <? s + S n)%nat); [reflexivity|].
      apply eq_true_iff_eq. rewrite !andb_true_iff, !Nat.leb_le, !Nat.ltb_lt. lia.
Qed.

Lemma in_column_beam_part (st : State F) b :
  (b < length (beams st))%nat ->
  in_column (Z.of_nat b) (beam_part st) =
  beam_entries (joints st) b (nth b (beams st) beam0).
Proof.
  intros Hb. unfold beam_part.
  rewrite (in_column_beams_seq (fun i => nth i (beams st) beam0)).
  replace ((0 <=? b)%nat && (b <? 0 + length (beams st))%nat) with true; [reflexivity|].
  symmetry. apply andb_true_iff. rewrite Nat.leb_le, Nat.ltb_lt. lia.
Qed.

Lemma beam_part_column_bound (st : State F) e :
  In e (beam_part st) -> 0 <= snd (fst e) < Z.of_nat (length (beams st)).
Proof.
  intros He. apply (in_map (fun e => snd (fst e))) in He.
  rewrite beam_part_columns in He. apply in_beam_columns in He as (b & Hb & ->). lia.
Qed.

Lemma reactions_column_bound B (sup : list (Joint F)) : forall s e,
  In e (reactions B s sup) -> B + 2 * Z.of_nat s <= snd (fst e).
Proof.
  induction sup as [|j sup IH]; intros s e He; [destruct He|].
  cbn [reactions] in He. apply in_app_or in He as [He|He].
  - unfold reaction_entries in He.
    destruct He as [<-|[<-|[]]]; cbn [fst snd]; lia.
  - apply IH in He. lia.
Qed.

(** The [k]-th of the supported joints, counting from [s], owns columns
    [B + 2 (s + k)] and [B + 2 (s + k) + 1], one triplet in each. *)
Lemma in_column_reactions B (sup : list (Joint F)) : forall s k j,
  nth_error sup k = Some j ->
  in_column (B + 2 * Z.of_nat (s + k)) (reactions B s sup) =
    [(id_of j * 2 - 2, B + 2 * Z.of_nat (s + k), f1)] /\
  in_column (B + 2 * Z.of_nat (s + k) + 1) (reactions B s sup) =
    [(id_of j * 2 - 1, B + 2 * Z.of_nat (s + k) + 1, f1)].
Proof.
  induction sup as [|j0 sup IH]; intros s k j Hk; [destruct k; discriminate|].
  cbn [reactions]. rewrite !in_column_app.
  destruct k as [|k]; cbn [nth_error] in Hk.
  - injection Hk as ->. rewrite Nat.add_0_r.
    rewrite !(@in_column_none _ (reactions B (S s) sup)).
    2,3: intros e He; apply reactions_column_bound in He; lia.
    unfold reaction_entries, in_column. cbn [filter fst snd].
    rewrite !Z.eqb_refl.
    replace (B + 2 * Z.of_nat s + 1 =? B + 2 * Z.of_nat s) with false
      by (symmetry; apply Z.eqb_neq; lia).
    replace (B + 2 * Z.of_nat s =? B + 2 * Z.of_nat s + 1) with false
      by (symmetry; apply Z.eqb_neq; lia).
    split; reflexivity.
  - rewrite !(@in_column_none _ (reaction_entries B s j0)).
    2,3: intros e [<-|[<-|[]]]; cbn [fst snd]; lia.
    replace (s + S k)%nat with (S s + k)%nat by lia.
    apply IH. exact Hk.
Qed.

End Columns.

Section ColumnClaims.

Context {F : Type} {SF : Scalar F}.

(** C4.  In a well-formed geometry, the triplets of the column of beam [b],
    which joins joints [j1] and [j2], are exactly four: in rows [2 j1 - 2]
    and [2 j1 - 1] (the x-row and y-row of [j1]) the components of
    [(dx, dy) / sqrt (dx^2 + dy^2)] with [dx = x(j1) - x(j2)] and
    [dy = y(j1) - y(j2)], and in the two rows of [j2] the components of the
    same vector with the two joints exchanged.  No other row has a triplet
    in that column. *)
Theorem beam_coefficients (st : State F) (b : nat) :
  well_formed st = true ->
  (b < length (beams st))%nat ->
  let bm := nth b (beams st) beam0 in
  let j1 := joint_of (joints st) (ba bm) in
  let j2 := joint_of (joints st) (bb bm) in
  let dx := fsub (jx j1) (jx j2) in
  let dy := fsub (jy j1) (jy j2) in
  let ex := fsub (jx j2) (jx j1) in
  let ey := fsub (jy j2) (jy j1) in
  exists a sol,
    assemble st = (Ok (a, sol), st) /\
    in_column (Z.of_nat b) (entries a) =
    [ (ba bm * 2 - 2, Z.of_nat b, fdiv dx (fsqrt (fadd (fpow2 dx) (fpow2 dy))));
      (ba bm * 2 - 1, Z.of_nat b, fdiv dy (fsqrt (fadd (fpow2 dx) (fpow2 dy))));
      (bb bm * 2 - 2, Z.of_nat b, fdiv ex (fsqrt (fadd (fpow2 ex) (fpow2 ey))));
      (bb bm * 2 - 1, Z.of_nat b, fdiv ey (fsqrt (fadd (fpow2 ex) (fpow2 ey)))) ].
Proof.
  intros Hwf Hb bm j1 j2 dx dy ex ey.
  assert (Hne : beams st <> []) by (destruct (beams st); [cbn in Hb; lia | discriminate]).
  destruct (assemble_wf st Hwf Hne) as (sol & _ & Ha & _).
  eexists. exists sol. split; [exact Ha|].
  rewrite entries_of_entries, in_column_app, in_column_beam_part by exact Hb.
  rewrite (@in_column_none F _ (reaction_part st)).
  - rewrite app_nil_r. reflexivity.
  - intros e He. rewrite reaction_part_reactions in He.
    apply reactions_column_bound in He. lia.
Qed.

End ColumnClaims.

(** ** What a completed assembly has built, well-formed or not *)

Section Completed.

Context {F : Type} {SF : Scalar F}.

Lemma getitem_nat_inv {A} (l : list A) (j : nat) (d x : A) (st st' : State F) :
  getitem l (Z.of_nat j) st = (Ok x, st') -> x = nth j l d.
Proof.
  unfold getitem, wrap_index.
  replace (Z.of_nat j <? 0) with false by (symmetry; apply Z.ltb_ge; lia).
  destruct ((0 <=? Z.of_nat j) && (Z.of_nat j <? Z.of_nat (length l))); [|discriminate].
  rewrite Nat2Z.id. destruct (nth_error l j) as [y|] eqn:E; [|discriminate].
  intros [= <- _]. symmetry. now apply nth_error_nth.
Qed.

Lemma py_int_inv (x : F) z (st st' : State F) :
  py_int x st = (Ok z, st') -> int_of x = Some z.
Proof. unfold py_int. destruct (int_of x); [intros [= <- _]; reflexivity | discriminate]. Qed.

Lemma py_max_inv l m (st st' : State F) :
  py_max l st = (Ok m, st') -> max_list l = Some m.
Proof. unfold py_max. destruct (max_list l); [intros [= <- _]; reflexivity | discriminate]. Qed.

(** A beam that gets through its turn has added four triplets in its own
    column. *)
Lemma beam_body_ok_inv b (a a1 : coo F) (st st1 : State F) :
  beam_body b a st = (Ok a1, st1) ->
  exists es, a1 = coo_app a es /\
             map (fun e => snd (fst e)) es = repeat (Z.of_nat b) 4.
Proof.
  intros H. unfold beam_body in H.
  repeat (cbv zeta in H; apply bind_ok_inv in H as (? & ? & _ & H)).
  injection H as <- _.
  rewrite !append3_coo_app, !coo_app_app. eexists. split; reflexivity.
Qed.

Lemma beam_loop_ok_inv l : forall (a a1 : coo F) (st st1 : State F),
  for_each beam_body l a st = (Ok a1, st1) ->
  exists es, a1 = coo_app a es /\
             map (fun e => snd (fst e)) es =
             flat_map (fun b => repeat (Z.of_nat b) 4) l.
Proof.
  induction l as [|b l IH]; intros a a1 st st1 H.
  - injection H as <- _. exists []. now rewrite coo_app_nil.
  - cbn [for_each] in H. apply bind_ok_inv in H as (a2 & st2 & Hb & H).
    apply beam_body_ok_inv in Hb as (es & -> & Hes).
    apply IH in H as (es' & -> & Hes').
    exists (es ++ es'). rewrite coo_app_app, map_app, Hes, Hes'. auto.
Qed.

(** A joint that gets through its turn, the columns so far ending at
    [c - 1]: a supported one has taken columns [c] and [c + 1]. *)
Lemma joint_body_ok_inv j (a a1 : coo F) sol s1 (st st1 : State F) c :
  max_list (col a) = Some (c - 1) ->
  joint_body j (a, sol) st = (Ok (a1, s1), st1) ->
  let jt := nth j (joints st) joint0 in
  a1 = if is_supported jt
       then coo_app a [(id_of jt * 2 - 2, c, f1); (id_of jt * 2 - 1, c + 1, f1)]
       else a.
Proof.
  intros Hmax H jt. unfold joint_body in H. cbn [fst snd] in H.
  apply bind_ok_inv in H as (js & st2 & Hjs & H). injection Hjs as <- <-.
  apply bind_ok_inv in H as (x & st3 & Hx & H).
  apply (getitem_nat_inv _ _ joint0) in Hx. fold jt in Hx. subst x.
  apply bind_ok_inv in H as (sol1 & st4 & _ & H).
  apply bind_ok_inv in H as (sol2 & st5 & _ & H).
  unfold is_supported. destruct (feqb (jsup jt) f1).
  - apply bind_ok_inv in H as (jnum & st6 & Hid & H).
    apply py_int_inv in Hid. rewrite (id_of_some _ Hid).
    apply bind_ok_inv in H as (m1 & st7 & Hm1 & H).
    apply py_max_inv in Hm1. rewrite Hmax in Hm1. injection Hm1 as <-.
    apply bind_ok_inv in H as (m2 & st8 & Hm2 & H).
    apply py_max_inv in Hm2.
    rewrite (@max_list_snoc _ _ (c - 1 + 1) Hmax) in Hm2. injection Hm2 as <-.
    injection H as <- _ _.
    unfold coo_app, of_entries. cbn [map fst snd row col data].
    rewrite <- !app_assoc. cbn [app].
    replace (c - 1 + 1) with c by lia.
    replace (Z.max (c - 1) c + 1) with (c + 1) by lia.
    reflexivity.
  - injection H as <- _ _. reflexivity.
Qed.

Lemma joint_loop_ok_inv (st : State F) B l : forall (a a1 : coo F) sol s1 st1 s,
  max_list (col a) = Some (B + 2 * Z.of_nat s - 1) ->
  for_each joint_body l (a, sol) st = (Ok (a1, s1), st1) ->
  a1 = coo_app a (reactions B s (supported (map (fun j => nth j (joints st) joint0) l))).
Proof.
  induction l as [|j l IH]; intros a a1 sol s1 st1 s Hmax H.
  - injection H as <- _ _. cbn. now rewrite coo_app_nil.
  - cbn [for_each map] in *. rewrite supported_cons.
    apply bind_ok_inv in H as ([a2 s2] & st2 & Hj & H).
    pose proof (@readonly_ok_state F _ _ _ _ _ (readonly_joint_body j (a, sol)) Hj); subst st2.
    pose proof (@joint_body_ok_inv j a a2 sol s2 st st (B + 2 * Z.of_nat s) Hmax Hj) as Ha2.
    cbv zeta in Ha2. clear Hj. rename Ha2 into Hj.
    destruct (is_supported (nth j (joints st) joint0)).
    + subst a2. eapply IH in H.
      * rewrite H, coo_app_app. reflexivity.
      * rewrite col_coo_app. cbn [map fst snd].
        change [B + 2 * Z.of_nat s; B + 2 * Z.of_nat s + 1]
          with ([B + 2 * Z.of_nat s] ++ [B + 2 * Z.of_nat s + 1]).
        rewrite app_assoc.
        rewrite (@max_list_snoc _ _ (B + 2 * Z.of_nat s + 1)
                   (@max_list_snoc _ _ (B + 2 * Z.of_nat s) Hmax)). f_equal. lia.
    + subst a2. eapply IH in H; [exact H | exact Hmax].
Qed.

Lemma max_beam_columns_seq n :
  n <> 0%nat ->
  max_list (flat_map (fun b => repeat (Z.of_nat b) 4) (seq 0 n)) = Some (Z.of_nat n - 1).
Proof.
  intros Hn. apply max_list_is_max. split.
  - apply in_beam_columns. exists (n - 1)%nat. split; lia.
  - intros x Hx. apply in_beam_columns in Hx as (b & Hb & ->). lia.
Qed.

(** Whenever the assembly of a truss with at least one beam completes, the
    lists are those of some triplets of the beams, with the columns of the
    beams in beam order, followed by the triplets of the supported
    joints. *)
Lemma assemble_ok_inv (st st' : State F) (a : coo F) sol :
  beams st <> [] ->
  assemble st = (Ok (a, sol), st') ->
  exists es,
    map (fun e => snd (fst e)) es =
      flat_map (fun b => repeat (Z.of_nat b) 4) (seq 0 (length (beams st))) /\
    a = of_entries (es ++ reaction_part st).
Proof.
  intros Hne H. unfold assemble, for_range in H.
  apply bind_ok_inv in H as (bs & st1 & Hbs & H). injection Hbs as <- <-.
  apply bind_ok_inv in H as (a0 & st2 & Hb & H).
  pose proof (@readonly_ok_state F _ _ _ _ _
                (readonly_for_each beam_body _ readonly_beam_body coo_empty) Hb); subst st2.
  apply beam_loop_ok_inv in Hb as (es & -> & Hes).
  apply bind_ok_inv in H as (js & st3 & Hjs & H). injection Hjs as <- <-.
  assert (Hmax : max_list (col (coo_app coo_empty es)) =
                 Some (Z.of_nat (length (beams st)) + 2 * Z.of_nat 0 - 1)).
  { rewrite col_coo_app. cbn [col coo_empty app]. rewrite Hes.
    rewrite max_beam_columns_seq.
    - f_equal. lia.
    - destruct (beams st); [congruence | discriminate]. }
  pose proof (@joint_loop_ok_inv st _ _ _ _ _ _ _ _ Hmax H) as Ha.
  exists es. split; [exact Hes|].
  rewrite map_nth_seq, <- reaction_part_reactions, coo_app_app in Ha. exact Ha.
Qed.

(** C10.  Take a truss with at least one beam ([B] beams, [S] supported
    joints).  Whenever the assembly completes, the columns are, in the
    order of the list: [b] four times for each beam [b = 0 .. B-1] in beam
    order, then [B + 2 s] and [B + 2 s + 1] for [s = 0 .. S-1]; and the
    [s]-th supported joint, in joint order, has exactly one triplet in
    column [B + 2 s], with value 1 in its x-row, and exactly one in column
    [B + 2 s + 1], with value 1 in its y-row.  The assembly does complete
    when the geometry is well formed. *)
Theorem reaction_columns (st : State F) :
  beams st <> [] ->
  let B := Z.of_nat (length (beams st)) in
  let sup := supported (joints st) in
  (forall a sol st',
     assemble st = (Ok (a, sol), st') ->
     col a = flat_map (fun b => repeat (Z.of_nat b) 4) (seq 0 (length (beams st))) ++
             flat_map (fun s => [B + 2 * Z.of_nat s; B + 2 * Z.of_nat s + 1])
                      (seq 0 (length sup)) /\
     forall s j, nth_error sup s = Some j ->
       in_column (B + 2 * Z.of_nat s) (entries a) =
         [(id_of j * 2 - 2, B + 2 * Z.of_nat s, f1)] /\
       in_column (B + 2 * Z.of_nat s + 1) (entries a) =
         [(id_of j * 2 - 1, B + 2 * Z.of_nat s + 1, f1)]) /\
  (well_formed st = true -> exists a sol, assemble st = (Ok (a, sol), st)).
Proof.
  intros Hne B sup. split.
  - intros a sol st' Ha.
    destruct (@assemble_ok_inv st st' a sol Hne Ha) as (es & Hes & ->). split.
    + cbn [col of_entries]. rewrite map_app, Hes. f_equal.
      rewrite reaction_part_reactions. fold B sup.
      change (seq 0 (length sup)) with (seq 0%nat (length sup)).
      generalize 0%nat as s0.
      induction sup as [|j t IH]; intros s0; [reflexivity|].
      cbn [reactions length seq flat_map map app]. rewrite map_app.
      cbn [reaction_entries map fst snd app]. now rewrite IH.
    + intros s j Hs. rewrite entries_of_entries, !in_column_app.
      rewrite !(@in_column_none F _ es).
      2,3: intros e He; apply (in_map (fun e => snd (fst e))) in He;
           rewrite Hes in He; apply in_beam_columns in He as (b & Hb & Hc);
           rewrite Hc; fold B; lia.
      rewrite reaction_part_reactions. fold B sup. cbn [app].
      exact (in_column_reactions B sup 0 s Hs).
  - intros Hwf. destruct (assemble_wf st Hwf Hne) as (sol & _ & Ha & _).
    eexists. exists sol. exact Ha.
Qed.

End Completed.

(** ** Shape of the assembled system *)

Section Shape.

Context {F : Type} {SF : Scalar F}.
Variable spsolve : csr F -> list F -> solver_outcome F.

Lemma ids_ok_In (js : list (Joint F)) j :
  ids_ok js = true -> In j js -> 1 <= id_of j <= Z.of_nat (length js).
Proof.
  intros Hids Hj. destruct (In_nth _ _ joint0 Hj) as (i & Hi & <-).
  rewrite (id_of_some _ (ids_ok_nth _ Hids Hi)). lia.
Qed.

Lemma in_reactions_row B (sup : list (Joint F)) : forall s e,
  In e (reactions B s sup) ->
  exists j, In j sup /\ (fst (fst e) = id_of j * 2 - 2 \/ fst (fst e) = id_of j * 2 - 1).
Proof.
  induction sup as [|j sup IH]; intros s e He; [destruct He|].
  cbn [reactions] in He. apply in_app_or in He as [He|He].
  - exists j. split; [now left|].
    destruct He as [<-|[<-|[]]]; cbn [fst snd]; auto.
  - destruct (IH _ _ He) as (j' & Hj' & Hr). exists j'. split; [now right | exact Hr].
Qed.

Lemma reactions_has_row B (sup : list (Joint F)) j : forall s,
  In j sup -> exists c, In (id_of j * 2 - 1, c, f1) (reactions B s sup).
Proof.
  induction sup as [|j0 sup IH]; intros s Hj; [destruct Hj|].
  cbn [reactions]. destruct Hj as [->|Hj].
  - eexists. apply in_or_app. left. right. left. reflexivity.
  - destruct (IH (S s) Hj) as (c & Hc). exists c. apply in_or_app. now right.
Qed.

Lemma in_beam_part (st : State F) e :
  In e (beam_part st) <->
  exists b, (b < length (beams st))%nat /\
            In e (beam_entries (joints st) b (nth b (beams st) beam0)).
Proof.
  unfold beam_part. rewrite in_flat_map. split.
  - intros (b & Hb & He). exists b. apply in_seq in Hb. split; [lia | exact He].
  - intros (b & Hb & He). exists b. split; [apply in_seq; lia | exact He].
Qed.

Lemma rows_bound (st : State F) e :
  well_formed st = true ->
  In e (beam_part st ++ reaction_part st) ->
  0 <= fst (fst e) <= 2 * Z.of_nat (length (joints st)) - 1.
Proof.
  intros Hwf He. destruct (well_formed_parts st Hwf) as [Hids Hbeams].
  apply in_app_or in He as [He|He].
  - apply in_beam_part in He as (b & Hb & He).
    destruct (Hbeams b Hb) as [Hok _]. apply beam_ok_range in Hok.
    unfold beam_entries in He.
    destruct He as [<-|[<-|[<-|[<-|[]]]]]; cbn [fst snd]; lia.
  - rewrite reaction_part_reactions in He.
    apply in_reactions_row in He as (j & Hj & Hr).
    apply filter_In in Hj as [Hj _].
    pose proof (@ids_ok_In _ j Hids Hj). lia.
Qed.

Lemma last_row_present (st : State F) :
  well_formed st = true ->
  attached st (Z.of_nat (length (joints st))) = true ->
  (0 < length (joints st))%nat ->
  exists c v, In (2 * Z.of_nat (length (joints st)) - 1, c, v)
                 (beam_part st ++ reaction_part st).
Proof.
  intros Hwf Hat Hpos. destruct (well_formed_parts st Hwf) as [Hids Hbeams].
  set (N := Z.of_nat (length (joints st))) in *.
  unfold attached in Hat. apply orb_true_iff in Hat as [Hat|Hat].
  - apply existsb_exists in Hat as (bm & Hbm & Hend).
    destruct (In_nth _ _ beam0 Hbm) as (b & Hb & Eb).
    apply orb_true_iff in Hend as [Hend|Hend]; apply Z.eqb_eq in Hend.
    + eexists. eexists. apply in_or_app. left. apply in_beam_part.
      exists b. split; [exact Hb|]. rewrite Eb. unfold beam_entries.
      right. left. rewrite Hend. f_equal. f_equal. lia.
    + eexists. eexists. apply in_or_app. left. apply in_beam_part.
      exists b. split; [exact Hb|]. rewrite Eb. unfold beam_entries.
      right. right. right. left. rewrite Hend. f_equal. f_equal. lia.
  - assert (Hin : In (joint_of (joints st) N) (supported (joints st))).
    { apply filter_In. split; [|exact Hat]. apply nth_In. unfold N. lia. }
    destruct (@reactions_has_row (Z.of_nat (length (beams st))) _ _ 0%nat Hin) as (c & Hc).
    assert (Hid : int_of (jid (joint_of (joints st) N)) = Some N)
      by (apply ids_ok_joint_of; [exact Hids | unfold N; lia]).
    rewrite (id_of_some _ Hid) in Hc.
    exists c, f1. apply in_or_app. right. rewrite reaction_part_reactions.
    replace (2 * N - 1) with (N * 2 - 1) by lia. exact Hc.
Qed.

(** In a well-formed geometry with at least one beam whose last joint
    carries a beam or a support, the system has two rows per joint and a
    column per beam and per reaction component, and the right-hand side has
    an entry per row. *)
Lemma shape_attached (st : State F) :
  well_formed st = true ->
  beams st <> [] ->
  attached st (Z.of_nat (length (joints st))) = true ->
  exists a sol,
    assemble st = (Ok (a, sol), st) /\
    length sol = (length (joints st) * 2)%nat /\
    shape a = Some (2 * Z.of_nat (length (joints st)),
                    Z.of_nat (length (beams st)) +
                    2 * Z.of_nat (length (supported (joints st)))).
Proof.
  intros Hwf Hne Hat.
  destruct (assemble_wf st Hwf Hne) as (sol & Hlen & Ha & Hmax).
  destruct (well_formed_parts st Hwf) as [Hids Hbeams].
  assert (Hpos : (0 < length (joints st))%nat).
  { destruct (Hbeams 0%nat) as [Hok _].
    - destruct (beams st); [congruence | cbn; lia].
    - apply beam_ok_range in Hok. lia. }
  eexists. exists sol. split; [exact Ha|]. split; [exact Hlen|].
  unfold shape. rewrite Hmax.
  assert (Hrow : max_list (row (of_entries (beam_part st ++ reaction_part st))) =
                 Some (2 * Z.of_nat (length (joints st)) - 1)).
  { apply max_list_is_max. cbn [row of_entries]. split.
    - destruct (@last_row_present st Hwf Hat Hpos) as (c & v & Hin).
      apply (in_map (fun e => fst (fst e))) in Hin. exact Hin.
    - intros x Hx. apply in_map_iff in Hx as (e & <- & He).
      apply (@rows_bound st e Hwf) in He. lia. }
  rewrite Hrow. f_equal. f_equal; lia.
Qed.

(** C7, as the code has it.  A truss of two joints and one beam from joint
    1 to joint 2, joint 1 supported and joint 2 not (scenario 1 has this
    shape, whatever the coordinates and the load), gives a system of 4 rows
    and 3 columns, and [calculate_force] raises the RuntimeError of a
    geometry not suitable for static equilibrium analysis: no force is
    returned, and the solver is not called. *)
Theorem single_beam_not_determinate (st : State F) (j1 j2 : Joint F) (bm : Beam) :
  well_formed st = true ->
  joints st = [j1; j2] ->
  beams st = [bm] ->
  ba bm = 1 -> bb bm = 2 ->
  is_supported j1 = true -> is_supported j2 = false ->
  shape (fst (assembled st)) = Some (4, 3) /\
  calculate_force spsolve st = (Raise (RuntimeError msg_not_suitable), st).
Proof.
  intros Hwf Hj Hb Ha Hbb H1 H2.
  destruct (@shape_attached st Hwf) as (a & sol & Hasm & _ & Hshape).
  - rewrite Hb. discriminate.
  - unfold attached. rewrite Hb, Hj. cbn [existsb length].
    apply orb_true_iff. left. rewrite Hbb.
    rewrite orb_false_r. apply orb_true_iff. right. reflexivity.
  - assert (Hs : shape a = Some (4, 3)).
    { rewrite Hshape, Hj, Hb. unfold supported. cbn [filter length].
      rewrite H1, H2. reflexivity. }
    split.
    + unfold assembled. rewrite Hasm. exact Hs.
    + unfold calculate_force. erewrite bind_ok by exact Hasm.
      eapply check_mismatch; [exact Hs | discriminate].
Qed.

End Shape.

(** ** The constructor *)

Section Constructor.

Context {F : Type} {SF : Scalar F}.
Variable spsolve : csr F -> list F -> solver_outcome F.

Lemma beam_body_dangling (st : State F) b (a : coo F) :
  let bm := nth b (beams st) beam0 in
  (b < length (beams st))%nat ->
  Z.of_nat (length (joints st)) < ba bm \/ Z.of_nat (length (joints st)) < bb bm ->
  exists e, beam_body b a st = (Raise e, st).
Proof.
  intros bm Hb Hd. pose proof int64_min_neg as Hmin.
  destruct (beam_body b a st) as [[a'|e] st'] eqn:E;
    pose proof (@readonly_ok_state _ _ _ _ _ _ (readonly_beam_body b a) E); subst st'.
  2:{ now exists e. }
  exfalso. unfold beam_body in E.
  erewrite bind_ok in E by reflexivity.
  erewrite bind_ok in E by reflexivity.
  erewrite bind_ok in E by (apply getitem_nat with (d := beam0); exact Hb).
  fold bm in E.
  apply bind_ok_inv in E as (i1 & s3 & E3 & E).
  pose proof (@readonly_ok_state _ _ _ _ _ _ (readonly_int64_pred _) E3); subst s3.
  apply bind_ok_inv in E as (p & s4 & E4 & E).
  pose proof (@readonly_ok_state _ _ _ _ _ _ (readonly_getitem _ _) E4); subst s4.
  erewrite bind_ok in E by (apply getitem_nat with (d := beam0); exact Hb).
  fold bm in E.
  apply bind_ok_inv in E as (i2 & s5 & E5 & E).
  pose proof (@readonly_ok_state _ _ _ _ _ _ (readonly_int64_pred _) E5); subst s5.
  apply bind_ok_inv in E as (q & s6 & E6 & _).
  destruct Hd as [Hd|Hd].
  - rewrite int64_pred_run in E3 by lia. injection E3 as <-.
    rewrite getitem_high in E4 by lia. discriminate.
  - rewrite int64_pred_run in E5 by lia. injection E5 as <-.
    rewrite getitem_high in E6 by lia. discriminate.
Qed.

Lemma beam_loop_dangling (st : State F) l : forall (a : coo F) b,
  In b l ->
  (forall i, In i l -> (i < length (beams st))%nat) ->
  Z.of_nat (length (joints st)) < ba (nth b (beams st) beam0) \/
  Z.of_nat (length (joints st)) < bb (nth b (beams st) beam0) ->
  exists e, for_each beam_body l a st = (Raise e, st).
Proof.
  induction l as [|i l IH]; intros a b Hin Hl Hd; [destruct Hin|].
  cbn [for_each].
  destruct (beam_body i a st) as [[a'|e] st'] eqn:E;
    pose proof (@readonly_ok_state _ _ _ _ _ _ (readonly_beam_body i a) E); subst st'.
  - erewrite bind_ok by exact E.
    destruct Hin as [->|Hin].
    + destruct (@beam_body_dangling st b a (Hl b (or_introl eq_refl)) Hd) as (e & He).
      congruence.
    + apply (IH a' b Hin); [intros; apply Hl; now right | exact Hd].
  - exists e. erewrite bind_raise by exact E. reflexivity.
Qed.

(** C2, as the code has it.  The constructor checks nothing: for every pair
    of tables it returns normally and the object holds the tables as given,
    a beam of length zero or a beam to a missing joint included.  A beam
    whose joint index lies beyond the end of the joints table shows only
    later: [calculate_force] raises during the assembly, before anything is
    handed to the solver. *)
Theorem constructor_checks_nothing (js : list (Joint F)) (bs : list Beam) (st : State F) :
  Truss_init js bs st =
    (Ok tt, mkState js bs (warn_error st) (stdout st) (solves st)) /\
  (dangling (mkState js bs (warn_error st) (stdout st) (solves st)) = true ->
   exists e,
     calculate_force spsolve (mkState js bs (warn_error st) (stdout st) (solves st)) =
     (Raise e, mkState js bs (warn_error st) (stdout st) (solves st))).
Proof.
  split; [reflexivity|].
  set (st1 := mkState js bs (warn_error st) (stdout st) (solves st)).
  intros Hd. unfold dangling in Hd.
  apply existsb_exists in Hd as (bm & Hbm & Hd).
  destruct (In_nth _ _ beam0 Hbm) as (b & Hb & Eb).
  assert (Hd' : Z.of_nat (length (joints st1)) < ba (nth b (beams st1) beam0) \/
                Z.of_nat (length (joints st1)) < bb (nth b (beams st1) beam0)).
  { rewrite Eb. apply orb_true_iff in Hd. rewrite !Z.ltb_lt in Hd. exact Hd. }
  destruct (@beam_loop_dangling st1 (seq 0 (length (beams st1))) coo_empty b) as (e & He).
  - apply in_seq. lia.
  - intros i Hi. apply in_seq in Hi. lia.
  - exact Hd'.
  - exists e. unfold calculate_force, assemble, for_range.
    erewrite bind_raise; [reflexivity|].
    erewrite bind_ok by reflexivity.
    erewrite bind_raise by exact He. reflexivity.
Qed.

End Constructor.

(** * Further properties of [calculate_force] *)

(** ** What a call leaves behind *)

Section Outcomes.

Context {F : Type} {SF : Scalar F}.
Variable spsolve : csr F -> list F -> solver_outcome F.

Lemma in_entries (a : coo F) r c v :
  In (r, c, v) (entries a) -> In r (row a) /\ In c (col a).
Proof.
  unfold entries. intros H.
  apply in_combine_l in H. split.
  - eapply in_combine_l; exact H.
  - eapply in_combine_r; exact H.
Qed.

Lemma system_matrix_within (a : coo F) A :
  system_matrix a = Some A -> within_shape A = true.
Proof.
  intros H. apply system_matrix_some in H as (Hs & Hnn & Ht).
  apply shape_some in Hs as [Hr Hc].
  apply max_list_is_max in Hr as [_ Hr]. apply max_list_is_max in Hc as [_ Hc].
  unfold nonneg in Hnn. apply andb_true_iff in Hnn as [Hnr Hnc].
  rewrite forallb_forall in Hnr, Hnc.
  unfold within_shape. rewrite Ht. apply forallb_forall.
  intros [[r c] v] Hin. apply in_entries in Hin as [Hir Hic]. cbn [fst snd].
  specialize (Hr r Hir). specialize (Hc c Hic).
  specialize (Hnr r Hir). specialize (Hnc c Hic). cbn beta in Hnr, Hnc.
  apply Z.leb_le in Hnr, Hnc.
  rewrite !andb_true_iff, !Z.leb_le, !Z.ltb_lt. lia.
Qed.

(** The solver call inside the [try]: whatever the solver does, one system
    is logged and the two tables stay. *)
Lemma call_spsolve_state A b (st : State F) :
  snd (call_spsolve spsolve A b st) =
  mkState (joints st) (beams st) (warn_error st) (stdout st) (solves st ++ [(A, b)]).
Proof.
  unfold call_spsolve. erewrite bind_ok by reflexivity.
  destruct (negb (nrows A =? ncols A)); [reflexivity|].
  destruct (negb (nrows A =? Z.of_nat (length b))); [reflexivity|].
  destruct (spsolve A b) as [f|f|e]; try reflexivity.
  unfold bind, warn. cbn [warn_error]. destruct (warn_error st); reflexivity.
Qed.

(** From the determinacy check on: either an exception with the state as
    it was, or a normal return after exactly one call of the solver, on a
    square matrix, with the filter set. *)
Lemma check_and_solve_cases (sys : coo F * list F) (st : State F) :
  (exists e, check_and_solve spsolve sys st = (Raise e, st)) \/
  (exists A bf out,
      check_and_solve spsolve sys st =
        (Ok bf, mkState (joints st) (beams st) true out (solves st ++ [(A, snd sys)])) /\
      system_matrix (fst sys) = Some A /\ nrows A = ncols A /\
      (out = stdout st \/ (out = stdout st ++ [msg_cannot_solve] /\ bf = []))).
Proof.
  destruct sys as [a sol]. cbn [fst snd].
  destruct (max_list (row a)) as [mr|] eqn:Hr.
  2:{ left. eexists. unfold check_and_solve. cbn [fst snd].
      erewrite bind_raise; [reflexivity|]. unfold py_max. rewrite Hr. reflexivity. }
  destruct (max_list (col a)) as [mc|] eqn:Hc.
  2:{ left. eexists. unfold check_and_solve. cbn [fst snd].
      erewrite bind_ok by (apply py_max_run; exact Hr).
      erewrite bind_raise; [reflexivity|]. unfold py_max. rewrite Hc. reflexivity. }
  assert (Hs : shape a = Some (mr + 1, mc + 1)) by (unfold shape; now rewrite Hr, Hc).
  destruct (Z.eq_dec (mr + 1) (mc + 1)) as [Heq|Hne].
  2:{ left. eexists. eapply check_mismatch; eassumption. }
  destruct (nonneg a) eqn:Hnn.
  2:{ left. eexists. unfold check_and_solve. cbn [fst snd].
      erewrite bind_ok by (apply py_max_run; exact Hr).
      erewrite bind_ok by (apply py_max_run; exact Hc).
      replace ((mr >? mc) || (mr <? mc)) with false
        by (symmetry; rewrite Z.gtb_ltb; apply orb_false_iff; rewrite !Z.ltb_ge; lia).
      erewrite bind_raise; [reflexivity|].
      unfold csr_matrix. fold (nonneg a). rewrite Hnn. reflexivity. }
  right.
  assert (Hm : system_matrix a = Some (mkCsr (mr + 1) (mc + 1) (entries a)))
    by (unfold system_matrix; now rewrite Hs, Hnn).
  set (A := mkCsr (mr + 1) (mc + 1) (entries a)) in *.
  rewrite check_square with (A := A); [| exact Hm | exact Heq].
  unfold try_except.
  set (st1 := mkState (joints st) (beams st) true (stdout st) (solves st)).
  pose proof (call_spsolve_state A sol st1) as Hst.
  destruct (call_spsolve spsolve A sol st1) as [[f|e] st2] eqn:Hcall;
    cbn [snd] in Hst; subst st2.
  - exists A, (firstn (length (beams st)) f), (stdout st). split.
    + erewrite bind_ok by exact Hcall. reflexivity.
    + auto.
  - exists A, [], (stdout st ++ [msg_cannot_solve]). split.
    + erewrite bind_raise by exact Hcall. reflexivity.
    + auto.
Qed.

(** X1.  An exception leaves no trace: when [calculate_force] raises, nothing
    was printed, nothing was handed to the solver, and the warnings filter
    is as it was. *)
Theorem raise_leaves_no_trace (st st' : State F) (e : exn) :
  calculate_force spsolve st = (Raise e, st') -> st' = st.
Proof.
  unfold calculate_force. intros H.
  destruct (assemble st) as [[sys|e0] st0] eqn:Ha;
    pose proof (assemble_ok_state _ Ha) as ->.
  - erewrite bind_ok in H by exact Ha.
    destruct (check_and_solve_cases sys st) as [(e1 & H1)|(A & bf & out & H1 & _)];
      rewrite H1 in H.
    + now injection H as _ <-.
    + discriminate.
  - erewrite bind_raise in H by exact Ha. now injection H as _ <-.
Qed.

(** X2.  A normal return means one solve: the solver was called exactly once,
    on a square matrix all of whose triplets lie inside its shape; the
    warnings filter is 'error' from then on; and at most the one message
    was printed, in which case the sequence returned is empty. *)
Theorem return_means_one_solve (st st' : State F) (bf : list F) :
  calculate_force spsolve st = (Ok bf, st') ->
  warn_error st' = true /\
  (exists A b, solves st' = solves st ++ [(A, b)] /\
               nrows A = ncols A /\ within_shape A = true) /\
  (stdout st' = stdout st \/
   (stdout st' = stdout st ++ [msg_cannot_solve] /\ bf = [])).
Proof.
  unfold calculate_force. intros H.
  destruct (assemble st) as [[sys|e0] st0] eqn:Ha;
    pose proof (assemble_ok_state _ Ha) as ->.
  - erewrite bind_ok in H by exact Ha.
    destruct (check_and_solve_cases sys st)
      as [(e1 & H1)|(A & bf1 & out & H1 & Hm & Hsq & Hout)]; rewrite H1 in H.
    + discriminate.
    + injection H as <- <-. cbn [warn_error solves stdout].
      split; [reflexivity|]. split; [|exact Hout].
      exists A, (snd sys). split; [reflexivity|]. split; [exact Hsq|].
      eapply system_matrix_within; exact Hm.
  - erewrite bind_raise in H by exact Ha. discriminate.
Qed.

End Outcomes.

(** ** Rows come in pairs *)

Section Parity.

Context {F : Type} {SF : Scalar F}.
Variable spsolve : csr F -> list F -> solver_outcome F.

Lemma row_pairs_app ks ks' : row_pairs (ks ++ ks') = row_pairs ks ++ row_pairs ks'.
Proof. apply flat_map_app. Qed.

Lemma beam_body_rows_inv b (a a1 : coo F) (st st1 : State F) :
  beam_body b a st = (Ok a1, st1) ->
  exists ks, row a1 = row a ++ row_pairs ks.
Proof.
  intros H. unfold beam_body in H.
  do 8 (apply bind_ok_inv in H as (? & ? & _ & H)).
  apply bind_ok_inv in H as (k1 & ? & _ & H).
  apply bind_ok_inv in H as (k2 & ? & _ & H).
  repeat (cbv zeta in H; apply bind_ok_inv in H as (? & ? & _ & H)).
  injection H as <- _. exists [k1; k2].
  unfold append3. cbn [row row_pairs flat_map app]. rewrite <- !app_assoc. reflexivity.
Qed.

Lemma beam_loop_rows_inv l : forall (a a1 : coo F) (st st1 : State F),
  for_each beam_body l a st = (Ok a1, st1) ->
  exists ks, row a1 = row a ++ row_pairs ks.
Proof.
  induction l as [|b l IH]; intros a a1 st st1 H.
  - injection H as <- _. exists []. cbn. now rewrite app_nil_r.
  - cbn [for_each] in H. apply bind_ok_inv in H as (a2 & st2 & Hb & H).
    apply beam_body_rows_inv in Hb as (ks & Hks).
    apply IH in H as (ks' & Hks').
    exists (ks ++ ks'). rewrite Hks', Hks, row_pairs_app, app_assoc. reflexivity.
Qed.

Lemma joint_body_rows_inv j (a a1 : coo F) sol s1 (st st1 : State F) :
  joint_body j (a, sol) st = (Ok (a1, s1), st1) ->
  exists ks, row a1 = row a ++ row_pairs ks.
Proof.
  intros H. unfold joint_body in H. cbn [fst snd] in H.
  do 4 (apply bind_ok_inv in H as (? & ? & _ & H)).
  match type of H with context [if ?c then _ else _] => destruct c end.
  - apply bind_ok_inv in H as (k & ? & _ & H).
    do 2 (apply bind_ok_inv in H as (? & ? & _ & H)).
    injection H as <- _ _. exists [k]. cbn [row row_pairs flat_map app].
    rewrite <- app_assoc. reflexivity.
  - injection H as <- _ _. exists []. cbn. now rewrite app_nil_r.
Qed.

Lemma joint_loop_rows_inv l : forall (a a1 : coo F) sol s1 (st st1 : State F),
  for_each joint_body l (a, sol) st = (Ok (a1, s1), st1) ->
  exists ks, row a1 = row a ++ row_pairs ks.
Proof.
  induction l as [|j l IH]; intros a a1 sol s1 st st1 H.
  - injection H as <- _ _. exists []. cbn. now rewrite app_nil_r.
  - cbn [for_each] in H. apply bind_ok_inv in H as ([a2 s2] & st2 & Hj & H).
    apply joint_body_rows_inv in Hj as (ks & Hks).
    apply IH in H as (ks' & Hks').
    exists (ks ++ ks'). rewrite Hks', Hks, row_pairs_app, app_assoc. reflexivity.
Qed.

Lemma assemble_rows_inv (st st' : State F) (a : coo F) sol :
  assemble st = (Ok (a, sol), st') -> exists ks, row a = row_pairs ks.
Proof.
  intros H. unfold assemble, for_range in H.
  apply bind_ok_inv in H as (bs & st1 & _ & H).
  apply bind_ok_inv in H as (a0 & st2 & Hb & H).
  apply beam_loop_rows_inv in Hb as (ks & Hks).
  apply bind_ok_inv in H as (js & st3 & _ & H).
  apply joint_loop_rows_inv in H as (ks' & Hks').
  exists (ks ++ ks'). rewrite Hks', Hks, row_pairs_app. reflexivity.
Qed.

(** The greatest row of a non-empty list of pairs is a y-row. *)
Lemma max_row_pairs ks m :
  max_list (row_pairs ks) = Some m -> exists k, m = k * 2 - 1.
Proof.
  intros H. apply max_list_is_max in H as [Hin Hle].
  unfold row_pairs in Hin. apply in_flat_map in Hin as (k & Hk & Hm).
  destruct Hm as [<-|[<-|[]]].
  - exfalso. assert (Hy : In (k * 2 - 1) (row_pairs ks)).
    { apply in_flat_map. exists k. split; [exact Hk | right; now left]. }
    specialize (Hle _ Hy). lia.
  - now exists k.
Qed.

Lemma reactions_columns (B : Z) (sup : list (Joint F)) : forall s,
  map (fun e => snd (fst e)) (reactions B s sup) =
  flat_map (fun i => [B + 2 * Z.of_nat i; B + 2 * Z.of_nat i + 1]) (seq s (length sup)).
Proof.
  induction sup as [|j sup IH]; intros s; [reflexivity|].
  cbn [reactions length seq flat_map]. rewrite map_app, IH. reflexivity.
Qed.

Lemma max_all_columns B S :
  (0 < B)%nat ->
  max_list (flat_map (fun b => repeat (Z.of_nat b) 4) (seq 0 B) ++
            flat_map (fun i => [Z.of_nat B + 2 * Z.of_nat i; Z.of_nat B + 2 * Z.of_nat i + 1])
                     (seq 0 S)) =
  Some (Z.of_nat B + 2 * Z.of_nat S - 1).
Proof.
  intros HB. apply max_list_is_max. split.
  - apply in_or_app. destruct S as [|S].
    + left. apply in_beam_columns. exists (B - 1)%nat. split; lia.
    + right. apply in_flat_map. exists S. split; [apply in_seq; lia|].
      right. left. lia.
  - intros x Hx. apply in_app_or in Hx as [Hx|Hx].
    + apply in_beam_columns in Hx as (b & Hb & ->). lia.
    + apply in_flat_map in Hx as (i & Hi & Hx). apply in_seq in Hi.
      destruct Hx as [<-|[<-|[]]]; lia.
Qed.

(** Shape of any completed assembly of a truss with at least one beam: an
    even number of rows, and a column per beam and two per supported
    joint. *)
Lemma completed_shape (st st' : State F) (a : coo F) sol :
  beams st <> [] ->
  assemble st = (Ok (a, sol), st') ->
  exists k, shape a = Some (2 * k, Z.of_nat (length (beams st)) +
                                   2 * Z.of_nat (length (supported (joints st)))).
Proof.
  intros Hne Ha.
  destruct (@assemble_rows_inv st st' a sol Ha) as (ks & Hks).
  destruct (@assemble_ok_inv F SF st st' a sol Hne Ha) as (es & Hes & E).
  assert (Hc : max_list (col a) =
               Some (Z.of_nat (length (beams st)) +
                     2 * Z.of_nat (length (supported (joints st))) - 1)).
  { rewrite E. cbn [col of_entries]. rewrite map_app, Hes.
    rewrite reaction_part_reactions, reactions_columns.
    apply max_all_columns. destruct (beams st); [congruence | cbn; lia]. }
  assert (Hr : exists m, max_list (row a) = Some m).
  { destruct (max_list (row a)) as [m|] eqn:Hm; [now exists m|].
    apply max_list_none in Hm. rewrite E in Hm. cbn [row of_entries] in Hm.
    apply (f_equal (@length Z)) in Hm. rewrite length_map, length_app in Hm.
    assert (Hl : length es = length (map (fun e : Z * Z * F => snd (fst e)) es))
      by (now rewrite length_map).
    rewrite Hes in Hl. destruct (beams st) as [|bm bs]; [congruence|].
    cbn in Hl, Hm. lia. }
  destruct Hr as (m & Hm).
  pose proof Hm as Hm'. rewrite Hks in Hm'. apply max_row_pairs in Hm' as (k & ->).
  exists k. unfold shape. rewrite Hm, Hc. f_equal. f_equal; lia.
Qed.

(** X3.  A truss with an odd number of beams is never solved: every call of
    [calculate_force] raises, and when the assembly itself goes through the
    exception is the RuntimeError of the determinacy check. *)
Theorem odd_beams_never_solved (st : State F) :
  Nat.odd (length (beams st)) = true ->
  (exists e, calculate_force spsolve st = (Raise e, st)) /\
  (forall sys st', assemble st = (Ok sys, st') ->
     calculate_force spsolve st = (Raise (RuntimeError msg_not_suitable), st)).
Proof.
  intros Hodd.
  assert (Hne : beams st <> []) by (destruct (beams st); [discriminate Hodd | discriminate]).
  assert (Hmain : forall sys st', assemble st = (Ok sys, st') ->
            calculate_force spsolve st = (Raise (RuntimeError msg_not_suitable), st)).
  { intros [a sol] st' Ha. pose proof (assemble_ok_state _ Ha) as ->.
    destruct (@completed_shape st st a sol Hne Ha) as (k & Hs).
    unfold calculate_force. erewrite bind_ok by exact Ha.
    eapply check_mismatch; [exact Hs|].
    apply Nat.odd_spec in Hodd as (h & Hh). rewrite Hh. lia. }
  split; [|exact Hmain].
  destruct (assemble st) as [[sys|e] st0] eqn:Ha.
  - eexists. eapply Hmain. reflexivity.
  - pose proof (assemble_ok_state _ Ha) as ->. exists e.
    unfold calculate_force. erewrite bind_raise by exact Ha. reflexivity.
Qed.

(** X4.  One force per beam: when the system is square and the solver returns a
    vector with an entry per column, [calculate_force] returns exactly as
    many forces as the truss has beams: the leading entries of that
    vector. *)
Theorem one_force_per_beam (st st' : State F) (a : coo F) (sol : list F)
    (A : csr F) (f : list F) :
  beams st <> [] ->
  assemble st = (Ok (a, sol), st') ->
  system_matrix a = Some A ->
  nrows A = ncols A ->
  Z.of_nat (length sol) = nrows A ->
  spsolve A sol = Solved f ->
  Z.of_nat (length f) = ncols A ->
  exists bf st2,
    calculate_force spsolve st = (Ok bf, st2) /\
    length bf = length (beams st) /\
    forall i, (i < length (beams st))%nat -> nth_error bf i = nth_error f i.
Proof.
  intros Hne Ha Hm Hsq Hlen Hs Hf.
  pose proof (assemble_ok_state _ Ha) as ->.
  destruct (@completed_shape st st a sol Hne Ha) as (k & Hshape).
  apply system_matrix_some in Hm as Hm'. destruct Hm' as (Hs' & _ & _).
  rewrite Hshape in Hs'.
  assert (Hc : Z.of_nat (length (beams st)) +
               2 * Z.of_nat (length (supported (joints st))) = ncols A).
  { apply (f_equal (fun o => match o with Some p => snd p | None => 0 end)) in Hs'.
    exact Hs'. }
  exists (firstn (length (beams st)) f),
         (mkState (joints st) (beams st) true (stdout st) (solves st ++ [(A, sol)])).
  split.
  - unfold calculate_force. erewrite bind_ok by exact Ha.
    rewrite check_square with (A := A); [| exact Hm | exact Hsq].
    unfold try_except.
    erewrite bind_ok by (apply call_spsolve_solved; eassumption).
    reflexivity.
  - split.
    + apply firstn_length_le. lia.
    + intros i Hi. rewrite nth_error_firstn.
      apply Nat.ltb_lt in Hi. now rewrite Hi.
Qed.

End Parity.

(** ** The right-hand side *)

Section RightHandSide.

Context {F : Type} {SF : Scalar F}.

Lemma set_nth_at_length {A} (pre : list A) x t v :
  set_nth (pre ++ x :: t) (length pre) v = pre ++ v :: t.
Proof. induction pre as [|y pre IH]; cbn; [reflexivity | now rewrite IH]. Qed.

(** The assignment [sol[jnum*2-2] = v] of joint number [j + 1]. *)
Lemma load_x_run (st : State F) (id : F) (j : nat) (sol : list F) (v : F) :
  int_of id = Some (Z.of_nat j + 1) ->
  (2 * j < length sol)%nat ->
  (jnum <- py_int id ;; setitem sol (jnum * 2 - 2) v) st =
  (Ok (set_nth sol (2 * j) v), st).
Proof.
  intros Hid Hj. erewrite bind_ok by (apply py_int_run; exact Hid).
  rewrite setitem_run by lia. do 3 f_equal. lia.
Qed.

Lemma load_y_run (st : State F) (id : F) (j : nat) (sol : list F) (v : F) :
  int_of id = Some (Z.of_nat j + 1) ->
  (2 * j + 1 < length sol)%nat ->
  (jnum <- py_int id ;; setitem sol (jnum * 2 - 1) v) st =
  (Ok (set_nth sol (2 * j + 1) v), st).
Proof.
  intros Hid Hj. erewrite bind_ok by (apply py_int_run; exact Hid).
  rewrite setitem_run by lia. do 3 f_equal. lia.
Qed.

Lemma length_sol_step js j (sol : list F) : length (sol_step js j sol) = length sol.
Proof.
  unfold sol_step. repeat match goal with |- context [if ?c then _ else _] => destruct c end;
    now rewrite ?length_set_nth.
Qed.

(** One joint, exactly. *)
Lemma joint_body_exact (st : State F) j (a : coo F) sol c :
  let jt := nth j (joints st) joint0 in
  (j < length (joints st))%nat ->
  ids_ok (joints st) = true ->
  length sol = (length (joints st) * 2)%nat ->
  max_list (col a) = Some (c - 1) ->
  joint_body j (a, sol) st =
  (Ok (if is_supported jt
       then coo_app a [(id_of jt * 2 - 2, c, f1); (id_of jt * 2 - 1, c + 1, f1)]
       else a, sol_step (joints st) j sol), st).
Proof.
  intros jt Hj Hids Hlen Hmax.
  pose proof (ids_ok_nth _ Hids Hj) as Hid. fold jt in Hid.
  unfold joint_body, sol_step. cbn [fst snd]. fold jt.
  erewrite bind_ok by reflexivity.
  erewrite bind_ok by (apply getitem_nat with (d := joint0); exact Hj).
  fold jt.
  set (s1 := if negb (feqb (jfx jt) f0) then set_nth sol (2 * j) (fneg (jfx jt)) else sol).
  assert (Hl1 : length s1 = length sol)
    by (unfold s1; destruct (negb _); now rewrite ?length_set_nth).
  erewrite bind_ok with (a := s1).
  2:{ unfold s1. destruct (negb (feqb (jfx jt) f0)); [|reflexivity].
      apply load_x_run; [exact Hid | lia]. }
  set (s2 := if negb (feqb (jfy jt) f0) then set_nth s1 (2 * j + 1) (fneg (jfy jt)) else s1).
  erewrite bind_ok with (a := s2).
  2:{ unfold s2. destruct (negb (feqb (jfy jt) f0)); [|reflexivity].
      apply load_y_run; [exact Hid | lia]. }
  unfold is_supported. destruct (feqb (jsup jt) f1); [|reflexivity].
  erewrite bind_ok by (apply py_int_run; exact Hid).
  erewrite bind_ok by (apply py_max_run; exact Hmax).
  erewrite bind_ok by (apply py_max_run, max_list_snoc; exact Hmax).
  rewrite (id_of_some _ Hid).
  unfold ret, coo_app, of_entries. cbn [map fst snd row col data].
  rewrite <- !app_assoc. cbn [app].
  replace (c - 1 + 1) with c by lia.
  replace (Z.max (c - 1) c + 1) with (c + 1) by lia.
  reflexivity.
Qed.

Lemma joint_loop_exact (st : State F) B :
  ids_ok (joints st) = true ->
  forall l (a : coo F) sol s,
    (forall j, In j l -> (j < length (joints st))%nat) ->
    length sol = (length (joints st) * 2)%nat ->
    max_list (col a) = Some (B + 2 * Z.of_nat s - 1) ->
    for_each joint_body l (a, sol) st =
    (Ok (coo_app a (reactions B s (supported (map (fun j => nth j (joints st) joint0) l))),
         fold_left (fun acc j => sol_step (joints st) j acc) l sol), st).
Proof.
  intros Hids. induction l as [|j l IH]; intros a sol s Hl Hlen Hmax.
  - cbn [for_each map supported filter reactions fold_left]. now rewrite coo_app_nil.
  - cbn [for_each map fold_left]. rewrite supported_cons.
    erewrite bind_ok
      by (apply joint_body_exact with (c := B + 2 * Z.of_nat s);
          [apply Hl; now left | exact Hids | exact Hlen | exact Hmax]).
    destruct (is_supported (nth j (joints st) joint0)).
    + rewrite IH with (s := S s).
      * cbn [reactions]. rewrite coo_app_app. reflexivity.
      * intros i Hi. apply Hl. now right.
      * now rewrite length_sol_step.
      * rewrite col_coo_app. cbn [map fst snd].
        change [B + 2 * Z.of_nat s; B + 2 * Z.of_nat s + 1]
          with ([B + 2 * Z.of_nat s] ++ [B + 2 * Z.of_nat s + 1]).
        rewrite app_assoc.
        rewrite (@max_list_snoc _ _ (B + 2 * Z.of_nat s + 1)
                   (@max_list_snoc _ _ (B + 2 * Z.of_nat s) Hmax)). f_equal. lia.
    + apply IH; [intros i Hi; apply Hl; now right | now rewrite length_sol_step | exact Hmax].
Qed.

Lemma sol_step_front (js : list (Joint F)) k (pre rest : list F) :
  length pre = (2 * k)%nat ->
  sol_step js k (pre ++ f0 :: f0 :: rest) =
  pre ++ rhs_entry (jfx (nth k js joint0)) :: rhs_entry (jfy (nth k js joint0)) :: rest.
Proof.
  intros H. unfold sol_step, rhs_entry. rewrite <- H.
  assert (A1 : forall v, set_nth (pre ++ f0 :: f0 :: rest) (length pre) v =
                         pre ++ v :: f0 :: rest)
    by (intros; apply set_nth_at_length).
  assert (A2 : forall x v, set_nth (pre ++ x :: f0 :: rest) (length pre + 1) v =
                           pre ++ x :: v :: rest).
  { intros x v.
    replace (length pre + 1)%nat with (length (pre ++ [x]))
      by (rewrite length_app; reflexivity).
    replace (pre ++ x :: f0 :: rest) with ((pre ++ [x]) ++ f0 :: rest)
      by (now rewrite <- app_assoc).
    rewrite set_nth_at_length, <- app_assoc. reflexivity. }
  destruct (feqb (jfx (nth k js joint0)) f0), (feqb (jfy (nth k js joint0)) f0);
    cbn [negb]; rewrite ?A1, ?A2; reflexivity.
Qed.

(** The loop fills the right-hand side two entries at a time, from the
    front. *)
Lemma fold_sol_step (js : list (Joint F)) : forall m k (pre : list F),
  length pre = (2 * k)%nat ->
  fold_left (fun acc j => sol_step js j acc) (seq k m) (pre ++ repeat f0 (2 * m)) =
  pre ++ flat_map (fun j => [rhs_entry (jfx (nth j js joint0));
                             rhs_entry (jfy (nth j js joint0))]) (seq k m).
Proof.
  induction m as [|m IH]; intros k pre Hpre.
  - reflexivity.
  - cbn [seq fold_left flat_map].
    replace (2 * S m)%nat with (S (S (2 * m))) by lia. cbn [repeat].
    rewrite sol_step_front by exact Hpre.
    change (pre ++ rhs_entry (jfx (nth k js joint0))
                :: rhs_entry (jfy (nth k js joint0)) :: repeat f0 (2 * m))
      with (pre ++ [rhs_entry (jfx (nth k js joint0));
                    rhs_entry (jfy (nth k js joint0))] ++ repeat f0 (2 * m)).
    rewrite app_assoc, IH.
    + rewrite <- app_assoc. reflexivity.
    + rewrite length_app, Hpre. cbn. lia.
Qed.

Lemma rhs_by_index (js : list (Joint F)) :
  flat_map (fun j => [rhs_entry (jfx (nth j js joint0));
                      rhs_entry (jfy (nth j js joint0))]) (seq 0 (length js)) = rhs js.
Proof.
  assert (E : forall l,
             flat_map (fun j => [rhs_entry (jfx (nth j js joint0));
                                 rhs_entry (jfy (nth j js joint0))]) l =
             rhs (map (fun j => nth j js joint0) l)).
  { induction l as [|j l IH]; [reflexivity|].
    unfold rhs in *. cbn [flat_map map app]. now rewrite IH. }
  rewrite E, map_nth_seq. reflexivity.
Qed.

(** The assembly of a well-formed geometry, lists and right-hand side. *)
Lemma assemble_exact (st : State F) :
  well_formed st = true ->
  beams st <> [] ->
  assemble st =
  (Ok (of_entries (beam_part st ++ reaction_part st), rhs (joints st)), st).
Proof.
  intros Hwf Hne. destruct (well_formed_parts st Hwf) as [Hids Hbeams].
  unfold assemble, for_range.
  erewrite bind_ok by reflexivity.
  erewrite bind_ok.
  2:{ apply beam_loop_run; [exact Hids|]. intros b Hb. apply in_seq in Hb.
      split; [lia | apply Hbeams; lia]. }
  fold (beam_part st). rewrite coo_app_empty.
  erewrite bind_ok by reflexivity.
  rewrite joint_loop_exact with (B := Z.of_nat (length (beams st))) (s := 0%nat).
  - rewrite map_nth_seq, <- reaction_part_reactions.
    rewrite <- coo_app_empty, coo_app_app, coo_app_empty.
    replace (length (joints st) * 2)%nat with (2 * length (joints st))%nat by lia.
    pose proof (@fold_sol_step (joints st) (length (joints st)) 0%nat [] eq_refl) as Hf.
    cbn [app] in Hf. rewrite Hf, rhs_by_index. reflexivity.
  - exact Hids.
  - intros j Hj. apply in_seq in Hj. lia.
  - apply repeat_length.
  - rewrite max_beam_columns by exact Hne. f_equal. lia.
Qed.

(** X5.  The right-hand side that a well-formed geometry hands to the solver
    has two entries per joint, in joint order: at [2i] the x-load of the
    joint at position [i] negated, at [2i + 1] its y-load negated, and the
    0 the list was filled with where the load compares equal to 0. *)
Theorem right_hand_side (st : State F) :
  well_formed st = true ->
  beams st <> [] ->
  exists a sol,
    assemble st = (Ok (a, sol), st) /\
    length sol = (2 * length (joints st))%nat /\
    (forall i j, nth_error (joints st) i = Some j ->
       nth_error sol (2 * i) = Some (rhs_entry (jfx j)) /\
       nth_error sol (2 * i + 1) = Some (rhs_entry (jfy j))).
Proof.
  intros Hwf Hne. pose proof (assemble_exact st Hwf Hne) as Ha.
  exists (of_entries (beam_part st ++ reaction_part st)), (rhs (joints st)).
  split; [exact Ha|]. unfold rhs. clear Ha.
  split.
  - generalize (joints st) as js. induction js as [|j0 js IH]; [reflexivity|].
    cbn [flat_map app length]. rewrite IH. lia.
  - generalize (joints st) as js. induction js as [|j0 js IH]; intros i j Hi.
    + destruct i; discriminate.
    + destruct i as [|i]; cbn [nth_error] in Hi.
      * injection Hi as ->. split; reflexivity.
      * cbn [flat_map app].
        replace (2 * S i)%nat with (S (S (2 * i))) by lia.
        replace (S (S (2 * i)) + 1)%nat with (S (S (2 * i + 1))) by lia.
        cbn [nth_error]. apply IH. exact Hi.
Qed.

End RightHandSide.

(** ** Flagged operations and the warnings filter *)

Section Flagged.

Context {F : Type} {SF : Scalar F}.
Variable spsolve : csr F -> list F -> solver_outcome F.

Lemma flagged_raise (v : F) (st : State F) :
  warn_error st = true -> flagged true v st = (Raise RuntimeWarning, st).
Proof. intros H. rewrite flagged_run, H. reflexivity. Qed.

Lemma flagged_pass (v : F) (st : State F) : flagged false v st = (Ok v, st).
Proof. reflexivity. Qed.

(** One end of a beam, some operation flagged, the filter on 'error'. *)
Lemma end_run_flagged {A} (p q : Joint F) (k : F -> F -> M F A) (st : State F) :
  pair_warns p q = true ->
  warn_error st = true ->
  (dx <- f_sub (jx p) (jx q) ;;
   dy <- f_sub (jy p) (jy q) ;;
   ux <- unit_component dx dx dy ;;
   uy <- unit_component dy dx dy ;;
   k ux uy) st = (Raise RuntimeWarning, st).
Proof.
  intros Hp Hw. unfold pair_warns in Hp. unfold f_sub.
  destruct (warns_sub (jx p) (jx q)).
  { erewrite bind_raise by (apply flagged_raise; exact Hw). reflexivity. }
  erewrite bind_ok by apply flagged_pass.
  destruct (warns_sub (jy p) (jy q)).
  { erewrite bind_raise by (apply flagged_raise; exact Hw). reflexivity. }
  erewrite bind_ok by apply flagged_pass.
  cbn [orb] in Hp.
  destruct (ucomp_warns (fsub (jx p) (jx q)) (fsub (jx p) (jx q)) (fsub (jy p) (jy q)))
    eqn:E1.
  { erewrite bind_raise by (rewrite unit_component_run, E1, Hw; reflexivity). reflexivity. }
  erewrite bind_ok by (rewrite unit_component_run, E1; reflexivity).
  cbn [orb] in Hp.
  erewrite bind_raise by (rewrite unit_component_run, Hp, Hw; reflexivity). reflexivity.
Qed.

Lemma beam_body_flagged (st : State F) b (a : coo F) :
  let bm := nth b (beams st) beam0 in
  (b < length (beams st))%nat ->
  ids_ok (joints st) = true ->
  beam_ok (length (joints st)) bm = true ->
  warn_error st = true ->
  beam_warns (joints st) bm = true ->
  beam_body b a st = (Raise RuntimeWarning, st).
Proof.
  intros bm Hb Hids Hok Hw Hf.
  apply beam_ok_range in Hok as [Ha Hbb].
  pose proof int64_min_neg as Hmin.
  unfold beam_body.
  erewrite bind_ok by reflexivity.
  erewrite bind_ok by reflexivity.
  erewrite bind_ok by (apply getitem_nat with (d := beam0); exact Hb).
  erewrite bind_ok by (apply int64_pred_run; fold bm; lia).
  erewrite bind_ok by (apply getitem_pred with (d := joint0); fold bm; lia).
  erewrite bind_ok by (apply getitem_nat with (d := beam0); exact Hb).
  erewrite bind_ok by (apply int64_pred_run; fold bm; lia).
  erewrite bind_ok by (apply getitem_pred with (d := joint0); fold bm; lia).
  fold bm. fold (joint_of (joints st) (ba bm)). fold (joint_of (joints st) (bb bm)).
  erewrite bind_ok by (apply py_int_run, ids_ok_joint_of; [exact Hids | lia]).
  erewrite bind_ok by (apply py_int_run, ids_ok_joint_of; [exact Hids | lia]).
  unfold beam_warns in Hf.
  destruct (pair_warns (joint_of (joints st) (ba bm)) (joint_of (joints st) (bb bm))) eqn:E1.
  - apply end_run_flagged; assumption.
  - rewrite end_run_quiet by (rewrite E1; reflexivity). cbv zeta.
    cbn [orb] in Hf. apply end_run_flagged; assumption.
Qed.

Lemma beam_loop_flagged (st : State F) :
  ids_ok (joints st) = true ->
  warn_error st = true ->
  forall l (a : coo F),
    (forall b, In b l ->
       (b < length (beams st))%nat /\
       beam_ok (length (joints st)) (nth b (beams st) beam0) = true) ->
    existsb (fun b => beam_warns (joints st) (nth b (beams st) beam0)) l = true ->
    for_each beam_body l a st = (Raise RuntimeWarning, st).
Proof.
  intros Hids Hw. induction l as [|b l IH]; intros a Hl Hex; [discriminate|].
  cbn [for_each existsb] in *.
  destruct (Hl b (or_introl eq_refl)) as [Hb Hok].
  destruct (beam_warns (joints st) (nth b (beams st) beam0)) eqn:E.
  - erewrite bind_raise by (apply beam_body_flagged; assumption). reflexivity.
  - erewrite bind_ok
      by (apply beam_body_run; [exact Hb | exact Hids | exact Hok | rewrite E; reflexivity]).
    apply IH; [intros; apply Hl; now right | exact Hex].
Qed.

Lemma existsb_by_index {A} (p : A -> bool) (l : list A) d :
  existsb p l = existsb (fun i => p (nth i l d)) (seq 0 (length l)).
Proof.
  rewrite <- (map_nth_seq l d) at 1.
  induction (seq 0 (length l)) as [|i t IH]; [reflexivity|].
  cbn [map existsb]. now rewrite IH.
Qed.

Lemma not_all_exists {A} (p : A -> bool) (l : list A) :
  forallb (fun x => negb (p x)) l = false -> existsb p l = true.
Proof.
  induction l as [|x l IH]; [discriminate|].
  cbn [forallb existsb]. destruct (p x); [reflexivity|]. exact IH.
Qed.

Lemma tables_ok_parts (st : State F) :
  tables_ok st = true ->
  ids_ok (joints st) = true /\
  forall b, (b < length (beams st))%nat ->
            beam_ok (length (joints st)) (nth b (beams st) beam0) = true.
Proof.
  unfold tables_ok. rewrite andb_true_iff. intros [Hids Hok].
  split; [exact Hids|]. intros b Hb.
  rewrite forallb_forall in Hok. apply Hok, nth_In, Hb.
Qed.

(** X6.  Once the warnings filter is 'error' (that is, after any call that
    reached the solver), a flagged float operation, such as the division
    for a beam of length zero, stops [calculate_force] with the
    RuntimeWarning; nothing is solved or printed. *)
Theorem flagged_operation_raises (st : State F) :
  tables_ok st = true ->
  warn_error st = true ->
  unflagged st = false ->
  calculate_force spsolve st = (Raise RuntimeWarning, st).
Proof.
  intros Ht Hw Hu. destruct (tables_ok_parts st Ht) as [Hids Hok].
  assert (Hex : existsb (fun b => beam_warns (joints st) (nth b (beams st) beam0))
                        (seq 0 (length (beams st))) = true).
  { rewrite <- (existsb_by_index (beam_warns (joints st)) (beams st) beam0).
    apply not_all_exists. exact Hu. }
  unfold calculate_force, assemble, for_range.
  erewrite bind_raise; [reflexivity|].
  erewrite bind_ok by reflexivity.
  erewrite bind_raise; [reflexivity|].
  apply beam_loop_flagged; [exact Hids | exact Hw | | exact Hex].
  intros b Hb. apply in_seq in Hb. split; [lia | apply Hok; lia].
Qed.

Lemma call_spsolve_value A b (st st' : State F) :
  warn_error st = warn_error st' ->
  fst (call_spsolve spsolve A b st) = fst (call_spsolve spsolve A b st').
Proof.
  intros Hw. unfold call_spsolve.
  erewrite !bind_ok by reflexivity.
  destruct (negb (nrows A =? ncols A)); [reflexivity|].
  destruct (negb (nrows A =? Z.of_nat (length b))); [reflexivity|].
  destruct (spsolve A b) as [f|f|e]; try reflexivity.
  unfold bind, warn. cbn [warn_error]. rewrite Hw.
  destruct (warn_error st'); reflexivity.
Qed.

Lemma check_and_solve_unfold (sys : coo F * list F) (st : State F) :
  check_and_solve spsolve sys st =
  match precheck (fst sys) with
  | Raise e => (Raise e, st)
  | Ok A =>
      try_except
        (force <- call_spsolve spsolve A (snd sys) ;;
         bs <- get_beams ;;
         ret (firstn (length bs) force))
        (print msg_cannot_solve ;;; ret [])
        (mkState (joints st) (beams st) true (stdout st) (solves st))
  end.
Proof.
  destruct sys as [a sol]. unfold check_and_solve, precheck, nonneg. cbn [fst snd].
  unfold bind at 1. unfold py_max at 1.
  destruct (max_list (row a)) as [mr|]; [|reflexivity].
  unfold ret at 1. unfold bind at 1. unfold py_max at 1.
  destruct (max_list (col a)) as [mc|]; [|reflexivity].
  unfold ret at 1.
  destruct ((mr >? mc) || (mr <? mc)); [reflexivity|].
  unfold bind at 1. unfold csr_matrix.
  destruct (forallb _ (row a) && forallb _ (col a)); reflexivity.
Qed.

(** What the check and the solve return depends on the state only through
    the number of beams. *)
Lemma check_and_solve_value sys (st st' : State F) :
  length (beams st) = length (beams st') ->
  fst (check_and_solve spsolve sys st) = fst (check_and_solve spsolve sys st').
Proof.
  intros Hlen. rewrite !check_and_solve_unfold.
  destruct (precheck (fst sys)) as [A|e]; [|reflexivity].
  unfold try_except.
  set (s1 := mkState (joints st) (beams st) true (stdout st) (solves st)).
  set (s1' := mkState (joints st') (beams st') true (stdout st') (solves st')).
  pose proof (call_spsolve_value A (snd sys) s1 s1' eq_refl) as Hv.
  pose proof (call_spsolve_state spsolve A (snd sys) s1) as Hs.
  pose proof (call_spsolve_state spsolve A (snd sys) s1') as Hs'.
  unfold bind.
  destruct (call_spsolve spsolve A (snd sys) s1) as [r s2].
  destruct (call_spsolve spsolve A (snd sys) s1') as [r' s2'].
  cbn [fst snd] in *. subst r' s2 s2'.
  destruct r as [f|e]; cbn; [|reflexivity].
  now rewrite Hlen.
Qed.

(** X7.  Asking twice gives the same answer: on well-formed tables with at
    least one beam and no flagged float operation, the call that follows a
    call of [calculate_force] returns the same sequence, or raises the same
    exception. *)
Theorem second_call_agrees (st : State F) :
  tables_ok st = true ->
  unflagged st = true ->
  beams st <> [] ->
  fst (calculate_force spsolve (snd (calculate_force spsolve st))) =
  fst (calculate_force spsolve st).
Proof.
  intros Ht Hu Hne.
  destruct (keeps_calculate_force spsolve st) as [Hj Hb].
  set (st1 := snd (calculate_force spsolve st)) in *.
  assert (Hwf : well_formed st = true).
  { unfold well_formed, quiet. unfold tables_ok in Ht. unfold unflagged in Hu.
    rewrite Ht, Hu. now rewrite orb_true_r. }
  assert (Hwf1 : well_formed st1 = true).
  { unfold well_formed, quiet. unfold tables_ok in Ht. unfold unflagged in Hu.
    rewrite Hj, Hb, Ht, Hu. now rewrite orb_true_r. }
  pose proof (assemble_exact st Hwf Hne) as Ha.
  assert (Hne1 : beams st1 <> []) by (rewrite Hb; exact Hne).
  pose proof (assemble_exact st1 Hwf1 Hne1) as Ha1.
  assert (E : (of_entries (beam_part st1 ++ reaction_part st1), rhs (joints st1)) =
              (of_entries (beam_part st ++ reaction_part st), rhs (joints st))).
  { unfold beam_part, reaction_part. now rewrite Hj, Hb. }
  rewrite E in Ha1.
  unfold calculate_force.
  erewrite bind_ok by exact Ha1. erewrite bind_ok by exact Ha.
  apply check_and_solve_value. now rewrite Hb.
Qed.

End Flagged.

(** ** Joint indices that wrap around *)

Section WrapAround.

Context {F : Type} {SF : Scalar F}.
Variable spsolve : csr F -> list F -> solver_outcome F.

Lemma getitem_reach {A} (l : list A) (k : Z) (d : A) (st : State F) :
  1 - Z.of_nat (length l) <= k <= Z.of_nat (length l) ->
  getitem l (k - 1) st =
  (Ok (nth (Z.to_nat (resolve (length l) k - 1)) l d), st).
Proof.
  intros H. unfold resolve. destruct (Z.leb_spec k 0) as [Hk|Hk].
  - unfold getitem, wrap_index.
    replace (k - 1 <? 0) with true by (symmetry; apply Z.ltb_lt; lia).
    replace ((0 <=? k - 1 + Z.of_nat (length l)) &&
             (k - 1 + Z.of_nat (length l) <? Z.of_nat (length l))) with true
      by (symmetry; apply andb_true_iff; rewrite Z.leb_le, Z.ltb_lt; lia).
    rewrite (@nth_error_nth' _ l (Z.to_nat (k - 1 + Z.of_nat (length l))) d) by lia.
    replace (k + Z.of_nat (length l) - 1) with (k - 1 + Z.of_nat (length l)) by lia.
    reflexivity.
  - apply getitem_pred. lia.
Qed.

Lemma flat_map_ext_on {A B} (f g : A -> list B) (l : list A) :
  (forall x, In x l -> f x = g x) -> flat_map f l = flat_map g l.
Proof.
  induction l as [|x l IH]; intros H; [reflexivity|].
  cbn [flat_map]. rewrite (H x (or_introl eq_refl)), IH; [reflexivity|].
  intros y Hy. apply H. now right.
Qed.

Lemma beam_reachable_range n bm :
  beam_reachable n bm = true ->
  (1 - Z.of_nat n <= ba bm <= Z.of_nat n /\ int64_min < ba bm) /\
  (1 - Z.of_nat n <= bb bm <= Z.of_nat n /\ int64_min < bb bm).
Proof.
  unfold beam_reachable. rewrite !andb_true_iff, !Z.leb_le, !Z.ltb_lt. lia.
Qed.

Lemma resolve_range n k :
  1 - Z.of_nat n <= k <= Z.of_nat n -> 1 <= resolve n k <= Z.of_nat n.
Proof. unfold resolve. destruct (Z.leb_spec k 0); lia. Qed.

Lemma resolve_beam_ok n bm :
  beam_reachable n bm = true -> beam_ok n (resolve_beam n bm) = true.
Proof.
  intros H. apply beam_reachable_range in H as [[Ha _] [Hb _]].
  apply resolve_range in Ha, Hb.
  unfold beam_ok, resolve_beam. cbn [ba bb].
  rewrite !andb_true_iff, !Z.leb_le. lia.
Qed.

(** A beam whose ends numpy accepts, assembled: as the beam with its ends
    resolved. *)
Lemma beam_body_reach (st : State F) b (a : coo F) :
  let bm := nth b (beams st) beam0 in
  let rb := resolve_beam (length (joints st)) bm in
  (b < length (beams st))%nat ->
  ids_ok (joints st) = true ->
  beam_reachable (length (joints st)) bm = true ->
  beam_warns (joints st) rb && warn_error st = false ->
  beam_body b a st = (Ok (coo_app a (beam_entries (joints st) b rb)), st).
Proof.
  intros bm rb Hb Hids Hok Hq.
  apply beam_reachable_range in Hok as [[Ha Hma] [Hbb Hmb]].
  pose proof (@resolve_range _ _ Ha) as Ra. pose proof (@resolve_range _ _ Hbb) as Rb.
  assert (Hq1 : pair_warns (joint_of (joints st) (ba rb)) (joint_of (joints st) (bb rb))
                && warn_error st = false).
  { unfold beam_warns in Hq. destruct (warn_error st); [|apply andb_false_r].
    rewrite andb_true_r in *. now apply orb_false_elim in Hq. }
  assert (Hq2 : pair_warns (joint_of (joints st) (bb rb)) (joint_of (joints st) (ba rb))
                && warn_error st = false).
  { unfold beam_warns in Hq. destruct (warn_error st); [|apply andb_false_r].
    rewrite andb_true_r in *. now apply orb_false_elim in Hq. }
  unfold beam_body.
  erewrite bind_ok by reflexivity.
  erewrite bind_ok by reflexivity.
  erewrite bind_ok by (apply getitem_nat with (d := beam0); exact Hb).
  erewrite bind_ok by (apply int64_pred_run; fold bm; lia).
  erewrite bind_ok by (apply getitem_reach with (d := joint0); fold bm; lia).
  erewrite bind_ok by (apply getitem_nat with (d := beam0); exact Hb).
  erewrite bind_ok by (apply int64_pred_run; fold bm; lia).
  erewrite bind_ok by (apply getitem_reach with (d := joint0); fold bm; lia).
  fold bm.
  change (nth (Z.to_nat (resolve (length (joints st)) (ba bm) - 1)) (joints st) joint0)
    with (joint_of (joints st) (ba rb)).
  change (nth (Z.to_nat (resolve (length (joints st)) (bb bm) - 1)) (joints st) joint0)
    with (joint_of (joints st) (bb rb)).
  erewrite bind_ok by (apply py_int_run, ids_ok_joint_of; [exact Hids | exact Ra]).
  erewrite bind_ok by (apply py_int_run, ids_ok_joint_of; [exact Hids | exact Rb]).
  rewrite (end_run_quiet _ _ _ _ Hq1). cbv zeta.
  rewrite (end_run_quiet _ _ _ _ Hq2). cbv zeta.
  rewrite !append3_coo_app, !coo_app_app. reflexivity.
Qed.

Lemma beam_entries_columns (js : list (Joint F)) (f : nat -> Beam) (l : list nat) :
  map (fun e : Z * Z * F => snd (fst e)) (flat_map (fun b => beam_entries js b (f b)) l) =
  flat_map (fun b => repeat (Z.of_nat b) 4) l.
Proof.
  induction l as [|b l IH]; [reflexivity|].
  cbn [flat_map]. rewrite map_app, IH. reflexivity.
Qed.

Lemma beam_loop_reach (st : State F) :
  ids_ok (joints st) = true ->
  forall l (a : coo F),
    (forall b, In b l ->
       (b < length (beams st))%nat /\
       beam_reachable (length (joints st)) (nth b (beams st) beam0) = true /\
       beam_warns (joints st) (resolve_beam (length (joints st)) (nth b (beams st) beam0))
         && warn_error st = false) ->
    for_each beam_body l a st =
    (Ok (coo_app a (flat_map (fun b => beam_entries (joints st) b
                                (resolve_beam (length (joints st)) (nth b (beams st) beam0))) l)),
     st).
Proof.
  intros Hids. induction l as [|b l IH]; intros a Hl.
  - cbn. now rewrite coo_app_nil.
  - cbn [for_each flat_map].
    destruct (Hl b (or_introl eq_refl)) as (Hb & Hok & Hq).
    erewrite bind_ok by (apply beam_body_reach; assumption).
    rewrite IH by (intros; apply Hl; now right).
    now rewrite coo_app_app.
Qed.

(** X8.  numpy counts a joint index of 0 or below from the end of the table, so
    a beam naming joint 0, or a negative index down to 1 - N, is not
    refused: the assembly builds exactly the system of the truss in which
    each such index is replaced by the joint it reaches, and
    [calculate_force] returns or raises the same. *)
Theorem index_wraps_around (st : State F) :
  let N := length (joints st) in
  let st2 := with_beams st (map (resolve_beam N) (beams st)) in
  ids_ok (joints st) = true ->
  forallb (beam_reachable N) (beams st) = true ->
  beams st <> [] ->
  quiet st2 = true ->
  (exists sys, assemble st = (Ok sys, st) /\ assemble st2 = (Ok sys, st2)) /\
  fst (calculate_force spsolve st) = fst (calculate_force spsolve st2).
Proof.
  intros N st2 Hids Hreach Hne Hq.
  rewrite forallb_forall in Hreach.
  assert (Hwf2 : well_formed st2 = true).
  { unfold well_formed. rewrite Hq, andb_true_r.
    apply andb_true_iff. split; [exact Hids|].
    cbn [st2 with_beams joints beams]. apply forallb_forall.
    intros bm Hbm. apply in_map_iff in Hbm as (bm0 & <- & Hbm0).
    apply resolve_beam_ok, Hreach, Hbm0. }
  assert (Hne2 : beams st2 <> []).
  { cbn [st2 with_beams beams]. destruct (beams st); [congruence | discriminate]. }
  pose proof (assemble_exact st2 Hwf2 Hne2) as Ha2.
  assert (Hpart : beam_part st2 =
                  flat_map (fun b => beam_entries (joints st) b
                              (resolve_beam N (nth b (beams st) beam0)))
                           (seq 0 (length (beams st)))).
  { unfold beam_part. cbn [st2 with_beams joints beams]. rewrite length_map.
    apply flat_map_ext_on. intros b Hb. apply in_seq in Hb. f_equal.
    rewrite (nth_indep _ beam0 (resolve_beam N beam0)) by (rewrite length_map; lia).
    apply map_nth. }
  assert (Hreact : reaction_part st2 = reaction_part st).
  { unfold reaction_part. cbn [st2 with_beams joints beams]. now rewrite length_map. }
  assert (Ha : assemble st =
               (Ok (of_entries (beam_part st2 ++ reaction_part st2), rhs (joints st)), st)).
  { unfold assemble, for_range.
    erewrite bind_ok by reflexivity.
    erewrite bind_ok.
    2:{ apply beam_loop_reach; [exact Hids|]. intros b Hb. apply in_seq in Hb.
        split; [lia|]. split; [apply Hreach, nth_In; lia|].
        unfold quiet in Hq. cbn [st2 with_beams warn_error beams joints] in Hq.
        destruct (warn_error st); [|apply andb_false_r].
        cbn [negb orb] in Hq. rewrite forallb_forall in Hq.
        rewrite andb_true_r. apply negb_true_iff, Hq.
        apply in_map, nth_In. lia. }
    fold N. rewrite <- Hpart, coo_app_empty.
    erewrite bind_ok by reflexivity.
    rewrite joint_loop_exact with (B := Z.of_nat (length (beams st))) (s := 0%nat).
    - rewrite map_nth_seq, <- reaction_part_reactions, <- Hreact.
      rewrite <- coo_app_empty, coo_app_app, coo_app_empty.
      replace (length (joints st) * 2)%nat with (2 * length (joints st))%nat by lia.
      pose proof (@fold_sol_step F SF (joints st) (length (joints st)) 0%nat [] eq_refl) as Hf.
      cbn [app] in Hf. rewrite Hf, rhs_by_index. reflexivity.
    - exact Hids.
    - intros j Hj. apply in_seq in Hj. lia.
    - apply repeat_length.
    - rewrite Hpart. cbn [col of_entries].
      assert (Hcols : map (fun e : Z * Z * F => snd (fst e))
                (flat_map (fun b => beam_entries (joints st) b
                             (resolve_beam N (nth b (beams st) beam0)))
                          (seq 0 (length (beams st)))) =
              flat_map (fun b => repeat (Z.of_nat b) 4) (seq 0 (length (beams st)))).
      { apply beam_entries_columns. }
      rewrite Hcols, max_beam_columns_seq.
      + f_equal. lia.
      + destruct (beams st); [congruence | discriminate]. }
  split.
  - eexists. split; [exact Ha | exact Ha2].
  - unfold calculate_force.
    erewrite bind_ok by exact Ha. erewrite bind_ok by exact Ha2.
    apply check_and_solve_value. cbn [st2 with_beams beams]. now rewrite length_map.
Qed.

End WrapAround.

(** * [__repr__] *)

Section Report.

Context {F : Type} {SF : Scalar F}.
Variable spsolve : csr F -> list F -> solver_outcome F.
Variable fmt3 : F -> string.

Lemma str_app_assoc (s1 s2 s3 : string) :
  ((s1 ++ s2) ++ s3)%string = (s1 ++ s2 ++ s3)%string.
Proof. induction s1 as [|c s1 IH]; cbn; [reflexivity | now rewrite IH]. Qed.

Lemma str_app_nil (s : string) : (s ++ "")%string = s.
Proof. induction s as [|c s IH]; cbn; [reflexivity | now rewrite IH]. Qed.

Lemma str_length_app (s1 s2 : string) :
  String.length (s1 ++ s2) = (String.length s1 + String.length s2)%nat.
Proof. induction s1 as [|c s1 IH]; cbn; [reflexivity | now rewrite IH]. Qed.

Lemma length_spaces n : String.length (spaces n) = n.
Proof. induction n as [|n IH]; cbn; [reflexivity | now rewrite IH]. Qed.

Lemma getitem_middle {A} (pre : list A) x rest (st : State F) :
  getitem (pre ++ x :: rest) (Z.of_nat (length pre)) st = (Ok x, st).
Proof.
  rewrite getitem_nat with (d := x) by (rewrite length_app; cbn; lia).
  now rewrite nth_middle.
Qed.

Lemma repr_body_run (pre : list F) x rest out (st : State F) :
  nonempty (fmt3 x) = true ->
  repr_body fmt3 (pre ++ x :: rest) (length pre) out st =
  (Ok (out ++ repr_line (length pre) (fmt3 x))%string, st).
Proof.
  intros Hne. unfold repr_body.
  erewrite bind_ok by apply getitem_middle.
  unfold repr_line. destruct (fmt3 x) as [|c f]; [discriminate|].
  erewrite bind_ok by reflexivity. reflexivity.
Qed.

Lemma repr_loop_run (st : State F) : forall rest pre out,
  forallb (fun x => nonempty (fmt3 x)) rest = true ->
  for_each (repr_body fmt3 (pre ++ rest)) (seq (length pre) (length rest)) out st =
  (Ok (out ++ repr_lines (length pre) (map fmt3 rest))%string, st).
Proof.
  induction rest as [|x rest IH]; intros pre out Hne.
  - cbn. now rewrite str_app_nil.
  - cbn [forallb] in Hne. apply andb_true_iff in Hne as [Hx Hrest].
    cbn [length seq for_each map repr_lines].
    erewrite bind_ok by (apply repr_body_run; exact Hx).
    specialize (IH (pre ++ [x]) (out ++ repr_line (length pre) (fmt3 x))%string Hrest).
    rewrite <- app_assoc in IH. cbn [app] in IH.
    rewrite length_app in IH. cbn [length] in IH.
    replace (length pre + 1)%nat with (S (length pre)) in IH by lia.
    rewrite IH, str_app_assoc. reflexivity.
Qed.

(** X9.  [__repr__] follows [calculate_force]: an exception passes through
    uncaught; a sequence of forces is rendered as the two header lines
    followed by one line per force, numbered 1, 2, ... by position, the
    text of the force right-aligned in 12 columns, after a space when it
    has no minus sign; an empty sequence (the solver did not deliver) gives
    the empty string.  The state is left as [calculate_force] leaves it. *)
Theorem repr_follows_calculate_force (st st' : State F) (r : result (list F)) :
  calculate_force spsolve st = (r, st') ->
  (forall bf, r = Ok bf -> forallb (fun x => nonempty (fmt3 x)) bf = true) ->
  Truss_repr spsolve fmt3 st =
  (match r with
   | Ok bf => Ok (render fmt3 bf)
   | Raise e => Raise e
   end, st').
Proof.
  intros H Hne. destruct r as [bf|e].
  - specialize (Hne bf eq_refl).
    unfold Truss_repr. erewrite bind_ok by exact H.
    destruct bf as [|x bf]; [reflexivity|].
    cbn [length Nat.eqb negb]. unfold for_range, render.
    apply (repr_loop_run st' (x :: bf) [] repr_header Hne).
  - unfold Truss_repr. erewrite bind_raise by exact H. reflexivity.
Qed.

(** X10.  When the system is square and the solver does not deliver,
    [__repr__] prints the message of [calculate_force] and returns the
    empty string: no header, no line. *)
Theorem repr_of_unsolved_is_empty (st st' : State F) (a : coo F) (sol : list F)
    (A : csr F) :
  assemble st = (Ok (a, sol), st') ->
  system_matrix a = Some A ->
  nrows A = ncols A ->
  solve_fails spsolve A sol = true ->
  Truss_repr spsolve fmt3 st =
  (Ok EmptyString,
   mkState (joints st) (beams st) true
           (stdout st ++ [msg_cannot_solve]) (solves st ++ [(A, sol)])).
Proof.
  intros Ha Hm Hsq Hf.
  pose proof (assemble_ok_state _ Ha) as ->.
  assert (E : calculate_force spsolve st =
              (Ok [], mkState (joints st) (beams st) true
                              (stdout st ++ [msg_cannot_solve]) (solves st ++ [(A, sol)]))).
  { unfold calculate_force. erewrite bind_ok by exact Ha.
    rewrite check_square with (A := A); [| exact Hm | exact Hsq].
    unfold try_except.
    destruct (call_spsolve_fails spsolve A sol
                (mkState (joints st) (beams st) true (stdout st) (solves st))
                eq_refl Hf) as (e & He).
    erewrite bind_raise by exact He. reflexivity. }
  unfold Truss_repr. erewrite bind_ok by exact E. reflexivity.
Qed.

(** The lines of the table are equally wide (four spaces, the number,
    twelve columns, the line feed) as long as the text of a force has at
    most eleven characters; a longer text is not cut. *)
Lemma repr_line_width (i : nat) (f : string) :
  nonempty f = true ->
  (String.length f <= 11)%nat ->
  String.length (repr_line i f) = (4 + String.length (str_of_int (i + 1)) + 12 + 1)%nat.
Proof.
  intros Hne Hlen. destruct f as [|c f]; [discriminate|].
  unfold repr_line, rjust, signed, nl.
  rewrite !str_length_app, length_spaces.
  destruct (negb (Ascii.eqb c "-")); cbn [String.length append] in *; lia.
Qed.

End Report.

(** * [PlotGeometry] *)

Section Plot.

Context {F : Type} {SF : Scalar F}.
Variable backend : string -> option exn.

Lemma bindP_lift_ok {A B} (m : M F A) (k : A -> P F B) (st : State F) (cv : Canvas F) a :
  m st = (Ok a, st) ->
  bindP (liftP m) k (mkProcess st cv) = k a (mkProcess st cv).
Proof. intros H. unfold bindP, liftP. cbn [py plt]. now rewrite H. Qed.

Lemma bindP_lift_raise {A B} (m : M F A) (k : A -> P F B) (st : State F) (cv : Canvas F) e :
  m st = (Raise e, st) ->
  bindP (liftP m) k (mkProcess st cv) = (Raise e, mkProcess st cv).
Proof. intros H. unfold bindP, liftP. cbn [py plt]. now rewrite H. Qed.

Lemma for_eachP_app (body : nat -> P F unit) l1 l2 w :
  for_eachP body (l1 ++ l2) w =
  bindP (for_eachP body l1) (fun _ => for_eachP body l2) w.
Proof.
  revert w. induction l1 as [|i l1 IH]; intros w.
  - reflexivity.
  - cbn [app for_eachP]. unfold bindP.
    destruct (body i w) as [[u|e] w1]; [|reflexivity].
    rewrite IH. reflexivity.
Qed.

Lemma plot_body_run (st : State F) (cv : Canvas F) b :
  let bm := nth b (beams st) beam0 in
  (b < length (beams st))%nat ->
  beam_ok (length (joints st)) bm = true ->
  plot_body b (mkProcess st cv) =
  (Ok tt, mkProcess st (mkCanvas (figure cv ++ beam_drawing (joints st) bm) (files cv))).
Proof.
  intros bm Hb Hok. apply beam_ok_range in Hok as [Ha Hbb].
  pose proof int64_min_neg as Hmin.
  unfold plot_body.
  erewrite bindP_lift_ok by reflexivity.
  erewrite bindP_lift_ok by reflexivity.
  erewrite bindP_lift_ok by (apply getitem_nat with (d := beam0); exact Hb).
  erewrite bindP_lift_ok by (apply int64_pred_run; fold bm; lia).
  erewrite bindP_lift_ok by (apply getitem_pred with (d := joint0); fold bm; lia).
  erewrite bindP_lift_ok by (apply getitem_nat with (d := beam0); exact Hb).
  erewrite bindP_lift_ok by (apply int64_pred_run; fold bm; lia).
  erewrite bindP_lift_ok by (apply getitem_pred with (d := joint0); fold bm; lia).
  fold bm. unfold bindP, plt_call, beam_drawing, joint_of. cbn [py plt figure files].
  rewrite <- !app_assoc. reflexivity.
Qed.

(** A beam that names a joint beyond the table: IndexError, before any
    call of pyplot. *)
Lemma plot_body_beyond (st : State F) (cv : Canvas F) b :
  let bm := nth b (beams st) beam0 in
  (b < length (beams st))%nat ->
  Z.of_nat (length (joints st)) < ba bm \/
  (1 <= ba bm <= Z.of_nat (length (joints st)) /\ Z.of_nat (length (joints st)) < bb bm) ->
  plot_body b (mkProcess st cv) = (Raise IndexError, mkProcess st cv).
Proof.
  intros bm Hb Hd. pose proof int64_min_neg as Hmin.
  unfold plot_body.
  erewrite bindP_lift_ok by reflexivity.
  erewrite bindP_lift_ok by reflexivity.
  erewrite bindP_lift_ok by (apply getitem_nat with (d := beam0); exact Hb).
  erewrite bindP_lift_ok by (apply int64_pred_run; fold bm; lia).
  destruct Hd as [Hd|[Ha Hd]].
  - erewrite bindP_lift_raise by (apply getitem_high; fold bm; lia). reflexivity.
  - erewrite bindP_lift_ok by (apply getitem_pred with (d := joint0); fold bm; lia).
    erewrite bindP_lift_ok by (apply getitem_nat with (d := beam0); exact Hb).
    erewrite bindP_lift_ok by (apply int64_pred_run; fold bm; lia).
    erewrite bindP_lift_raise by (apply getitem_high; fold bm; lia). reflexivity.
Qed.

Lemma plot_loop_run (st : State F) : forall l (cv : Canvas F),
  (forall b, In b l ->
     (b < length (beams st))%nat /\
     beam_ok (length (joints st)) (nth b (beams st) beam0) = true) ->
  for_eachP plot_body l (mkProcess st cv) =
  (Ok tt, mkProcess st
            (mkCanvas (figure cv ++
                       flat_map (fun b => beam_drawing (joints st) (nth b (beams st) beam0)) l)
                      (files cv))).
Proof.
  induction l as [|b l IH]; intros cv Hl.
  - cbn. rewrite app_nil_r. destruct cv; reflexivity.
  - cbn [for_eachP flat_map]. destruct (Hl b (or_introl eq_refl)) as [Hb Hok].
    unfold bindP at 1. rewrite plot_body_run by assumption.
    rewrite IH by (intros; apply Hl; now right).
    cbn [figure files]. rewrite <- app_assoc. reflexivity.
Qed.

Lemma drawing_by_index (js : list (Joint F)) (bs : list Beam) :
  flat_map (fun b => beam_drawing js (nth b bs beam0)) (seq 0 (length bs)) = drawing js bs.
Proof.
  unfold drawing.
  assert (E : forall l, flat_map (fun b => beam_drawing js (nth b bs beam0)) l =
                        flat_map (beam_drawing js) (map (fun b => nth b bs beam0) l)).
  { induction l as [|b l IH]; [reflexivity|]. cbn [flat_map map]. now rewrite IH. }
  rewrite E, map_nth_seq. reflexivity.
Qed.

Lemma plot_all_beams (st : State F) (cv : Canvas F) :
  forallb (beam_ok (length (joints st))) (beams st) = true ->
  for_eachP plot_body (seq 0 (length (beams st))) (mkProcess st cv) =
  (Ok tt, mkProcess st (mkCanvas (figure cv ++ drawing (joints st) (beams st)) (files cv))).
Proof.
  intros Hok. rewrite forallb_forall in Hok.
  rewrite plot_loop_run.
  - rewrite drawing_by_index. reflexivity.
  - intros b Hb. apply in_seq in Hb. split; [lia|]. apply Hok, nth_In. lia.
Qed.

(** X11.  When both ends of every beam are joints of the table, [PlotGeometry]
    adds to the current figure, beam after beam in table order, the
    segment between the two joints (in blue) with the two axis settings,
    and, when the backend accepts the file name, writes the figure to that
    file: the whole current figure, with whatever was drawn on it before
    the call.  The interpreter state and the object are untouched. *)
Theorem plot_draws_every_beam (st : State F) (cv : Canvas F) (plot_output : string) :
  forallb (beam_ok (length (joints st))) (beams st) = true ->
  backend plot_output = None ->
  PlotGeometry backend plot_output (mkProcess st cv) =
  (Ok tt,
   mkProcess st
     (mkCanvas (figure cv ++ drawing (joints st) (beams st))
               (files cv ++ [(plot_output, figure cv ++ drawing (joints st) (beams st))]))).
Proof.
  intros Hok Hfile. unfold PlotGeometry.
  erewrite bindP_lift_ok by reflexivity.
  unfold bindP. rewrite plot_all_beams by exact Hok.
  unfold savefig. rewrite Hfile. reflexivity.
Qed.

(** X12.  Plots pile up: [PlotGeometry] never starts a new figure, so when two
    trusses are plotted one after the other in the same process, the file
    of the second shows the beams of the first as well. *)
Theorem plots_pile_up (st1 st2 : State F) (cv : Canvas F) (out1 out2 : string) :
  forallb (beam_ok (length (joints st1))) (beams st1) = true ->
  forallb (beam_ok (length (joints st2))) (beams st2) = true ->
  backend out1 = None ->
  backend out2 = None ->
  exists cv1,
    PlotGeometry backend out1 (mkProcess st1 cv) = (Ok tt, mkProcess st1 cv1) /\
    PlotGeometry backend out2 (mkProcess st2 cv1) =
    (Ok tt,
     mkProcess st2
       (mkCanvas
          (figure cv ++ drawing (joints st1) (beams st1) ++ drawing (joints st2) (beams st2))
          (files cv ++
           [(out1, figure cv ++ drawing (joints st1) (beams st1));
            (out2, figure cv ++ drawing (joints st1) (beams st1) ++
                   drawing (joints st2) (beams st2))]))).
Proof.
  intros H1 H2 Hf1 Hf2.
  exists (mkCanvas (figure cv ++ drawing (joints st1) (beams st1))
                   (files cv ++ [(out1, figure cv ++ drawing (joints st1) (beams st1))])).
  unfold PlotGeometry. split.
  - erewrite bindP_lift_ok by reflexivity.
    unfold bindP. rewrite plot_all_beams by exact H1.
    unfold savefig. rewrite Hf1. reflexivity.
  - erewrite bindP_lift_ok by reflexivity.
    unfold bindP. rewrite plot_all_beams by exact H2.
    unfold savefig. rewrite Hf2. cbn [py plt figure files].
    rewrite <- !app_assoc. reflexivity.
Qed.

(** X13.  At the first beam that names a joint beyond the end of the table
    [PlotGeometry] raises IndexError: the beams before it stay drawn on the
    current figure, and no file is written. *)
Theorem plot_stops_at_missing_joint (st : State F) (cv : Canvas F) (plot_output : string)
    (pre post : list Beam) (bm : Beam) :
  beams st = pre ++ bm :: post ->
  forallb (beam_ok (length (joints st))) pre = true ->
  Z.of_nat (length (joints st)) < ba bm \/
  (1 <= ba bm <= Z.of_nat (length (joints st)) /\ Z.of_nat (length (joints st)) < bb bm) ->
  PlotGeometry backend plot_output (mkProcess st cv) =
  (Raise IndexError,
   mkProcess st (mkCanvas (figure cv ++ drawing (joints st) pre) (files cv))).
Proof.
  intros Hbs Hok Hd. rewrite forallb_forall in Hok.
  unfold PlotGeometry.
  erewrite bindP_lift_ok by reflexivity.
  rewrite Hbs at 1. rewrite length_app. cbn [length].
  replace (length pre + S (length post))%nat with (length pre + (1 + length post))%nat by lia.
  rewrite seq_app. cbn [seq Nat.add app].
  unfold bindP at 1. rewrite for_eachP_app. unfold bindP at 1.
  rewrite plot_loop_run.
  - cbn [for_eachP]. unfold bindP at 1.
    rewrite plot_body_beyond.
    + do 4 f_equal.
      rewrite <- (drawing_by_index (joints st) pre).
      apply flat_map_ext_on. intros b Hb. apply in_seq in Hb.
      rewrite Hbs, app_nth1 by lia. reflexivity.
    + rewrite Hbs, length_app. cbn [length]. lia.
    + rewrite Hbs, nth_middle. exact Hd.
  - intros b Hb. apply in_seq in Hb. split.
    + rewrite Hbs, length_app. cbn [length]. lia.
    + rewrite Hbs, app_nth1 by lia. apply Hok, nth_In. lia.
Qed.

End Plot.

(** * The determinacy check and the forces returned *)

Section Determinacy.

Context {F : Type} {SF : Scalar F}.
Variable spsolve : csr F -> list F -> solver_outcome F.

(** Where the check of line 110 does compare the counts: in a well-formed
    geometry with at least one beam whose last joint carries a beam or a
    support, [max(row) + 1] is twice the number of joints and
    [max(col) + 1] the number of beams plus two per supported joint; when
    the two counts differ [calculate_force] raises the RuntimeError and
    leaves the state as it was. *)
Lemma not_determinate_attached (st : State F) :
  well_formed st = true ->
  beams st <> [] ->
  attached st (Z.of_nat (length (joints st))) = true ->
  2 * Z.of_nat (length (joints st)) <>
  Z.of_nat (length (beams st)) + 2 * Z.of_nat (length (supported (joints st))) ->
  calculate_force spsolve st = (Raise (RuntimeError msg_not_suitable), st).
Proof.
  intros Hwf Hne Hat Hcount.
  destruct (shape_attached st Hwf Hne Hat) as (a & sol & Ha & _ & Hshape).
  unfold calculate_force. erewrite bind_ok by exact Ha.
  eapply check_mismatch; eassumption.
Qed.


End Determinacy.

(** * Concrete runs, in exact arithmetic *)

Import ExactQ.

(** The rational solver returns only solutions. *)
Lemma solveQ_sound (A : csr Q) (b f : list Q) :
  solveQ A b = Solved f -> mat_vec A f = b.
Proof.
  unfold solveQ. destruct (jordan _ _ _) as [rows|]; [|discriminate].
  destruct (list_eq_dec _ _ _) as [E|_]; [|discriminate].
  destruct (Nat.eq_dec _ _); [|discriminate].
  intros [= <-]. exact E.
Qed.

(** The collinear truss: square, and the solver reports a singular matrix. *)
Lemma unsolved_returns_empty_witness :
  calculate_force solveQ collinear =
  (Ok [], mkState (joints collinear) (beams collinear) true
                  (stdout collinear ++ [msg_cannot_solve])
                  (solves collinear ++ [(matrix_of collinear, snd (assembled collinear))])) /\
  fst (calculate_force solveQ collinear) <> Raise (RuntimeError msg_not_suitable).
Proof.
  apply (@unsolved_returns_empty Q scalarQ solveQ collinear collinear
           (fst (assembled collinear)) (snd (assembled collinear)) (matrix_of collinear)).
  - vm_compute. reflexivity.
  - vm_compute. reflexivity.
  - vm_compute. reflexivity.
  - vm_compute. reflexivity.
Defined.

(** A second call on the two bars assembles what the first did. *)
Lemma geometry_is_never_modified_witness :
  assembled (snd (calculate_force solveQ two_bar)) = assembled two_bar.
Proof.
  symmetry.
  apply (proj2 (@geometry_is_never_modified Q scalarQ solveQ two_bar)
           (snd (calculate_force solveQ two_bar))).
  - vm_compute. reflexivity.
  - vm_compute. reflexivity.
  - vm_compute. reflexivity.
  - vm_compute. reflexivity.
Defined.

(** A beam to joint 5 of a table of two joints. *)
Lemma constructor_checks_nothing_witness :
  exists e,
    calculate_force solveQ (fresh dangling_joints dangling_beams) =
    (Raise e, fresh dangling_joints dangling_beams).
Proof.
  apply (proj2 (@constructor_checks_nothing Q scalarQ solveQ
                  dangling_joints dangling_beams (fresh [] []))).
  vm_compute. reflexivity.
Defined.

(** C2 fails on the code: the constructor accepts a table with a beam of
    length zero, and one with a beam to a joint that does not exist. *)
Lemma constructor_accepts_bad_tables :
  (coincident (fresh coincident_joints coincident_beams) = true /\
   Truss_init coincident_joints coincident_beams (fresh [] []) =
     (Ok tt, fresh coincident_joints coincident_beams)) /\
  (dangling (fresh dangling_joints dangling_beams) = true /\
   Truss_init dangling_joints dangling_beams (fresh [] []) =
     (Ok tt, fresh dangling_joints dangling_beams)).
Proof. repeat split; vm_compute; reflexivity. Qed.

(** The middle joint of the collinear truss has no vertical partner: its
    y-row is zero on the left and 10 on the right, so no vector solves the
    system. *)
Lemma collinear_has_no_solution (f : list Q) :
  mat_vec (matrix_of collinear) f <> snd (assembled collinear).
Proof.
  intros H. apply (f_equal (fun v => nth 3 v 0%Q)) in H.
  destruct f as [|[n0 d0] [|[n1 d1] f']]; vm_compute in H; discriminate.
Qed.

(** C3 fails on the code: the collinear truss gives a square system (6 by
    6) that no vector solves and on which the solver reports a singular
    matrix; [calculate_force] raises nothing and returns the empty
    sequence. *)
Lemma singular_returns_empty :
  shape (fst (assembled collinear)) = Some (6, 6)%Z /\
  (forall f, mat_vec (matrix_of collinear) f <> snd (assembled collinear)) /\
  solveQ (matrix_of collinear) (snd (assembled collinear)) = Warns (repeat 0%Q 6) /\
  fst (calculate_force solveQ collinear) = Ok [].
Proof.
  split; [vm_compute; reflexivity|].
  split; [exact collinear_has_no_solution|].
  split; vm_compute; reflexivity.
Qed.

(** The first bar of the two: from (0,0) to (3,4). *)
Lemma beam_coefficients_witness :
  exists a sol,
    assemble two_bar = (Ok (a, sol), two_bar) /\
    in_column 0 (entries a) =
    [ (0, 0, -3 # 5); (1, 0, -4 # 5); (4, 0, 3 # 5); (5, 0, 4 # 5) ]%Z.
Proof.
  apply (@beam_coefficients Q scalarQ two_bar 0%nat).
  - vm_compute. reflexivity.
  - cbn. lia.
Defined.

(** C5 at a geometry whose last joint carries nothing: four joints, a
    right-hand side of eight entries, but a matrix of six rows; scipy
    refuses the pair, and [calculate_force] prints its message and returns
    the empty sequence. *)
Lemma spare_joint_rows :
  length (joints two_bar_spare) = 4%nat /\
  length (snd (assembled two_bar_spare)) = 8%nat /\
  shape (fst (assembled two_bar_spare)) = Some (6, 6)%Z /\
  calculate_force solveQ two_bar_spare =
  (Ok [], mkState (joints two_bar_spare) (beams two_bar_spare) true
                  [msg_cannot_solve]
                  [(matrix_of two_bar_spare, snd (assembled two_bar_spare))]).
Proof. repeat split; vm_compute; reflexivity. Qed.

(** C1 at the same geometry, and at a truss without beams.  With the spare
    joint the system has 2 x 4 = 8 rows, as the right-hand side of line 88
    has, and 2 + 2 x 2 = 6 columns; line 110 compares [max(row)] with
    [max(col)], 5 and 5, so no RuntimeError is raised: whatever the solver
    is, it is handed the 6 by 6 matrix with the right-hand side of 8
    entries, and [calculate_force] prints its message and returns the empty
    sequence.  Without beams, two joints of which one is supported give 4
    rows and 2 columns, and the exception is the ValueError of [max] on an
    empty list. *)
Theorem spare_joint_passes_the_check (spsolve : csr Q -> list Q -> solver_outcome Q) :
  (well_formed two_bar_spare = true /\
   2 * Z.of_nat (length (joints two_bar_spare)) = 8 /\
   Z.of_nat (length (snd (assembled two_bar_spare))) = 8 /\
   Z.of_nat (length (beams two_bar_spare)) +
   2 * Z.of_nat (length (supported (joints two_bar_spare))) = 6 /\
   calculate_force spsolve two_bar_spare =
   (Ok [], mkState (joints two_bar_spare) (beams two_bar_spare) true
                   [msg_cannot_solve]
                   [(matrix_of two_bar_spare, snd (assembled two_bar_spare))])) /\
  (well_formed no_beams = true /\
   2 * Z.of_nat (length (joints no_beams)) = 4 /\
   Z.of_nat (length (beams no_beams)) +
   2 * Z.of_nat (length (supported (joints no_beams))) = 2 /\
   calculate_force spsolve no_beams = (Raise (ValueError msg_max_empty), no_beams)).
Proof.
  split.
  - repeat split; vm_compute; reflexivity.
  - repeat split; vm_compute; reflexivity.
Qed.



(** No residual is checked: a solver that answers zeros to everything has
    its zeros returned as the forces of the two bars. *)
Lemma no_residual_check :
  let zeros (A : csr Q) (b : list Q) := Solved (repeat 0%Q (Z.to_nat (ncols A))) in
  fst (calculate_force zeros two_bar) = Ok [0; 0]%Q /\
  mat_vec (matrix_of two_bar) (repeat 0%Q 6) <> snd (assembled two_bar).
Proof.
  split; [vm_compute; reflexivity | vm_compute; discriminate].
Qed.

(** C7 fails on the code: on scenario 1 no force is returned. *)
Lemma scenario1_returns_no_force :
  ~ exists f, fst (calculate_force solveQ scenario1) = Ok [f] /\ (Qabs f == 10 # 1)%Q.
Proof.
  intros (f & H & _).
  assert (E : fst (calculate_force solveQ scenario1) =
              Raise (RuntimeError msg_not_suitable)) by (vm_compute; reflexivity).
  rewrite E in H. discriminate.
Qed.

(** Scenario 1. *)
Lemma single_beam_not_determinate_witness :
  shape (fst (assembled scenario1)) = Some (4, 3)%Z /\
  calculate_force solveQ scenario1 = (Raise (RuntimeError msg_not_suitable), scenario1).
Proof.
  apply (@single_beam_not_determinate Q scalarQ solveQ scenario1
           (jt 1 0 0 0 0 1) (jt 2 1 0 (-10 # 1) 0 0) (mkBeam 1 1 2)).
  - vm_compute. reflexivity.
  - reflexivity.
  - reflexivity.
  - reflexivity.
  - reflexivity.
  - vm_compute. reflexivity.
  - vm_compute. reflexivity.
Defined.

(** Two joints, the first supported, and no beam. *)
Lemma no_beams_raises_witness :
  calculate_force solveQ no_beams = (Raise (ValueError msg_max_empty), no_beams) /\
  assemble no_beams = (Raise (ValueError msg_max_empty), no_beams).
Proof.
  destruct (@no_beams_raises Q scalarQ solveQ no_beams eq_refl) as [_ H].
  destruct H as (H1 & H2 & _); [vm_compute; reflexivity|].
  split; [exact H1 | apply H2; discriminate].
Defined.

(** The two bars: beams in columns 0 and 1, reactions in columns 2 to 5. *)
Lemma reaction_columns_witness :
  col (fst (assembled two_bar)) = [0; 0; 0; 0; 1; 1; 1; 1; 2; 3; 4; 5]%Z /\
  in_column 4 (entries (fst (assembled two_bar))) = [(2, 4, 1%Q)]%Z /\
  in_column 5 (entries (fst (assembled two_bar))) = [(3, 5, 1%Q)]%Z /\
  exists a sol, assemble two_bar = (Ok (a, sol), two_bar).
Proof.
  destruct (@reaction_columns Q scalarQ two_bar) as [H1 H2]; [discriminate|].
  destruct (H1 (fst (assembled two_bar)) (snd (assembled two_bar)) two_bar)
    as [Hc Hs]; [vm_compute; reflexivity|].
  split; [exact Hc|].
  split; [exact (proj1 (Hs 1%nat (jt 2 (6 # 1) 0 0 0 1) eq_refl))|].
  split; [exact (proj2 (Hs 1%nat (jt 2 (6 # 1) 0 0 0 1) eq_refl))|].
  apply H2. vm_compute. reflexivity.
Defined.

(** ** Remarks in exact arithmetic *)

(** The vector placed at the second joint of a beam is the opposite of the
    one placed at the first. *)
Lemma unit_mirrored (p q : Joint Q) :
  unit_x q p = fneg (unit_x p q) /\ unit_y q p = fneg (unit_y p q).
Proof.
  assert (Hn : fadd (fpow2 (fsub (jx q) (jx p))) (fpow2 (fsub (jy q) (jy p))) =
               fadd (fpow2 (fsub (jx p) (jx q))) (fpow2 (fsub (jy p) (jy q)))).
  { cbn [fadd fpow2 fsub scalarQ]. apply Qred_complete.
    rewrite !Qred_correct. ring. }
  unfold unit_x, unit_y, ucomp. rewrite Hn.
  generalize (fsqrt (fadd (fpow2 (fsub (jx p) (jx q))) (fpow2 (fsub (jy p) (jy q))))).
  intros n. cbn [fdiv fneg fsub scalarQ].
  split; apply Qred_complete; rewrite !Qred_correct; unfold Qdiv; ring.
Qed.

(** The warnings filter outlives the call that installs it: the first call
    on a truss with a beam of length zero gets through the assembly (the
    division is flagged, the filter is not yet 'error'), the second raises
    the RuntimeWarning at that division. *)
Lemma filter_outlives_the_call :
  let st1 := snd (calculate_force solveQ zero_length) in
  fst (assemble zero_length) = Ok (assembled zero_length) /\
  warn_error st1 = true /\
  joints st1 = joints zero_length /\ beams st1 = beams zero_length /\
  fst (calculate_force solveQ st1) = Raise RuntimeWarning.
Proof. repeat split; vm_compute; reflexivity. Qed.

(** ** Further runs *)

Import ExactReport.

(** Scenario 1 raises (4 rows, 3 columns) and is left as it was. *)
Lemma raise_leaves_no_trace_witness :
  snd (calculate_force solveQ scenario1) = scenario1.
Proof.
  apply (@raise_leaves_no_trace Q scalarQ solveQ scenario1
           (snd (calculate_force solveQ scenario1)) (RuntimeError msg_not_suitable)).
  vm_compute. reflexivity.
Defined.

(** The two bars: one solve, of a 6 by 6 system, and nothing printed. *)
Lemma return_means_one_solve_witness :
  warn_error (snd (calculate_force solveQ two_bar)) = true /\
  (exists A b, solves (snd (calculate_force solveQ two_bar)) = solves two_bar ++ [(A, b)] /\
               nrows A = ncols A /\ within_shape A = true) /\
  (stdout (snd (calculate_force solveQ two_bar)) = stdout two_bar \/
   (stdout (snd (calculate_force solveQ two_bar)) = stdout two_bar ++ [msg_cannot_solve] /\
    [125 # 2; 125 # 2]%Q = [])).
Proof.
  apply (@return_means_one_solve Q scalarQ solveQ two_bar
           (snd (calculate_force solveQ two_bar)) [125 # 2; 125 # 2]%Q).
  vm_compute. reflexivity.
Defined.

(** Scenario 1 has one beam. *)
Lemma odd_beams_never_solved_witness :
  (exists e, calculate_force solveQ scenario1 = (Raise e, scenario1)) /\
  (forall sys st', assemble scenario1 = (Ok sys, st') ->
     calculate_force solveQ scenario1 = (Raise (RuntimeError msg_not_suitable), scenario1)).
Proof.
  apply (@odd_beams_never_solved Q scalarQ solveQ scenario1).
  reflexivity.
Defined.

(** The two bars: six unknowns solved for, the first two returned. *)
Lemma one_force_per_beam_witness :
  exists bf st2,
    calculate_force solveQ two_bar = (Ok bf, st2) /\
    length bf = length (beams two_bar) /\
    forall i, (i < length (beams two_bar))%nat ->
      nth_error bf i = nth_error [125 # 2; 125 # 2; 75 # 2; 50; -75 # 2; 50]%Q i.
Proof.
  apply (@one_force_per_beam Q scalarQ solveQ two_bar two_bar
           (fst (assembled two_bar)) (snd (assembled two_bar)) (matrix_of two_bar)).
  - discriminate.
  - vm_compute. reflexivity.
  - vm_compute. reflexivity.
  - vm_compute. reflexivity.
  - vm_compute. reflexivity.
  - vm_compute. reflexivity.
  - vm_compute. reflexivity.
Defined.

(** The two bars: the load of -100 on the apex is the 100 at position 5. *)
Lemma right_hand_side_witness :
  exists a sol,
    assemble two_bar = (Ok (a, sol), two_bar) /\
    length sol = (2 * length (joints two_bar))%nat /\
    (forall i j, nth_error (joints two_bar) i = Some j ->
       nth_error sol (2 * i) = Some (rhs_entry (jfx j)) /\
       nth_error sol (2 * i + 1) = Some (rhs_entry (jfy j))).
Proof.
  apply (@right_hand_side Q scalarQ two_bar).
  - vm_compute. reflexivity.
  - discriminate.
Defined.

(** The truss with a beam of length zero, after a first call. *)
Lemma flagged_operation_raises_witness :
  calculate_force solveQ (snd (calculate_force solveQ zero_length)) =
  (Raise RuntimeWarning, snd (calculate_force solveQ zero_length)).
Proof.
  apply (@flagged_operation_raises Q scalarQ solveQ
           (snd (calculate_force solveQ zero_length))).
  - vm_compute. reflexivity.
  - vm_compute. reflexivity.
  - vm_compute. reflexivity.
Defined.

(** The two bars, called twice. *)
Lemma second_call_agrees_witness :
  fst (calculate_force solveQ (snd (calculate_force solveQ two_bar))) =
  fst (calculate_force solveQ two_bar).
Proof.
  apply (@second_call_agrees Q scalarQ solveQ two_bar).
  - vm_compute. reflexivity.
  - vm_compute. reflexivity.
  - discriminate.
Defined.

(** Joint 0 of the first beam is joint 3 of the two bars. *)
Lemma index_wraps_around_witness :
  (exists sys, assemble two_bar_wrapped = (Ok sys, two_bar_wrapped) /\
               assemble two_bar = (Ok sys, two_bar)) /\
  fst (calculate_force solveQ two_bar_wrapped) = fst (calculate_force solveQ two_bar).
Proof.
  apply (@index_wraps_around Q scalarQ solveQ two_bar_wrapped).
  - vm_compute. reflexivity.
  - vm_compute. reflexivity.
  - discriminate.
  - vm_compute. reflexivity.
Defined.

(** The table printed for the two bars. *)
Lemma repr_follows_calculate_force_witness :
  Truss_repr solveQ fmtQ3 two_bar =
  (Ok (render fmtQ3 [125 # 2; 125 # 2]%Q), snd (calculate_force solveQ two_bar)).
Proof.
  apply (@repr_follows_calculate_force Q scalarQ solveQ fmtQ3 two_bar
           (snd (calculate_force solveQ two_bar)) (Ok [125 # 2; 125 # 2]%Q)).
  - vm_compute. reflexivity.
  - intros bf [= <-]. vm_compute. reflexivity.
Defined.

(** The two bars drawn on a blank figure and written to a file. *)
Lemma plot_draws_every_beam_witness :
  PlotGeometry any_file "truss.png" (mkProcess two_bar blank) =
  (Ok tt,
   mkProcess two_bar
     (mkCanvas (figure blank ++ drawing (joints two_bar) (beams two_bar))
               (files blank ++
                [("truss.png"%string,
                  figure blank ++ drawing (joints two_bar) (beams two_bar))]))).
Proof.
  apply (@plot_draws_every_beam Q scalarQ any_file two_bar blank "truss.png"%string).
  - vm_compute. reflexivity.
  - reflexivity.
Defined.

(** The third beam names joint 7 of a table of three. *)
Lemma plot_stops_at_missing_joint_witness :
  PlotGeometry any_file "truss.png" (mkProcess two_bar_stray blank) =
  (Raise IndexError,
   mkProcess two_bar_stray
     (mkCanvas (figure blank ++ drawing (joints two_bar_stray) [mkBeam 1 1 3; mkBeam 2 2 3])
               (files blank))).
Proof.
  apply (@plot_stops_at_missing_joint Q scalarQ any_file two_bar_stray blank "truss.png"%string
           [mkBeam 1 1 3; mkBeam 2 2 3] [] (mkBeam 3 1 7)).
  - reflexivity.
  - vm_compute. reflexivity.
  - right. cbn. lia.
Defined.

(** The collinear truss prints its message and shows as the empty string. *)
Lemma repr_of_unsolved_is_empty_witness :
  Truss_repr solveQ fmtQ3 collinear =
  (Ok EmptyString,
   mkState (joints collinear) (beams collinear) true
           (stdout collinear ++ [msg_cannot_solve])
           (solves collinear ++ [(matrix_of collinear, snd (assembled collinear))])).
Proof.
  apply (@repr_of_unsolved_is_empty Q scalarQ solveQ fmtQ3 collinear collinear
           (fst (assembled collinear)) (snd (assembled collinear)) (matrix_of collinear)).
  - vm_compute. reflexivity.
  - vm_compute. reflexivity.
  - vm_compute. reflexivity.
  - vm_compute. reflexivity.
Defined.

(** The collinear truss plotted after the two bars: its file shows four
    beams. *)
Lemma plots_pile_up_witness :
  exists cv1,
    PlotGeometry any_file "a.png" (mkProcess two_bar blank) = (Ok tt, mkProcess two_bar cv1) /\
    PlotGeometry any_file "b.png" (mkProcess collinear cv1) =
    (Ok tt,
     mkProcess collinear
       (mkCanvas
          (figure blank ++ drawing (joints two_bar) (beams two_bar) ++
           drawing (joints collinear) (beams collinear))
          (files blank ++
           [("a.png"%string, figure blank ++ drawing (joints two_bar) (beams two_bar));
            ("b.png"%string, figure blank ++ drawing (joints two_bar) (beams two_bar) ++
                             drawing (joints collinear) (beams collinear))]))).
Proof.
  apply (@plots_pile_up Q scalarQ any_file two_bar collinear blank
           "a.png"%string "b.png"%string).
  - vm_compute. reflexivity.
  - vm_compute. reflexivity.
  - reflexivity.
  - reflexivity.
Defined.
